(** * Workflow builder: step logging, integration store and graph execution

    A shallow embedding of the server-side logic of the workflow builder:

    - the step-logging wrappers ([withStepLogging], [stepHandler]) and the
      log-store functions ([logStepStartDb], [logStepCompleteDb]);
    - the integration credential store (AES-256-GCM envelope, config
      decryption, ownership validation of integration references);
    - the graph execution model (dependency ordering, interpolation,
      executor).

    Asynchronous functions are modelled in a state-and-exception monad over
    an explicit world: an [await] is a sequential bind, a rejected promise
    is a thrown value. *)

From Stdlib Require Import ZArith NArith Lia.
From Stdlib.Strings Require Import Ascii String Byte.
From stdpp Require Import base option list strings pretty gmap.

Local Open Scope Z_scope.
Local Open Scope string_scope.
Local Open Scope list_scope.
Local Set Warnings "-register-all".

(** ** JavaScript values *)

(** JSON-shaped runtime values. Numbers are the integers; an object is the
    list of its own properties in insertion order. *)
Inductive Value : Type :=
| VUndefined
| VNull
| VBool (b : bool)
| VNum (n : Z)
| VStr (s : string)
| VArr (items : list Value)
| VObj (props : list (string * Value)).

(** Property lookup [o[k]] on the own properties of an object. *)
Fixpoint assoc_get (k : string) (props : list (string * Value)) : option Value :=
  match props with
  | [] => None
  | (k', v) :: rest => if String.eqb k k' then Some v else assoc_get k rest
  end.

(** JavaScript truthiness. *)
Definition truthy (v : Value) : bool :=
  match v with
  | VUndefined | VNull => false
  | VBool b => b
  | VNum n => negb (Z.eqb n 0)
  | VStr s => negb (String.eqb s "")
  | VArr _ | VObj _ => true
  end.

(** [s.split(sep)] for a one-character separator. *)
Fixpoint str_split (sep : ascii) (s : string) : list string :=
  match s with
  | EmptyString => [""]
  | String c rest =>
      if Ascii.eqb c sep then "" :: str_split sep rest
      else match str_split sep rest with
           | first :: others => String c first :: others
           | [] => [String c EmptyString]
           end
  end.

(** The character [c] does not occur in [s]. *)
Fixpoint lacks (c : ascii) (s : string) : bool :=
  match s with
  | EmptyString => true
  | String c' rest => negb (Ascii.eqb c' c) && lacks c rest
  end.

(** A thrown value: an [Error] instance with its message, or anything else. *)
Inductive Exn : Type :=
| JsError (message : string)
| JsThrown (v : Value).

(** The outcome of running a piece of code: it returns or it throws. *)
Inductive Outcome (A : Type) : Type :=
| Returned (a : A)
| Thrown (e : Exn).
Arguments Returned {A} a.
Arguments Thrown {A} e.

(** ** The world of a step: clock, network and log endpoint *)

Inductive CompletionStatus : Type := StSuccess | StError.

(** JSON bodies POSTed to [/api/workflow-log]. *)
Inductive LogRequest : Type :=
| StartReq (executionId nodeId nodeName nodeType : string) (input : Value)
| CompleteReq (logId : string) (startTime : Z) (status : CompletionStatus)
              (output : Value) (error : option Value).

(** The body of a response to a start request, as far as the caller reads
    it: [result.logId] and [result.startTime], each possibly absent. *)
Record StartBody : Type := mkStartBody {
  body_logId : option string;
  body_startTime : option Z;
}.

(** A [fetch] response: the [ok] flag and the result of [response.json()]
    ([None] when parsing the body rejects). *)
Record Response : Type := mkResponse {
  ok : bool;
  json_body : option StartBody;
}.

(** What a [fetch] call does: it rejects (network failure) or resolves. *)
Inductive FetchResult : Type :=
| NetworkError
| Resolved (r : Response).

Record World : Type := mkWorld {
  clock : Z;                     (* the value of Date.now() *)
  network : list FetchResult;    (* the fate of the upcoming fetch calls *)
  wire : list LogRequest;        (* bodies handed to fetch so far *)
  console : list string;         (* console.error diagnostics *)
}.

(** ** State and exception monad *)

(** Code with effects on a state [S] that returns or throws. *)
Definition Eff (S A : Type) : Type := S → Outcome A * S.

Definition ret {S A} (a : A) : Eff S A := λ w, (Returned a, w).
Definition throw {S A} (e : Exn) : Eff S A := λ w, (Thrown e, w).
Definition bind {S A B} (m : Eff S A) (k : A → Eff S B) : Eff S B :=
  λ w, match m w with
       | (Returned a, w') => k a w'
       | (Thrown e, w') => (Thrown e, w')
       end.
(** [try { body } catch (error) { handler }] *)
Definition try_catch {S A} (body : Eff S A) (handler : Exn → Eff S A)
  : Eff S A :=
  λ w, match body w with
       | (Returned a, w') => (Returned a, w')
       | (Thrown e, w') => handler e w'
       end.

Notation "x <- m ;; k" := (bind m (λ x, k))
  (at level 100, m at next level, right associativity).
Notation "m ;;; k" := (bind m (λ _, k))
  (at level 100, right associativity).

(** Steps run in the world of the clock, the network and the console. *)
Abbreviation M := (Eff World).

Definition Date_now : M Z := λ w, (Returned (clock w), w).

Definition console_error (msg : string) : M unit :=
  λ w, (Returned tt,
        {| clock := clock w; network := network w; wire := wire w;
           console := console w ++ [msg] |}).

(** [fetch(url, {method: "POST", body: JSON.stringify(req)})]: the request
    goes on the wire and the next entry of [network] decides the result; an
    exhausted network rejects. *)
Definition fetch (req : LogRequest) : M Response :=
  λ w,
    let sent rest :=
      {| clock := clock w; network := rest; wire := wire w ++ [req];
         console := console w |} in
    match network w with
    | [] => (Thrown (JsError "fetch failed"), sent [])
    | NetworkError :: rest => (Thrown (JsError "fetch failed"), sent rest)
    | Resolved r :: rest => (Returned r, sent rest)
    end.

(** [await response.json()] *)
Definition response_json (r : Response) : M StartBody :=
  match json_body r with
  | Some b => ret b
  | None => throw (JsError "Unexpected end of JSON input")
  end.

Record StepContext : Type := mkStepContext {
  executionId : option string;
  nodeId : string;
  nodeName : string;
  nodeType : string;
}.

Record LogInfo : Type := mkLogInfo {
  logId : string;
  startTime : Z;
}.

(** [error instanceof Error ? error.message : "Unknown error"] *)
Definition errorMessageOf (error : Exn) : string :=
  match error with
  | JsError message => message
  | JsThrown _ => "Unknown error"
  end.

(** [result && typeof result === "object" && "success" in result &&
    result.success === false] *)
Definition isErrorResult (result : Value) : bool :=
  match result with
  | VObj props =>
      match assoc_get "success" props with
      | Some (VBool false) => true
      | _ => false
      end
  | _ => false
  end.

(** [errorResult.error || "Step execution failed"] *)
Definition errorOrDefault (result : Value) : Value :=
  match result with
  | VObj props =>
      match assoc_get "error" props with
      | Some e => if truthy e then e else VStr "Step execution failed"
      | None => VStr "Step execution failed"
      end
  | _ => VStr "Step execution failed"
  end.

(** [!context?.executionId]: the execution id when it is a non-empty string. *)
Definition contextExecutionId (context : option StepContext) : option string :=
  match context with
  | Some c =>
      match executionId c with
      | Some id => if String.eqb id "" then None else Some id
      | None => None
      end
  | None => None
  end.

(** [x || ""] on an optional string, [x || fallback] on an optional number. *)
Definition or_empty (x : option string) : string := default "" x.
Definition or_number (x : option Z) (fallback : Z) : Z :=
  match x with
  | Some n => if Z.eqb n 0 then fallback else n
  | None => fallback
  end.

(** ** Step logging utilities called from inside steps ([withStepLogging]) *)

Module StepLogging.
Section WithRedaction.

(** The redaction collaborator of [utils/redact]. *)
Variable redactSensitiveData : Value → Value.

Definition logStepStart (context : option StepContext) (input : Value)
  : M LogInfo :=
  match contextExecutionId context, context with
  | Some execId, Some ctx =>
      try_catch
        (let redactedInput := redactSensitiveData input in
         response <- fetch (StartReq execId (nodeId ctx) (nodeName ctx)
                                     (nodeType ctx) redactedInput) ;;
         if ok response then
           result <- response_json response ;;
           now <- Date_now ;;
           ret {| logId := or_empty (body_logId result);
                  startTime := or_number (body_startTime result) now |}
         else
           now <- Date_now ;;
           ret {| logId := ""; startTime := now |})
        (λ error,
           console_error "[stepHandler] Failed to log start:" ;;;
           now <- Date_now ;;
           ret {| logId := ""; startTime := now |})
  | _, _ =>
      now <- Date_now ;;
      ret {| logId := ""; startTime := now |}
  end.

Definition logStepComplete (logInfo : LogInfo) (status : CompletionStatus)
    (output : Value) (error : option Value) : M unit :=
  if String.eqb (logId logInfo) "" then ret tt
  else
    try_catch
      (let redactedOutput := redactSensitiveData output in
       _ <- fetch (CompleteReq (logId logInfo) (startTime logInfo) status
                               redactedOutput error) ;;
       ret tt)
      (λ err, console_error "[stepHandler] Failed to log completion:").

Definition withStepLogging (context : option StepContext) (input : Value)
    (stepLogic : M Value) : M Value :=
  logInfo <- logStepStart context input ;;
  try_catch
    (result <- stepLogic ;;
     (if isErrorResult result then
        logStepComplete logInfo StError result (Some (errorOrDefault result))
      else
        logStepComplete logInfo StSuccess result None) ;;;
     ret result)
    (λ error,
       let errorMessage := errorMessageOf error in
       logStepComplete logInfo StError VUndefined
                       (Some (VStr errorMessage)) ;;;
       throw error).

End WithRedaction.
End StepLogging.

(** ** The step handler that wraps a step function from outside ([stepHandler]) *)

Module StepHandler.
Section WithRedaction.

Variable redactSensitiveData : Value → Value.

Definition logStepStart (context : StepContext) (input : Value)
  : M LogInfo :=
  match contextExecutionId (Some context) with
  | None =>
      now <- Date_now ;;
      ret {| logId := ""; startTime := now |}
  | Some execId =>
      try_catch
        (let redactedInput := redactSensitiveData input in
         response <- fetch (StartReq execId (nodeId context)
                                     (nodeName context) (nodeType context)
                                     redactedInput) ;;
         if ok response then
           result <- response_json response ;;
           now <- Date_now ;;
           ret {| logId := or_empty (body_logId result);
                  startTime := or_number (body_startTime result) now |}
         else
           now <- Date_now ;;
           ret {| logId := ""; startTime := now |})
        (λ error,
           console_error "[stepHandler] Failed to log start:" ;;;
           now <- Date_now ;;
           ret {| logId := ""; startTime := now |})
  end.

(** The [options] object is passed here as its fields. *)
Definition logStepComplete (logId : string) (startTime : Z)
    (status : CompletionStatus) (output : Value) (error : option Value)
  : M unit :=
  if String.eqb logId "" then ret tt
  else
    try_catch
      (let redactedOutput := redactSensitiveData output in
       _ <- fetch (CompleteReq logId startTime status redactedOutput error) ;;
       ret tt)
      (λ error, console_error "[stepHandler] Failed to log completion:").

Definition stepHandler (stepFn : Value → M Value) (input : Value)
    (context : StepContext) : M Value :=
  started <- logStepStart context input ;;
  let logId := logId started in
  let startTime := startTime started in
  try_catch
    (result <- stepFn input ;;
     (if isErrorResult result then
        logStepComplete logId startTime StError result
                        (Some (errorOrDefault result))
      else
        logStepComplete logId startTime StSuccess result None) ;;;
     ret result)
    (λ error,
       let errorMessage := errorMessageOf error in
       logStepComplete logId startTime StError VUndefined
                       (Some (VStr errorMessage)) ;;;
       throw error).

End WithRedaction.
End StepHandler.

(** ** What the step wrappers are observed to do *)

(** The start of a log cannot be persisted: the network fails, the response
    is not ok, or its body cannot be read. *)
Definition log_start_fails (w : World) : bool :=
  match network w with
  | [] | NetworkError :: _ => true
  | Resolved r :: _ =>
      negb (ok r) || match json_body r with Some _ => false | None => true end
  end.

(** The snapshot a request carries: the input of a start, the output of a
    completion. *)
Definition snapshot_of (req : LogRequest) : Value :=
  match req with
  | StartReq _ _ _ _ input => input
  | CompleteReq _ _ _ output _ => output
  end.

(** What a step hands to the completion log: its result, or [undefined]
    when it throws. *)
Definition output_of (o : Outcome Value) : Value :=
  match o with
  | Returned result => result
  | Thrown _ => VUndefined
  end.

(** The step failed: its result is an object whose [success] is [false], or
    it threw. *)
Definition step_failed (o : Outcome Value) : Prop :=
  (∃ props, o = Returned (VObj props)
            ∧ assoc_get "success" props = Some (VBool false))
  ∨ (∃ e, o = Thrown e).

(** A sample redaction, context, world and steps. *)
Definition sample_redact (v : Value) : Value :=
  match v with
  | VObj props =>
      VObj (map (λ kv, if String.eqb kv.1 "apiKey"
                       then (kv.1, VStr "[REDACTED]") else kv) props)
  | _ => v
  end.

Definition sample_context : StepContext :=
  {| executionId := Some "exec-1"; nodeId := "node-1";
     nodeName := "Send email"; nodeType := "action" |}.

Definition sample_input : Value :=
  VObj [("apiKey", VStr "sk-123"); ("to", VStr "a@example.com")].

Definition sample_world : World :=
  {| clock := 1000;
     network :=
       [Resolved {| ok := true;
                    json_body := Some {| body_logId := Some "log-1";
                                         body_startTime := Some 990 |} |};
        Resolved {| ok := true; json_body := None |}];
     wire := []; console := [] |}.

Definition failing_step : M Value :=
  ret (VObj [("success", VBool false); ("error", VStr "timeout")]).

Definition succeeding_step : M Value :=
  ret (VObj [("success", VBool true); ("apiKey", VStr "sk-123")]).

Definition throwing_step : M Value := throw (JsError "boom").

(** ** Server-side log store ([logStepStartDb], [logStepCompleteDb]) *)

Module WorkflowLogging.

(** The [status] column of [workflow_execution_logs]. *)
Inductive RowStatus : Type := RowRunning | RowSuccess | RowError.

#[global] Instance RowStatus_eq_dec : EqDecision RowStatus.
Proof. solve_decision. Defined.

Definition status_column (s : CompletionStatus) : RowStatus :=
  match s with
  | StSuccess => RowSuccess
  | StError => RowError
  end.

(** A row of [workflow_execution_logs]. Timestamps are milliseconds; the
    [duration] column holds the number that the code writes as a string. *)
Record LogRow : Type := mkLogRow {
  row_id : string;
  row_execution_id : string;
  row_node_id : string;
  row_node_name : string;
  row_node_type : string;
  row_status : RowStatus;
  row_input : option Value;
  row_output : option Value;
  row_error : option string;
  row_started_at : Z;
  row_completed_at : option Z;
  row_duration : option Z;
}.

(** What the database does with the next query: it reports an error, or it
    accepts it (drawing [uuid] as the default id if the query inserts). *)
Inductive DbFate : Type :=
| DbError (message : string)
| DbAccept (uuid : string).

Record Db : Type := mkDb {
  db_clock : Z;
  db_fates : list DbFate;
  logs : list LogRow;
}.

Definition Db_now : Eff Db Z := λ db, (Returned (db_clock db), db).

Definition has_id (id : string) (rows : list LogRow) : bool :=
  existsb (λ r, String.eqb (row_id r) id) rows.

(** [supabase.from("workflow_execution_logs").insert(row).select().single()]:
    resolves to [{data, error}]; the primary key [id] is unique. *)
Definition insert_log (mk : string → LogRow)
  : Eff Db (option LogRow * option Exn) :=
  λ db,
    match db_fates db with
    | [] => (Returned (None, Some (JsError "connection lost")), db)
    | DbError msg :: rest =>
        (Returned (None, Some (JsError msg)),
         {| db_clock := db_clock db; db_fates := rest; logs := logs db |})
    | DbAccept uuid :: rest =>
        if has_id uuid (logs db) then
          (Returned (None, Some (JsError "duplicate key value")),
           {| db_clock := db_clock db; db_fates := rest; logs := logs db |})
        else
          (Returned (Some (mk uuid), None),
           {| db_clock := db_clock db; db_fates := rest;
              logs := logs db ++ [mk uuid] |})
    end.

(** [supabase.from("workflow_execution_logs").update(patch).eq("id", id)]:
    resolves to [{error}]; rows with another id are left alone. *)
Definition update_log (id : string) (patch : LogRow → LogRow)
  : Eff Db (option Exn) :=
  λ db,
    match db_fates db with
    | [] => (Returned (Some (JsError "connection lost")), db)
    | DbError msg :: rest =>
        (Returned (Some (JsError msg)),
         {| db_clock := db_clock db; db_fates := rest; logs := logs db |})
    | DbAccept _ :: rest =>
        (Returned None,
         {| db_clock := db_clock db; db_fates := rest;
            logs := map (λ r, if String.eqb (row_id r) id then patch r else r)
                        (logs db) |})
    end.

Record LogStepStartParams : Type := mkLogStepStartParams {
  start_executionId : string;
  start_nodeId : string;
  start_nodeName : string;
  start_nodeType : string;
  start_input : option Value;
}.

Record LogStepStartResult : Type := mkLogStepStartResult {
  result_logId : string;
  result_startTime : Z;
}.

Definition logStepStartDb (params : LogStepStartParams)
  : Eff Db LogStepStartResult :=
  started_at <- Db_now ;;
  res <- insert_log (λ id,
           {| row_id := id;
              row_execution_id := start_executionId params;
              row_node_id := start_nodeId params;
              row_node_name := start_nodeName params;
              row_node_type := start_nodeType params;
              row_status := RowRunning;
              row_input := start_input params;
              row_output := None;
              row_error := None;
              row_started_at := started_at;
              row_completed_at := None;
              row_duration := None |}) ;;
  match res with
  | (_, Some error) => throw error
  | (Some log, None) =>
      now <- Db_now ;;
      ret {| result_logId := row_id log; result_startTime := now |}
  | (None, None) => throw (JsError "Cannot read properties of null")
  end.

(** [output] and [error] are optional: [None] is [undefined]. *)
Record LogStepCompleteParams : Type := mkLogStepCompleteParams {
  complete_logId : string;
  complete_startTime : Z;
  complete_status : CompletionStatus;
  complete_output : option Value;
  complete_error : option string;
}.

(** What [.update({..., k: v})] does to a nullable column: a key whose value
    is [undefined] is left out of the request that is sent, so the column
    keeps what it holds; any other value is written. *)
Definition written {A} (v : option A) (old : option A) : option A :=
  match v with
  | Some v => Some v
  | None => old
  end.

Definition logStepCompleteDb (params : LogStepCompleteParams)
  : Eff Db unit :=
  now <- Db_now ;;
  let duration := now - complete_startTime params in
  completed_at <- Db_now ;;
  error <- update_log (complete_logId params) (λ r,
           {| row_id := row_id r;
              row_execution_id := row_execution_id r;
              row_node_id := row_node_id r;
              row_node_name := row_node_name r;
              row_node_type := row_node_type r;
              row_status := status_column (complete_status params);
              row_input := row_input r;
              row_output := written (complete_output params) (row_output r);
              row_error := written (complete_error params) (row_error r);
              row_started_at := row_started_at r;
              row_completed_at := Some completed_at;
              row_duration := Some duration |}) ;;
  match error with
  | Some error => throw error
  | None => ret tt
  end.

(** Calls made against the log store, and the passing of time between them. *)
Inductive DbCall : Type :=
| CallStart (params : LogStepStartParams)
| CallComplete (params : LogStepCompleteParams)
| Tick (ms : Z).

Definition run_call (c : DbCall) (db : Db) : Db :=
  match c with
  | CallStart params => snd (logStepStartDb params db)
  | CallComplete params => snd (logStepCompleteDb params db)
  | Tick ms =>
      {| db_clock := db_clock db + ms; db_fates := db_fates db;
         logs := logs db |}
  end.

Definition run_calls (calls : list DbCall) (db : Db) : Db :=
  fold_left (λ d c, run_call c d) calls db.

(** The rows of a node of an execution that are in status running. *)
Definition running_rows (execId node : string) (db : Db) : list LogRow :=
  filter (λ r, row_execution_id r = execId ∧ row_node_id r = node
               ∧ row_status r = RowRunning) (logs db).

(** Every step of the sequence is started at a moment at which no row of
    its (execution, node) pair is running. *)
Fixpoint started_when_idle (calls : list DbCall) (db : Db) : bool :=
  match calls with
  | [] => true
  | call :: rest =>
      match call with
      | CallStart p =>
          Nat.eqb (length (running_rows (start_executionId p)
                             (start_nodeId p) db)) 0
      | _ => true
      end
      && started_when_idle rest (run_call call db)
  end.

(** The (execution, node) pair of a row. *)
Definition pair_of (r : LogRow) : string * string :=
  (row_execution_id r, row_node_id r).

(** What a completion writes into the row it names. *)
Definition completed_row (params : LogStepCompleteParams) (now : Z)
    (r : LogRow) : LogRow :=
  {| row_id := row_id r;
     row_execution_id := row_execution_id r;
     row_node_id := row_node_id r;
     row_node_name := row_node_name r;
     row_node_type := row_node_type r;
     row_status := status_column (complete_status params);
     row_input := row_input r;
     row_output := written (complete_output params) (row_output r);
     row_error := written (complete_error params) (row_error r);
     row_started_at := row_started_at r;
     row_completed_at := Some now;
     row_duration := Some (now - complete_startTime params) |}.

(** Sample calls and a sample store. *)
Definition sample_start (node : string) : LogStepStartParams :=
  {| start_executionId := "exec-1"; start_nodeId := node;
     start_nodeName := "Send email"; start_nodeType := "action";
     start_input := Some (VObj [("to", VStr "a@example.com")]) |}.

Definition sample_complete (id : string) (status : CompletionStatus)
  : LogStepCompleteParams :=
  {| complete_logId := id; complete_startTime := 0;
     complete_status := status; complete_output := Some (VObj []);
     complete_error := None |}.

Definition sample_db : Db :=
  {| db_clock := 0;
     db_fates := [DbAccept "log-1"; DbAccept "log-2"; DbAccept "log-3"];
     logs := [] |}.

End WorkflowLogging.

(** ** Integration credentials ([integrations-supabase]) *)

Module Integrations.

(** *** Buffers and their hex encoding *)

(** [buf.toString("hex")] *)
Definition hex_digit (n : N) : ascii :=
  if (n <? 10)%N then ascii_of_N (48 + n) else ascii_of_N (87 + n).

Definition hex_of_byte (b : byte) : string :=
  let n := Byte.to_N b in
  String (hex_digit (n / 16)) (String (hex_digit (n mod 16)) EmptyString).

Fixpoint hex_encode (buf : list byte) : string :=
  match buf with
  | [] => ""
  | b :: rest => hex_of_byte b +:+ hex_encode rest
  end.

Definition hex_value (c : ascii) : option N :=
  let n := N_of_ascii c in
  if ((48 <=? n) && (n <=? 57))%N then Some (n - 48)%N
  else if ((97 <=? n) && (n <=? 102))%N then Some (n - 87)%N
  else if ((65 <=? n) && (n <=? 70))%N then Some (n - 55)%N
  else None.

(** [Buffer.from(s, "hex")]: decoding stops at the first pair that is not
    two hex digits. *)
Fixpoint hex_decode (s : string) : list byte :=
  match s with
  | String c1 (String c2 rest) =>
      match hex_value c1, hex_value c2 with
      | Some hi, Some lo =>
          match Byte.of_N (16 * hi + lo) with
          | Some b => b :: hex_decode rest
          | None => []
          end
      | _, _ => []
      end
  | _ => []
  end.

(** Every character of [s] is a hex digit. *)
Fixpoint is_hex (s : string) : bool :=
  match s with
  | EmptyString => true
  | String c rest =>
      match hex_value c with Some _ => is_hex rest | None => false end
  end.

(** *** Strings and their UTF-8 form *)

(** A string is held as the bytes of its UTF-8 form, a surrogate pair as the
    four bytes of its code point. A JavaScript string may hold a surrogate
    that is not part of a pair, for which UTF-8 has no form; such a code
    unit is held as the three bytes [ED A0..BF 80..BF] that the scheme of
    UTF-8 gives its number. *)

Definition between (lo hi : N) (b : byte) : bool :=
  ((lo <=? Byte.to_N b) && (Byte.to_N b <=? hi))%N.

(** U+FFFD, the replacement character. *)
Definition replacement : list byte := [xef; xbf; xbd].

(** The bytes that [cipher.update(s, "utf8")] takes from a string: its
    UTF-8 form, with U+FFFD in the place of every lone surrogate. *)
Fixpoint utf8_write (s : list byte) : list byte :=
  match s with
  | [] => []
  | b1 :: rest =>
      match rest with
      | b2 :: b3 :: rest' =>
          if between 0xED 0xED b1 && between 0xA0 0xBF b2
          then replacement ++ utf8_write rest'
          else b1 :: utf8_write rest
      | _ => b1 :: utf8_write rest
      end
  end.

(** The UTF-8 decoder behind [decipher.update(data, "hex", "utf8")] and
    [decipher.final("utf8")]: how many bytes the character under way still
    needs, the range that the next byte must be in, and the bytes seen of
    it. *)
Record Utf8Decoder : Type := mkUtf8Decoder {
  bytes_needed : nat;
  lower : N;
  upper : N;
  seen : list byte;
}.

Definition idle : Utf8Decoder :=
  {| bytes_needed := 0; lower := 0x80; upper := 0xBF; seen := [] |}.

Definition expect (n : nat) (lo hi : N) (b : byte) : Utf8Decoder :=
  {| bytes_needed := n; lower := lo; upper := hi; seen := [b] |}.

(** The first byte of a character: what the decoder puts out, and how it
    goes on. *)
Definition lead (b : byte) : list byte * Utf8Decoder :=
  if between 0x00 0x7F b then ([b], idle)
  else if between 0xC2 0xDF b then ([], expect 1 0x80 0xBF b)
  else if between 0xE0 0xE0 b then ([], expect 2 0xA0 0xBF b)
  else if between 0xED 0xED b then ([], expect 2 0x80 0x9F b)
  else if between 0xE1 0xEF b then ([], expect 2 0x80 0xBF b)
  else if between 0xF0 0xF0 b then ([], expect 3 0x90 0xBF b)
  else if between 0xF4 0xF4 b then ([], expect 3 0x80 0x8F b)
  else if between 0xF1 0xF3 b then ([], expect 3 0x80 0xBF b)
  else (replacement, idle).

(** One byte: a byte that cannot go on the character under way ends it with
    U+FFFD and is read again as a first byte. *)
Definition feed (d : Utf8Decoder) (b : byte) : list byte * Utf8Decoder :=
  match bytes_needed d with
  | O => lead b
  | S n =>
      if between (lower d) (upper d) b then
        match n with
        | O => (seen d ++ [b], idle)
        | S _ =>
            ([], {| bytes_needed := n; lower := 0x80; upper := 0xBF;
                    seen := seen d ++ [b] |})
        end
      else let '(out, d') := lead b in (replacement ++ out, d')
  end.

(** The string that the bytes decode to; a character that the end of the
    data cuts short gives U+FFFD. *)
Fixpoint utf8_decode_from (d : Utf8Decoder) (data : list byte) : list byte :=
  match data with
  | [] => match bytes_needed d with O => [] | S _ => replacement end
  | b :: rest =>
      let '(out, d') := feed d b in out ++ utf8_decode_from d' rest
  end.

Definition utf8_decode (data : list byte) : list byte :=
  utf8_decode_from idle data.

(** The well-formed byte sequences of UTF-8 (table 3-7 of the Unicode
    standard), of one to four bytes. *)
Definition scalar1 (b1 : byte) : bool := between 0x00 0x7F b1.

Definition scalar2 (b1 b2 : byte) : bool :=
  between 0xC2 0xDF b1 && between 0x80 0xBF b2.

Definition scalar3 (b1 b2 b3 : byte) : bool :=
  (between 0xE0 0xE0 b1 && between 0xA0 0xBF b2
   || between 0xE1 0xEC b1 && between 0x80 0xBF b2
   || between 0xED 0xED b1 && between 0x80 0x9F b2
   || between 0xEE 0xEF b1 && between 0x80 0xBF b2)
  && between 0x80 0xBF b3.

Definition scalar4 (b1 b2 b3 b4 : byte) : bool :=
  (between 0xF0 0xF0 b1 && between 0x90 0xBF b2
   || between 0xF1 0xF3 b1 && between 0x80 0xBF b2
   || between 0xF4 0xF4 b1 && between 0x80 0x8F b2)
  && between 0x80 0xBF b3 && between 0x80 0xBF b4.

(** The bytes are well-formed UTF-8: they hold a string without a lone
    surrogate. *)
Fixpoint well_formed_utf8 (s : list byte) : bool :=
  match s with
  | [] => true
  | b1 :: rest1 =>
      if scalar1 b1 then well_formed_utf8 rest1
      else
        match rest1 with
        | [] => false
        | b2 :: rest2 =>
            if scalar2 b1 b2 then well_formed_utf8 rest2
            else
              match rest2 with
              | [] => false
              | b3 :: rest3 =>
                  if scalar3 b1 b2 b3 then well_formed_utf8 rest3
                  else
                    match rest3 with
                    | [] => false
                    | b4 :: rest4 =>
                        scalar4 b1 b2 b3 b4 && well_formed_utf8 rest4
                    end
              end
        end
  end.

(** The string has no lone surrogate. *)
Definition well_formed (s : string) : bool :=
  well_formed_utf8 (list_byte_of_string s).

(** *** The server process: environment, randomness and the database *)

(** A row of the [integrations] table; [row_config] is the encrypted blob. *)
Record IntegrationRow : Type := mkIntegrationRow {
  row_id : string;
  row_user_id : string;
  row_name : string;
  row_type : string;
  row_config : string;
  row_created_at : string;
  row_updated_at : string;
}.

Inductive QueryFate : Type :=
| QueryFails (message : string)
| QuerySucceeds.

Record Proc : Type := mkProc {
  INTEGRATION_ENCRYPTION_KEY : option string;  (* process.env[...] *)
  entropy : nat → byte;                        (* the random source *)
  drawn : nat;                                 (* bytes drawn so far *)
  integrations : list IntegrationRow;          (* the integrations table *)
  query_fates : list QueryFate;                (* fate of upcoming queries *)
}.

Definition getenv_key : Eff Proc (option string) :=
  λ p, (Returned (INTEGRATION_ENCRYPTION_KEY p), p).

(** [randomBytes(n)] *)
Definition randomBytes (n : nat) : Eff Proc (list byte) :=
  λ p, (Returned (map (entropy p) (seq (drawn p) n)),
        {| INTEGRATION_ENCRYPTION_KEY := INTEGRATION_ENCRYPTION_KEY p;
           entropy := entropy p; drawn := (drawn p + n)%nat;
           integrations := integrations p; query_fates := query_fates p |}).

(** [await supabase.from("integrations").select(...).<filters>]: resolves to
    [{data, error}] with the rows that pass the filters. *)
Definition select_integrations (filters : IntegrationRow → bool)
  : Eff Proc (option (list IntegrationRow) * option Exn) :=
  λ p,
    let after rest :=
      {| INTEGRATION_ENCRYPTION_KEY := INTEGRATION_ENCRYPTION_KEY p;
         entropy := entropy p; drawn := drawn p;
         integrations := integrations p; query_fates := rest |} in
    match query_fates p with
    | [] => (Returned (None, Some (JsError "connection lost")), p)
    | QueryFails msg :: rest =>
        (Returned (None, Some (JsError msg)), after rest)
    | QuerySucceeds :: rest =>
        (Returned (Some (List.filter filters (integrations p)), None),
         after rest)
    end.

(** [.single()]: exactly one row, or an error and no data. *)
Definition single (res : option (list IntegrationRow) * option Exn)
  : option IntegrationRow * option Exn :=
  match res with
  | (_, Some error) => (None, Some error)
  | (Some [row], None) => (Some row, None)
  | (_, None) => (None, Some (JsError "JSON object requested, multiple (or no) rows returned"))
  end.

(** *** Encryption *)

Definition IV_LENGTH : nat := 16.

Definition getEncryptionKey : Eff Proc (list byte) :=
  keyHex <- getenv_key ;;
  match keyHex with
  | None =>
      throw (JsError "INTEGRATION_ENCRYPTION_KEY environment variable is required for encrypting integration credentials")
  | Some keyHex =>
      if String.eqb keyHex "" then
        throw (JsError "INTEGRATION_ENCRYPTION_KEY environment variable is required for encrypting integration credentials")
      else if negb (Nat.eqb (String.length keyHex) 64) then
        throw (JsError "INTEGRATION_ENCRYPTION_KEY must be a 64-character hex string (32 bytes)")
      else ret (hex_decode keyHex)
  end.

Section WithCrypto.

(** AES-256-GCM of [node:crypto]: sealing yields the ciphertext and the
    authentication tag; opening yields the plaintext, or nothing when the
    tag does not authenticate the ciphertext. *)
Variable gcm_seal : list byte → list byte → list byte → list byte * list byte.
Variable gcm_open :
  list byte → list byte → list byte → list byte → option (list byte).

(** [JSON.parse] *)
Variable JSON_parse : string → Outcome Value.

(** [createCipheriv("aes-256-gcm", key, iv)] and [createDecipheriv] accept
    only a 32-byte key. *)
Definition check_key (key : list byte) : Eff Proc unit :=
  if Nat.eqb (length key) 32 then ret tt
  else throw (JsError "Invalid key length").

Definition encrypt (plaintext : string) : Eff Proc string :=
  key <- getEncryptionKey ;;
  iv <- randomBytes IV_LENGTH ;;
  check_key key ;;;
  let '(encrypted, authTag) :=
    gcm_seal key iv (utf8_write (list_byte_of_string plaintext)) in
  ret (hex_encode iv +:+ ":" +:+ hex_encode authTag +:+ ":"
         +:+ hex_encode encrypted).

(** [decipher.update(encrypted, "hex", ...)] takes no hex string of odd
    length. *)
Definition check_hex (encrypted : string) : Eff Proc unit :=
  if Nat.odd (String.length encrypted) then
    throw (JsError ("The argument 'encoding' is invalid for data of length "
                      +:+ pretty (String.length encrypted)
                      +:+ ". Received 'hex'"))
  else ret tt.

Definition decrypt (ciphertext : string) : Eff Proc string :=
  key <- getEncryptionKey ;;
  let parts := str_split ":" ciphertext in
  match parts with
  | [part0; part1; part2] =>
      let iv := hex_decode part0 in
      let authTag := hex_decode part1 in
      let encrypted := part2 in
      check_key key ;;;
      check_hex encrypted ;;;
      match gcm_open key iv authTag (hex_decode encrypted) with
      | Some decrypted => ret (string_of_list_byte (utf8_decode decrypted))
      | None =>
          throw (JsError "Unsupported state or unable to authenticate data")
      end
  | _ => throw (JsError "Invalid encrypted data format")
  end.

Definition lift_outcome {A} (o : Outcome A) : Eff Proc A := λ p, (o, p).

Definition decryptConfig (encryptedConfig : string) : Eff Proc Value :=
  try_catch
    (decrypted <- decrypt encryptedConfig ;;
     lift_outcome (JSON_parse decrypted))
    (λ error, ret (VObj [])).

Record DecryptedIntegration : Type := mkDecryptedIntegration {
  id : string;
  userId : string;
  name : string;
  type : string;
  config : Value;
  createdAt : string;
  updatedAt : string;
}.

Definition decrypted_row (data : IntegrationRow)
  : Eff Proc DecryptedIntegration :=
  config <- decryptConfig (row_config data) ;;
  ret {| id := row_id data;
         userId := row_user_id data;
         name := row_name data;
         type := row_type data;
         config := config;
         createdAt := row_created_at data;
         updatedAt := row_updated_at data |}.

(** [rows.map(f)] for an effectful [f]. *)
Fixpoint map_rows (rows : list IntegrationRow)
  : Eff Proc (list DecryptedIntegration) :=
  match rows with
  | [] => ret []
  | row :: rest =>
      d <- decrypted_row row ;;
      ds <- map_rows rest ;;
      ret (d :: ds)
  end.

Definition getIntegrations (userId : string) (type : option string)
  : Eff Proc (list DecryptedIntegration) :=
  let by_user row := String.eqb (row_user_id row) userId in
  let query row :=
    match type with
    | Some t => if String.eqb t "" then by_user row
                else by_user row && String.eqb (row_type row) t
    | None => by_user row
    end in
  res <- select_integrations query ;;
  match res with
  | (_, Some error) => ret []
  | (data, None) => map_rows (default [] data)
  end.

Definition getIntegration (integrationId userId : string)
  : Eff Proc (option DecryptedIntegration) :=
  res <- select_integrations
           (λ row, String.eqb (row_id row) integrationId
                   && String.eqb (row_user_id row) userId) ;;
  match single res with
  | (Some data, None) => d <- decrypted_row data ;; ret (Some d)
  | _ => ret None
  end.


End WithCrypto.

(** *** Ownership of the integrations a workflow refers to *)

Record NodeConfig : Type := mkNodeConfig {
  integrationId : option Value;
}.

Record NodeData : Type := mkNodeData {
  node_config : option NodeConfig;
}.

Record WorkflowNodeForValidation : Type := mkWorkflowNodeForValidation {
  node_data : option NodeData;
}.

(** [node.data?.config?.integrationId] when it is a non-empty string. *)
Definition node_integrationId (node : WorkflowNodeForValidation)
  : option string :=
  match node_data node with
  | Some d =>
      match node_config d with
      | Some c =>
          match integrationId c with
          | Some (VStr s) => if String.eqb s "" then None else Some s
          | _ => None
          end
      | None => None
      end
  | None => None
  end.

(** The node names the integration [id]: its [data] has a [config] whose
    [integrationId] is the string [id], which is not empty. *)
Definition names_integration (node : WorkflowNodeForValidation)
    (id : string) : Prop :=
  ∃ d c, node_data node = Some d ∧ node_config d = Some c
         ∧ integrationId c = Some (VStr id) ∧ id ≠ "".

(** [[...new Set(ids)]]: first occurrences, in order. *)
Fixpoint unique (seen ids : list string) : list string :=
  match ids with
  | [] => []
  | i :: rest =>
      if bool_decide (i ∈ seen) then unique seen rest
      else i :: unique (i :: seen) rest
  end.

Definition extractIntegrationIds (nodes : list WorkflowNodeForValidation)
  : list string :=
  let integrationIds := omap node_integrationId nodes in
  unique [] integrationIds.

Record Validation : Type := mkValidation {
  valid : bool;
  invalidIds : option (list string);
}.

Definition validateWorkflowIntegrations
    (nodes : list WorkflowNodeForValidation) (userId : string)
  : Eff Proc Validation :=
  let integrationIds := extractIntegrationIds nodes in
  if Nat.eqb (length integrationIds) 0 then
    ret {| valid := true; invalidIds := None |}
  else
    res <- select_integrations
             (λ row, bool_decide (row_id row ∈ integrationIds)) ;;
    match res with
    | (_, Some error) => ret {| valid := false; invalidIds := None |}
    | (existingIntegrations, None) =>
        let invalidIds :=
          map row_id
              (List.filter (λ i, negb (String.eqb (row_user_id i) userId))
                           (default [] existingIntegrations)) in
        if Nat.ltb 0 (length invalidIds) then
          ret {| valid := false; invalidIds := Some invalidIds |}
        else ret {| valid := true; invalidIds := None |}
    end.

(** *** What the read operations are observed to do *)

(** The config blob of a row cannot be read: decrypting it throws, or the
    decrypted text is not JSON. *)
Definition config_unreadable
    (gcm_open :
       list byte → list byte → list byte → list byte → option (list byte))
    (JSON_parse : string → Outcome Value) (p : Proc) (row : IntegrationRow)
  : Prop :=
  match (decrypt gcm_open (row_config row) p).1 with
  | Thrown _ => True
  | Returned decrypted => ∃ e, JSON_parse decrypted = Thrown e
  end.

(** The integration returned for a row whose config reads as [config]. *)
Definition integration_of (row : IntegrationRow) (config : Value)
  : DecryptedIntegration :=
  {| id := row_id row; userId := row_user_id row; name := row_name row;
     type := row_type row; config := config;
     createdAt := row_created_at row; updatedAt := row_updated_at row |}.

(** What [decryptConfig] makes of the config blob of a row. *)
Definition read_config
    (gcm_open :
       list byte → list byte → list byte → list byte → option (list byte))
    (JSON_parse : string → Outcome Value) (p : Proc) (row : IntegrationRow)
  : Value :=
  match (decryptConfig gcm_open JSON_parse (row_config row) p).1 with
  | Returned config => config
  | Thrown _ => VUndefined
  end.

(** The next query succeeds. *)
Definition query_succeeds (p : Proc) : Prop :=
  ∃ rest, query_fates p = QuerySucceeds :: rest.

(** A stand-in cipher for examples: the ciphertext is the data reversed and
    the tag is the iv; opening checks nothing. *)
Definition sample_seal (key iv data : list byte) : list byte * list byte :=
  (rev data, iv).
Definition sample_open (key iv authTag encrypted : list byte)
  : option (list byte) :=
  Some (rev encrypted).

Definition sample_key : string :=
  "000102030405060708090a0b0c0d0e0f101112131415161718191A1B1C1D1E1F".

Definition sample_rows : list IntegrationRow :=
  [ {| row_id := "int-1"; row_user_id := "alice"; row_name := "Mail";
       row_type := "resend"; row_config := "not an envelope";
       row_created_at := "2024-01-01"; row_updated_at := "2024-01-02" |};
    {| row_id := "int-2"; row_user_id := "bob"; row_name := "Issues";
       row_type := "linear"; row_config := "00:00:00";
       row_created_at := "2024-02-01"; row_updated_at := "2024-02-02" |} ].

Definition sample_proc : Proc :=
  {| INTEGRATION_ENCRYPTION_KEY := Some sample_key;
     entropy := λ i, x2a;
     drawn := 0;
     integrations := sample_rows;
     query_fates := [QuerySucceeds; QuerySucceeds] |}.

(** Nodes that refer to an integration, to none, or to something that is
    not a string. *)
Definition node_with (integrationId : option Value)
  : WorkflowNodeForValidation :=
  {| node_data :=
       Some {| node_config := Some {| integrationId := integrationId |} |} |}.

Definition sample_nodes : list WorkflowNodeForValidation :=
  [ node_with (Some (VStr "int-1")); {| node_data := None |};
    node_with (Some (VStr "int-9")); node_with (Some (VNum 7));
    node_with (Some (VStr "int-1")); node_with (Some (VStr "int-2")) ].

(** The string that holds the one code unit U+D800, a surrogate without its
    pair, and the string that holds U+FFFD. *)
Definition lone_surrogate : string := string_of_list_byte [xed; xa0; x80].
Definition replacement_character : string := string_of_list_byte replacement.

(** A stand-in for [JSON.parse] that accepts only the text of the empty
    object. *)
Definition sample_parse (text : string) : Outcome Value :=
  if String.eqb text "{}" then Returned (VObj [])
  else Thrown (JsError "Unexpected token").

End Integrations.

(** ** Interpolation engine *)

Module Interpolation.

(** Modelled from the spec: the interpolation engine (section 4.2), whose
    source file is not among the sources. A template is cut into literal
    characters and references [{{body}}]; the body of a reference runs up to
    the first closing pair of braces. *)
Inductive Segment : Type :=
| Lit (c : ascii)
| Ref (body : string).

(** Cuts [s] at its first [}}]: the text before and the text after. *)
Fixpoint find_close (s : string) : option (string * string) :=
  match s with
  | EmptyString => None
  | String c rest =>
      match rest with
      | String c' rest' =>
          if Ascii.eqb c "}" && Ascii.eqb c' "}" then Some ("", rest')
          else match find_close rest with
               | Some (body, after) => Some (String c body, after)
               | None => None
               end
      | EmptyString => None
      end
  end.

Fixpoint parse_template (fuel : nat) (s : string) : list Segment :=
  match fuel with
  | O => []
  | S fuel' =>
      match s with
      | EmptyString => []
      | String c rest =>
          let literal := Lit c :: parse_template fuel' rest in
          match rest with
          | String c' rest' =>
              if Ascii.eqb c "{" && Ascii.eqb c' "{" then
                match find_close rest' with
                | Some (body, after) => Ref body :: parse_template fuel' after
                | None => literal
                end
              else literal
          | EmptyString => literal
          end
      end
  end.

Definition segments (template : string) : list Segment :=
  parse_template (String.length template) template.

(** The segments of a text without references. *)
Fixpoint literals (s : string) : list Segment :=
  match s with
  | EmptyString => []
  | String c rest => Lit c :: literals rest
  end.

(** A numeric array index in decimal. *)
Definition digit_value (c : ascii) : option nat :=
  let n := nat_of_ascii c in
  if Nat.leb 48 n && Nat.leb n 57 then Some (n - 48)%nat else None.

Fixpoint parse_index_from (acc : nat) (s : string) : option nat :=
  match s with
  | EmptyString => Some acc
  | String c rest =>
      match digit_value c with
      | Some d => parse_index_from (10 * acc + d)%nat rest
      | None => None
      end
  end.

Definition parse_index (s : string) : option nat :=
  match s with
  | EmptyString => None
  | _ => parse_index_from 0 s
  end.

(** One step of a field path: a property of an object or an index of an
    array. *)
Definition get_field (seg : string) (v : Value) : option Value :=
  match v with
  | VObj props => assoc_get seg props
  | VArr items =>
      match parse_index seg with
      | Some i => items !! i
      | None => None
      end
  | _ => None
  end.

Fixpoint traverse (path : list string) (v : Value) : option Value :=
  match path with
  | [] => Some v
  | seg :: rest =>
      match get_field seg v with
      | Some v' => traverse rest v'
      | None => None
      end
  end.

(** Modelled from the spec: reference resolution (section 4.2). The value a
    reference body [NodeDisplayName.fieldPath] denotes, if the node and the
    field path exist. *)
Definition resolve (outputs : gmap string Value) (body : string)
  : option Value :=
  match str_split "." body with
  | nodeName :: fieldPath =>
      match outputs !! nodeName with
      | Some output => traverse fieldPath output
      | None => None
      end
  | [] => None
  end.

(** The body of the reference to the field at [path] of the node named
    [name]. *)
Fixpoint dotted (path : list string) : string :=
  match path with
  | [] => ""
  | seg :: rest => "." +:+ seg +:+ dotted rest
  end.

Definition reference (name : string) (path : list string) : string :=
  name +:+ dotted path.

Definition dquote : string := String (ascii_of_nat 34) EmptyString.

(** The JSON text of a value. *)
Fixpoint json_text (v : Value) : string :=
  match v with
  | VUndefined | VNull => "null"
  | VBool true => "true"
  | VBool false => "false"
  | VNum n => pretty n
  | VStr s => dquote +:+ s +:+ dquote
  | VArr items =>
      let fix elements (l : list Value) : string :=
        match l with
        | [] => ""
        | [x] => json_text x
        | x :: rest => json_text x +:+ "," +:+ elements rest
        end in
      "[" +:+ elements items +:+ "]"
  | VObj props =>
      let fix members (l : list (string * Value)) : string :=
        match l with
        | [] => ""
        | [(k, x)] => dquote +:+ k +:+ dquote +:+ ":" +:+ json_text x
        | (k, x) :: rest =>
            dquote +:+ k +:+ dquote +:+ ":" +:+ json_text x +:+ ","
              +:+ members rest
        end in
      "{" +:+ members props +:+ "}"
  end.

(** Modelled from the spec: the text substituted for a value inside a longer
    string (section 4.2 says no more than that it is stringified). *)
Definition stringify (v : Value) : string :=
  match v with
  | VStr s => s
  | VUndefined | VNull => ""
  | _ => json_text v
  end.

(** The text a segment contributes: a missing node or field gives the empty
    string. *)
Definition render (outputs : gmap string Value) (seg : Segment) : string :=
  match seg with
  | Lit c => String c EmptyString
  | Ref body =>
      match resolve outputs body with
      | Some v => stringify v
      | None => ""
      end
  end.

Fixpoint concat_strings (l : list string) : string :=
  match l with
  | [] => ""
  | s :: rest => s +:+ concat_strings rest
  end.

(** Modelled from the spec: the contract of the interpolation engine
    (section 4.2), whose source file is not among the sources. A template
    that is one reference and nothing else yields the referenced value
    itself; any other template yields a string. *)
Definition interpolate (outputs : gmap string Value) (template : string)
  : Value :=
  match segments template with
  | [Ref body] =>
      match resolve outputs body with
      | Some v => v
      | None => VStr ""
      end
  | segs => VStr (concat_strings (map (render outputs) segs))
  end.

(** Only string-typed configuration values are interpolated. *)
Definition interpolate_value (outputs : gmap string Value) (v : Value)
  : Value :=
  match v with
  | VStr template => interpolate outputs template
  | _ => v
  end.

Definition resolve_config (outputs : gmap string Value)
    (config : list (string * Value)) : list (string * Value) :=
  map (λ kv, (fst kv, interpolate_value outputs (snd kv))) config.

End Interpolation.

(** ** Graph model and executor *)

Module Executor.

(** Modelled from the spec: the graph model (section 3). The type tag of a
    node, its display name (the interpolation namespace) and its
    configuration. *)
Inductive NodeType : Type := Trigger | Action | Condition.

#[global] Instance NodeType_eq_dec : EqDecision NodeType.
Proof. solve_decision. Defined.

Record WorkflowNode : Type := mkWorkflowNode {
  node_id : string;
  node_type : NodeType;
  node_name : string;
  node_config : list (string * Value);
}.

Record WorkflowEdge : Type := mkWorkflowEdge {
  source : string;
  target : string;
  label : option string;
}.

Record Graph : Type := mkGraph {
  nodes : list WorkflowNode;
  edges : list WorkflowEdge;
}.

Definition node_ids (ns : list WorkflowNode) : list string := map node_id ns.

(** *** Dependency ordering *)

Inductive StructuralError : Type :=
| MissingNode       (* an edge names a node that is not in the graph *)
| CycleDetected.

(** Both endpoints of every edge are nodes of the graph. *)
Definition edges_valid (g : Graph) : bool :=
  forallb (λ e, bool_decide (source e ∈ node_ids (nodes g))
                && bool_decide (target e ∈ node_ids (nodes g)))
          (edges g).

(** The remaining in-degree of a node: its incoming edges whose source has
    not been emitted yet. *)
Definition in_degree (es : list WorkflowEdge) (emitted : list string)
    (n : WorkflowNode) : nat :=
  length (List.filter
            (λ e, bool_decide (target e = node_id n)
                  && negb (bool_decide (source e ∈ emitted)))
            es).

(** The first node, in array order, whose remaining in-degree is zero, and
    the other nodes in their order. *)
Fixpoint pick_ready (es : list WorkflowEdge) (emitted : list string)
    (remaining : list WorkflowNode)
  : option (WorkflowNode * list WorkflowNode) :=
  match remaining with
  | [] => None
  | n :: rest =>
      if Nat.eqb (in_degree es emitted n) 0 then Some (n, rest)
      else match pick_ready es emitted rest with
           | Some (m, rest') => Some (m, n :: rest')
           | None => None
           end
  end.

(** Modelled from the spec: dependency ordering (section 4.1), in-degree
    elimination in the style of Kahn's algorithm with ties broken by array
    order; no node with in-degree zero among the remaining ones is a cycle.
    The executor that would call it is not among the sources. *)
Fixpoint kahn (fuel : nat) (es : list WorkflowEdge) (emitted : list string)
    (remaining : list WorkflowNode) : option (list WorkflowNode) :=
  match remaining with
  | [] => Some []
  | _ :: _ =>
      match fuel with
      | O => None
      | S fuel' =>
          match pick_ready es emitted remaining with
          | Some (n, rest) =>
              match kahn fuel' es (node_id n :: emitted) rest with
              | Some order => Some (n :: order)
              | None => None
              end
          | None => None
          end
      end
  end.

(** Modelled from the spec: the outcome of dependency ordering (sections 4.1
    and 7), which is not among the sources: a linear order of all the
    nodes, or a structural error for an edge to a missing node or a cycle. *)
Definition dependency_order (g : Graph)
  : StructuralError + list WorkflowNode :=
  if edges_valid g then
    match kahn (length (nodes g)) (edges g) [] (nodes g) with
    | Some order => inr order
    | None => inl CycleDetected
    end
  else inl MissingNode.

(** *** Executor *)

Inductive NodeStatus : Type := Pending | Running | Success | Error | Skipped.

#[global] Instance NodeStatus_eq_dec : EqDecision NodeStatus.
Proof. solve_decision. Defined.

Inductive ExecutionStatus : Type := ExecRunning | ExecSuccess | ExecError.

(** The log of one node of one execution, as it stands when the node is
    done. *)
Record NodeExecutionLog : Type := mkNodeExecutionLog {
  log_node_id : string;
  log_node_name : string;
  log_node_type : NodeType;
  log_status : NodeStatus;
  log_input : Value;
  log_output : Value;
  log_error : option string;
}.

Record ExecState : Type := mkExecState {
  outputs : gmap string Value;       (* node display name to output *)
  statuses : gmap string NodeStatus; (* node id to status *)
  branches : gmap string bool;       (* condition node id to its outcome *)
  halted : gset string;              (* failed nodes and what they halt *)
  node_logs : list NodeExecutionLog;
  invoked : list string;             (* ids of the nodes whose handler ran *)
  first_error : option string;
}.

Record ExecutionRecord : Type := mkExecutionRecord {
  exec_status : ExecutionStatus;
  exec_error : option string;
  exec_statuses : gmap string NodeStatus;
  exec_logs : list NodeExecutionLog;
  exec_invoked : list string;
}.

Definition structural_message (err : StructuralError) : string :=
  match err with
  | MissingNode => "Edge references a missing node"
  | CycleDetected => "Workflow graph contains a cycle"
  end.

(** The boolean output of a condition node. *)
Definition condition_of (output : Value) : bool :=
  match output with
  | VObj props =>
      match assoc_get "condition" props with
      | Some v => truthy v
      | None => false
      end
  | _ => false
  end.

Definition error_text (v : Value) : string :=
  match errorOrDefault v with
  | VStr s => s
  | other => Interpolation.json_text other
  end.

Definition initial_state : ExecState :=
  {| outputs := ∅; statuses := ∅; branches := ∅; halted := ∅;
     node_logs := []; invoked := []; first_error := None |}.

Definition incoming (g : Graph) (n : WorkflowNode) : list WorkflowEdge :=
  List.filter (λ e, bool_decide (target e = node_id n)) (edges g).

(** An edge is eligible when its source succeeded and, out of a condition
    node, its label is not the one the condition ruled out. *)
Definition edge_eligible (st : ExecState) (e : WorkflowEdge) : bool :=
  match statuses st !! source e with
  | Some Success =>
      match (branches st !! source e : option bool), label e with
      | Some b, Some l =>
          String.eqb l (if b : bool then "true" else "false")
      | _, _ => true
      end
  | _ => false
  end.

(** An edge out of a failed node, or out of a node that a failed node
    halted. *)
Definition edge_halted (st : ExecState) (e : WorkflowEdge) : bool :=
  bool_decide (source e ∈ halted st).

Section WithCollaborators.

(** The action handlers (section 4.4) and the redaction collaborator. *)
Variable handler : WorkflowNode → list (string * Value) → Outcome Value.
Variable redact : Value → Value.

(** Whether a failed node halts every node downstream of it, or only the
    nodes that no eligible edge reaches (section 9 leaves this open for a
    node that is also downstream of a branch that did not fail). *)
Variable halt_all_downstream : bool.

(** Modelled from the spec: which nodes run (section 4.3, steps 4 and 5). A
    node runs when it has no incoming edge or an eligible edge reaches it,
    unless a failed node upstream halts it. *)
Definition should_run (g : Graph) (st : ExecState) (n : WorkflowNode)
  : bool :=
  let ins := incoming g n in
  negb (halt_all_downstream && existsb (edge_halted st) ins)
  && (Nat.eqb (length ins) 0 || existsb (edge_eligible st) ins).

(** Records the end of a node: its status, its output for the nodes after
    it, its log, and the first error of the execution. *)
Definition finish (g : Graph) (st : ExecState) (n : WorkflowNode)
    (status : NodeStatus) (input output : Value) (error : string)
    (ran : bool) : ExecState :=
  {| outputs :=
       match status with
       | Success => <[node_name n := output]> (outputs st)
       | _ => outputs st
       end;
     statuses := <[node_id n := status]> (statuses st);
     branches :=
       match status, node_type n with
       | Success, Condition =>
           <[node_id n := condition_of output]> (branches st)
       | _, _ => branches st
       end;
     halted :=
       if bool_decide (status = Error)
          || existsb (edge_halted st) (incoming g n)
       then {[node_id n]} ∪ halted st
       else halted st;
     node_logs :=
       node_logs st ++
       [{| log_node_id := node_id n; log_node_name := node_name n;
           log_node_type := node_type n; log_status := status;
           log_input := redact input; log_output := redact output;
           log_error :=
             match status with Error => Some error | _ => None end |}];
     invoked := if ran then invoked st ++ [node_id n] else invoked st;
     first_error :=
       match first_error st, status with
       | None, Error => Some error
       | fe, _ => fe
       end |}.

(** Modelled from the spec: one node of the executor's walk (section 4.3,
    steps 1 to 5). A trigger node yields the trigger input; any other node
    is dispatched to its handler, and a result with [success: false] or a
    thrown exception marks it [Error]; a node that is not to run is recorded
    [Skipped] and its handler is not invoked. *)
Definition run_node (g : Graph) (triggerInput : Value) (st : ExecState)
    (n : WorkflowNode) : ExecState :=
  if should_run g st n then
    let config := Interpolation.resolve_config (outputs st) (node_config n) in
    let input := VObj config in
    match node_type n with
    | Trigger => finish g st n Success input triggerInput "" false
    | _ =>
        match handler n config with
        | Returned result =>
            if isErrorResult result then
              finish g st n Error input result (error_text result) true
            else finish g st n Success input result "" true
        | Thrown e =>
            finish g st n Error input VUndefined (errorMessageOf e) true
        end
    end
  else finish g st n Skipped VUndefined VUndefined "" false.

Definition run_nodes (g : Graph) (triggerInput : Value)
    (order : list WorkflowNode) (st : ExecState) : ExecState :=
  fold_left (run_node g triggerInput) order st.

(** Modelled from the spec: the executor (section 4.3). A structural error
    ends the execution before any node; otherwise the nodes are walked in
    dependency order and the terminal status is [ExecError] when a node
    failed, with the message of the first failing node. *)
Definition execute (g : Graph) (triggerInput : Value) : ExecutionRecord :=
  match dependency_order g with
  | inl err =>
      {| exec_status := ExecError;
         exec_error := Some (structural_message err);
         exec_statuses := ∅; exec_logs := []; exec_invoked := [] |}
  | inr order =>
      let st := run_nodes g triggerInput order initial_state in
      {| exec_status :=
           match first_error st with
           | Some _ => ExecError
           | None => ExecSuccess
           end;
         exec_error := first_error st;
         exec_statuses := statuses st;
         exec_logs := node_logs st;
         exec_invoked := invoked st |}
  end.

End WithCollaborators.

(** *** Paths of a graph *)

Definition edge_rel (g : Graph) (x y : string) : Prop :=
  ∃ e, e ∈ edges g ∧ source e = x ∧ target e = y.

(** A node of the graph without incoming edges. *)
Definition is_root (g : Graph) (x : string) : Prop :=
  x ∈ node_ids (nodes g) ∧ ∀ e, e ∈ edges g → target e ≠ x.

(** [path g x l y]: [l] lists the nodes of a walk along edges from [x] to
    [y], both included. *)
Inductive path (g : Graph) : string → list string → string → Prop :=
| path_here x : path g x [x] x
| path_edge x y l z : edge_rel g x y → path g y l z → path g x (x :: l) z.

(** Every walk from a root to [m] passes through [n], another node. *)
Definition only_through (g : Graph) (n m : string) : Prop :=
  m ≠ n ∧ ∀ r l, is_root g r → path g r l m → n ∈ l.

(** [m] is reachable, and only through [n]: some walk from a root arrives
    at [m], and every such walk passes through [n], another node. *)
Definition reachable_only_through (g : Graph) (n m : string) : Prop :=
  (∃ r l, is_root g r ∧ path g r l m) ∧ only_through g n m.

(** What holds of the executor's state while the node [failed] has not
    succeeded: the nodes that are reached only through it have not run. *)
Definition halts_behind (g : Graph) (failed : string) (st : ExecState)
  : Prop :=
  (∀ x, only_through g failed x →
        statuses st !! x = None ∨ statuses st !! x = Some Skipped)
  ∧ (∀ x, only_through g failed x → x ∉ invoked st)
  ∧ (∀ log, log ∈ node_logs st → only_through g failed (log_node_id log) →
            log_status log = Skipped)
  ∧ statuses st !! failed ≠ Some Success
  ∧ (∀ x, statuses st !! x = Some Error → is_Some (first_error st)).

(** A node lies on a cycle when a walk of at least one edge leads from it
    back to itself. *)
Definition on_cycle (g : Graph) (x : string) : Prop := tc (edge_rel g) x x.

(** A cycle that a trigger node reaches. *)
Definition cycle_reachable_from_trigger (g : Graph) : Prop :=
  ∃ t x, t ∈ nodes g ∧ node_type t = Trigger
         ∧ rtc (edge_rel g) (node_id t) x ∧ on_cycle g x.

(** *** Sample graphs and handlers *)

Definition sample_node (id : string) (type : NodeType) : WorkflowNode :=
  {| node_id := id; node_type := type; node_name := id; node_config := [] |}.

(** [Trigger -> Fetch -> Notify] *)
Definition pipeline : Graph :=
  {| nodes := [sample_node "Trigger" Trigger; sample_node "Fetch" Action;
               sample_node "Notify" Action];
     edges := [ {| source := "Trigger"; target := "Fetch"; label := None |};
                {| source := "Fetch"; target := "Notify"; label := None |} ] |}.

(** The same with an edge back from [Notify] to [Fetch]. *)
Definition looping : Graph :=
  {| nodes := nodes pipeline;
     edges := edges pipeline
              ++ [ {| source := "Notify"; target := "Fetch";
                      label := None |} ] |}.

(** [Trigger -> Condition -> {A (true), B (false)}] *)
Definition branching : Graph :=
  {| nodes := [sample_node "Trigger" Trigger; sample_node "Condition" Condition;
               sample_node "A" Action; sample_node "B" Action];
     edges := [ {| source := "Trigger"; target := "Condition";
                   label := None |};
                {| source := "Condition"; target := "A";
                   label := Some "true" |};
                {| source := "Condition"; target := "B";
                   label := Some "false" |} ] |}.

(** [Fetch] times out, a condition holds, everything else succeeds. *)
Definition sample_handler (n : WorkflowNode) (config : list (string * Value))
  : Outcome Value :=
  if String.eqb (node_id n) "Fetch" then
    Returned (VObj [("success", VBool false); ("error", VStr "timeout")])
  else if String.eqb (node_id n) "Condition" then
    Returned (VObj [("condition", VBool true)])
  else Returned (VObj [("success", VBool true)]).

End Executor.

(** ** Writing the integration store ([createIntegration],
       [updateIntegration], [deleteIntegration]) *)

Module IntegrationWrites.
Import Integrations.

(** The process once a query has been answered and the table holds [rows]. *)
Definition after_query (p : Proc) (rows : list IntegrationRow)
    (rest : list QueryFate) : Proc :=
  {| INTEGRATION_ENCRYPTION_KEY := INTEGRATION_ENCRYPTION_KEY p;
     entropy := entropy p; drawn := drawn p;
     integrations := rows; query_fates := rest |}.

(** [await supabase.from("integrations").insert({user_id, name, type,
    config}).select().single()]: the database fills in the id and both
    timestamps ([assigned_id], [now]) and answers with the new row. *)
Definition insert_integration (assigned_id now : string)
    (user_id name type config : string)
  : Eff Proc (option IntegrationRow * option Exn) :=
  λ p,
    match query_fates p with
    | [] => (Returned (None, Some (JsError "connection lost")), p)
    | QueryFails msg :: rest =>
        (Returned (None, Some (JsError msg)),
         after_query p (integrations p) rest)
    | QuerySucceeds :: rest =>
        let row :=
          {| row_id := assigned_id; row_user_id := user_id;
             row_name := name; row_type := type; row_config := config;
             row_created_at := now; row_updated_at := now |} in
        (Returned (Some row, None),
         after_query p (integrations p ++ [row]) rest)
    end.

(** [await supabase.from("integrations").update(updateData).<filters>
    .select().single()]: the one row that passes the filters is changed and
    returned; with no such row, or several, the request is answered with an
    error and changes nothing. *)
Definition update_integration (filters : IntegrationRow → bool)
    (updateData : IntegrationRow → IntegrationRow)
  : Eff Proc (option IntegrationRow * option Exn) :=
  λ p,
    match query_fates p with
    | [] => (Returned (None, Some (JsError "connection lost")), p)
    | QueryFails msg :: rest =>
        (Returned (None, Some (JsError msg)),
         after_query p (integrations p) rest)
    | QuerySucceeds :: rest =>
        match List.filter filters (integrations p) with
        | [row] =>
            (Returned (Some (updateData row), None),
             after_query p
               (map (λ r, if filters r then updateData r else r)
                    (integrations p))
               rest)
        | _ =>
            (Returned
               (None,
                Some (JsError
                        "JSON object requested, multiple (or no) rows returned")),
             after_query p (integrations p) rest)
        end
    end.

(** [await supabase.from("integrations").delete().<filters>]: resolves to
    [{error, count}]; no count was asked for, so [count] is [null]. *)
Definition delete_integrations (filters : IntegrationRow → bool)
  : Eff Proc (option nat * option Exn) :=
  λ p,
    match query_fates p with
    | [] => (Returned (None, Some (JsError "connection lost")), p)
    | QueryFails msg :: rest =>
        (Returned (None, Some (JsError msg)),
         after_query p (integrations p) rest)
    | QuerySucceeds :: rest =>
        (Returned (None, None),
         after_query p
           (List.filter (λ r, negb (filters r)) (integrations p)) rest)
    end.

(** [error?.message || fallback] *)
Definition message_or (error : option Exn) (fallback : string) : string :=
  match error with
  | Some (JsError message) =>
      if String.eqb message "" then fallback else message
  | _ => fallback
  end.

Section WithCrypto.

Variable gcm_seal : list byte → list byte → list byte → list byte * list byte.
Variable gcm_open :
  list byte → list byte → list byte → list byte → option (list byte).

(** [JSON.stringify] and [JSON.parse] *)
Variable JSON_stringify : Value → string.
Variable JSON_parse : string → Outcome Value.

Definition encryptConfig (config : Value) : Eff Proc string :=
  encrypt gcm_seal (JSON_stringify config).

Definition createIntegration (assigned_id now : string)
    (userId name type : string) (config : Value)
  : Eff Proc DecryptedIntegration :=
  encryptedConfig <- encryptConfig config ;;
  res <- insert_integration assigned_id now userId name type
                            encryptedConfig ;;
  match res with
  | (Some data, None) =>
      ret {| id := row_id data;
             userId := row_user_id data;
             name := row_name data;
             type := row_type data;
             config := config;
             createdAt := row_created_at data;
             updatedAt := row_updated_at data |}
  | (_, error) =>
      throw (JsError (message_or error "Failed to create integration"))
  end.

(** [updates] is [{name?, config?}]; [now] is [new Date().toISOString()]. *)
Definition updateIntegration (now : string) (integrationId userId : string)
    (updates_name : option string) (updates_config : option Value)
  : Eff Proc (option DecryptedIntegration) :=
  new_config <- match updates_config with
                | Some config =>
                    encrypted <- encryptConfig config ;; ret (Some encrypted)
                | None => ret None
                end ;;
  let updateData row :=
    {| row_id := row_id row; row_user_id := row_user_id row;
       row_name := default (row_name row) updates_name;
       row_type := row_type row;
       row_config := default (row_config row) new_config;
       row_created_at := row_created_at row;
       row_updated_at := now |} in
  res <- update_integration
           (λ row, String.eqb (row_id row) integrationId
                   && String.eqb (row_user_id row) userId)
           updateData ;;
  match res with
  | (Some data, None) =>
      d <- decrypted_row gcm_open JSON_parse data ;; ret (Some d)
  | _ => ret None
  end.

Definition deleteIntegration (integrationId userId : string)
  : Eff Proc bool :=
  res <- delete_integrations
           (λ row, String.eqb (row_id row) integrationId
                   && String.eqb (row_user_id row) userId) ;;
  let '(count, error) := res in
  if bool_decide (is_Some error) then ret false
  else ret (Nat.ltb 0 (default 0%nat count)
            || negb (bool_decide (is_Some error))).

End WithCrypto.

(** *** The route [/api/integrations/[integrationId]] *)

(** A [NextResponse.json(body, {status})]. *)
Record NextResponse : Type := mkNextResponse {
  status : nat;
  json : Value;
}.

Definition unauthorized : NextResponse :=
  {| status := 401; json := VObj [("error", VStr "Unauthorized")] |}.

Definition failure (what : string) (error : Exn) : NextResponse :=
  {| status := 500;
     json := VObj [("error", VStr what);
                   ("details", VStr (errorMessageOf error))] |}.

Section Routes.

Variable gcm_open :
  list byte → list byte → list byte → list byte → option (list byte).
Variable JSON_parse : string → Outcome Value.

(** [new Date(text).toISOString()], which throws on a text that is not a
    date. *)
Variable toISOString : string → Outcome string.

(** [user] is the id of the session's user, if there is one. *)
Definition GET (user : option string) (integrationId : string)
  : Eff Proc NextResponse :=
  try_catch
    (match user with
     | None => ret unauthorized
     | Some user_id =>
         integration <- getIntegration gcm_open JSON_parse integrationId
                                       user_id ;;
         match integration with
         | None =>
             ret {| status := 404;
                    json := VObj [("error", VStr "Integration not found")] |}
         | Some integration =>
             createdAt <- lift_outcome (toISOString (createdAt integration)) ;;
             updatedAt <- lift_outcome (toISOString (updatedAt integration)) ;;
             ret {| status := 200;
                    json := VObj [("id", VStr (id integration));
                                  ("name", VStr (name integration));
                                  ("type", VStr (type integration));
                                  ("config", config integration);
                                  ("createdAt", VStr createdAt);
                                  ("updatedAt", VStr updatedAt)] |}
         end
     end)
    (λ error, ret (failure "Failed to get integration" error)).

Definition DELETE (user : option string) (integrationId : string)
  : Eff Proc NextResponse :=
  try_catch
    (match user with
     | None => ret unauthorized
     | Some user_id =>
         success <- deleteIntegration integrationId user_id ;;
         if negb success then
           ret {| status := 404;
                  json := VObj [("error", VStr "Integration not found")] |}
         else ret {| status := 200; json := VObj [("success", VBool true)] |}
     end)
    (λ error, ret (failure "Failed to delete integration" error)).

End Routes.

(** Stand-ins for [JSON.stringify] and [JSON.parse] in examples: only the
    empty object is handled. *)
Definition sample_stringify (v : Value) : string := "{}".

(** The cipher opens what it sealed under a 32-byte key. *)
Definition gcm_correct
    (gcm_seal : list byte → list byte → list byte → list byte * list byte)
    (gcm_open :
       list byte → list byte → list byte → list byte → option (list byte))
  : Prop :=
  ∀ key iv data,
    length key = 32%nat →
    gcm_open key iv (gcm_seal key iv data).2 (gcm_seal key iv data).1
    = Some data.

(** The process after [encrypt] has drawn its iv. *)
Definition after_iv (p : Proc) : Proc :=
  {| INTEGRATION_ENCRYPTION_KEY := INTEGRATION_ENCRYPTION_KEY p;
     entropy := entropy p; drawn := (drawn p + IV_LENGTH)%nat;
     integrations := integrations p; query_fates := query_fates p |}.

(** The environment holds a key that the cipher accepts: 64 hex digits. *)
Definition key_usable (p : Proc) : Prop :=
  ∃ keyHex,
    INTEGRATION_ENCRYPTION_KEY p = Some keyHex
    ∧ String.length keyHex = 64%nat
    ∧ is_hex keyHex = true.

(** The filter [.eq("id", integrationId).eq("user_id", userId)]. *)
Definition owned_by (integrationId userId : string) (row : IntegrationRow)
  : bool :=
  String.eqb (row_id row) integrationId
  && String.eqb (row_user_id row) userId.

(** A process without an encryption key. *)
Definition sample_keyless_proc : Proc :=
  {| INTEGRATION_ENCRYPTION_KEY := None;
     entropy := λ i, x2a;
     drawn := 0;
     integrations := sample_rows;
     query_fates := [QuerySucceeds; QuerySucceeds] |}.

End IntegrationWrites.

(** ** The condition step ([conditionStep]) *)

Module ConditionStep.

Record ConditionInput : Type := mkConditionInput {
  condition : bool;
  _context : option StepContext;
}.

(** The input object as JSON, as the wrapper is handed it for the log. *)
Definition StepContext_json (c : StepContext) : Value :=
  VObj (match executionId c with
        | Some id => [("executionId", VStr id)]
        | None => []
        end
        ++ [("nodeId", VStr (nodeId c)); ("nodeName", VStr (nodeName c));
            ("nodeType", VStr (nodeType c))]).

Definition ConditionInput_json (input : ConditionInput) : Value :=
  VObj (("condition", VBool (condition input))
        :: match _context input with
           | Some c => [("_context", StepContext_json c)]
           | None => []
           end).

Definition conditionStep (redactSensitiveData : Value → Value)
    (input : ConditionInput) : M Value :=
  StepLogging.withStepLogging redactSensitiveData (_context input)
    (ConditionInput_json input)
    (ret (VObj [("condition", VBool (condition input))])).

(** The request is a completion with status error. *)
Definition is_error_completion (req : LogRequest) : bool :=
  match req with
  | CompleteReq _ _ StError _ _ => true
  | _ => false
  end.

End ConditionStep.

(** ** Completing an execution ([logWorkflowCompleteDb]) *)

Module WorkflowExecutions.
Import WorkflowLogging.

(** A row of [workflow_executions]. *)
Record ExecutionRow : Type := mkExecutionRow {
  exec_id : string;
  exec_workflow_id : string;
  exec_user_id : string;
  exec_status : RowStatus;
  exec_input : option Value;
  exec_output : option Value;
  exec_error : option string;
  exec_started_at : Z;
  exec_completed_at : option Z;
  exec_duration : option Z;
}.

Record ExecDb : Type := mkExecDb {
  exec_clock : Z;
  exec_fates : list DbFate;
  executions : list ExecutionRow;
}.

Definition Exec_now : Eff ExecDb Z := λ db, (Returned (exec_clock db), db).

(** [supabase.from("workflow_executions").update(patch).eq("id", id)] *)
Definition update_execution (id : string)
    (patch : ExecutionRow → ExecutionRow) : Eff ExecDb (option Exn) :=
  λ db,
    match exec_fates db with
    | [] => (Returned (Some (JsError "connection lost")), db)
    | DbError msg :: rest =>
        (Returned (Some (JsError msg)),
         {| exec_clock := exec_clock db; exec_fates := rest;
            executions := executions db |})
    | DbAccept _ :: rest =>
        (Returned None,
         {| exec_clock := exec_clock db; exec_fates := rest;
            executions :=
              map (λ r, if String.eqb (exec_id r) id then patch r else r)
                  (executions db) |})
    end.

(** [output] and [error] are optional: [None] is [undefined]. *)
Record LogWorkflowCompleteParams : Type := mkLogWorkflowCompleteParams {
  wf_executionId : string;
  wf_status : CompletionStatus;
  wf_output : option Value;
  wf_error : option string;
  wf_startTime : Z;
}.

Definition logWorkflowCompleteDb (params : LogWorkflowCompleteParams)
  : Eff ExecDb unit :=
  now <- Exec_now ;;
  let duration := now - wf_startTime params in
  completed_at <- Exec_now ;;
  error <- update_execution (wf_executionId params) (λ r,
           {| exec_id := exec_id r;
              exec_workflow_id := exec_workflow_id r;
              exec_user_id := exec_user_id r;
              exec_status := status_column (wf_status params);
              exec_input := exec_input r;
              exec_output := written (wf_output params) (exec_output r);
              exec_error := written (wf_error params) (exec_error r);
              exec_started_at := exec_started_at r;
              exec_completed_at := Some completed_at;
              exec_duration := Some duration |}) ;;
  match error with
  | Some error => throw error
  | None => ret tt
  end.

(** Time passes. *)
Definition later (ms : Z) (db : ExecDb) : ExecDb :=
  {| exec_clock := exec_clock db + ms; exec_fates := exec_fates db;
     executions := executions db |}.

(** What a completion at time [now] writes into the execution it names. *)
Definition completed_execution (params : LogWorkflowCompleteParams) (now : Z)
    (r : ExecutionRow) : ExecutionRow :=
  {| exec_id := exec_id r;
     exec_workflow_id := exec_workflow_id r;
     exec_user_id := exec_user_id r;
     exec_status := status_column (wf_status params);
     exec_input := exec_input r;
     exec_output := written (wf_output params) (exec_output r);
     exec_error := written (wf_error params) (exec_error r);
     exec_started_at := exec_started_at r;
     exec_completed_at := Some now;
     exec_duration := Some (now - wf_startTime params) |}.

Definition sample_executions : ExecDb :=
  {| exec_clock := 500;
     exec_fates := [DbAccept ""; DbAccept ""];
     executions :=
       [ {| exec_id := "exec-1"; exec_workflow_id := "wf-1";
            exec_user_id := "alice"; exec_status := RowRunning;
            exec_input := Some (VObj []); exec_output := None;
            exec_error := None; exec_started_at := 100;
            exec_completed_at := None; exec_duration := None |} ] |}.

End WorkflowExecutions.

(** ** JavaScript objects as the route handlers use them *)

Module Js.

(** [v == null] *)
Definition nullish (v : Value) : bool :=
  match v with
  | VUndefined | VNull => true
  | _ => false
  end.

(** [v && typeof v === "object" && v !== null] *)
Definition is_object (v : Value) : bool :=
  match v with
  | VObj _ | VArr _ => true
  | _ => false
  end.

(** [v === s] for a string [s] *)
Definition is_str (s : string) (v : Value) : bool :=
  match v with
  | VStr s' => String.eqb s' s
  | _ => false
  end.

(** [o.k] on the properties of an object; [undefined] when it is absent. *)
Definition field (k : string) (props : list (string * Value)) : Value :=
  default VUndefined (assoc_get k props).

(** [v.k] on a value that is neither [null] nor [undefined], for the
    property names that the handlers read ([data], [config], [type], [id],
    [user_id], ...): none of them is an index or a built-in property of
    arrays, strings, numbers or booleans, so only a plain object can have
    it. *)
Definition prop (k : string) (v : Value) : Value :=
  match v with
  | VObj props => field k props
  | _ => VUndefined
  end.

(** [v.k], which throws a [TypeError] on [null] and [undefined]. *)
Definition member (k : string) (v : Value) : Outcome Value :=
  if nullish v then
    Thrown (JsError ("Cannot read properties of undefined (reading '"
                       +:+ k +:+ "')"))
  else Returned (prop k v).

(** [v?.k] *)
Definition opt_member (k : string) (v : Value) : Value :=
  if nullish v then VUndefined else prop k v.

(** [o[k] = v], also what a later [k: v] does in an object literal after a
    spread: an own property keeps its place and takes the new value, a new
    one goes to the end. *)
Fixpoint obj_set (k : string) (v : Value) (props : list (string * Value))
  : list (string * Value) :=
  match props with
  | [] => [(k, v)]
  | (k', v') :: rest =>
      if String.eqb k k' then (k', v) :: rest
      else (k', v') :: obj_set k v rest
  end.

(** [const {[k]: _, ...rest} = o]: the properties of [o] but [k]. *)
Definition obj_without (k : string) (props : list (string * Value))
  : list (string * Value) :=
  List.filter (λ kv, negb (String.eqb kv.1 k)) props.

(** The properties of an array: its items under their indices. *)
Fixpoint indexed (i : nat) (items : list Value) : list (string * Value) :=
  match items with
  | [] => []
  | v :: rest => (pretty i, v) :: indexed (S i) rest
  end.

Section Spread.

(** The UTF-16 code units of a string, each as a string of its own. *)
Variable code_units : string → list string.

(** The own enumerable properties that [{...v}] copies. *)
Definition own_props (v : Value) : list (string * Value) :=
  match v with
  | VObj props => props
  | VArr items => indexed 0 items
  | VStr s => indexed 0 (map VStr (code_units s))
  | _ => []
  end.

(** *** [sanitizeNodesForPublicView] *)

Definition sanitize_node (node : Value) : Value :=
  let sanitizedNode := own_props node in
  if is_object (field "data" sanitizedNode) then
    let data := own_props (field "data" sanitizedNode) in
    let data :=
      if is_object (field "config" data) then
        let configWithoutIntegration :=
          obj_without "integrationId" (own_props (field "config" data)) in
        obj_set "config" (VObj configWithoutIntegration) data
      else data in
    VObj (obj_set "data" (VObj data) sanitizedNode)
  else VObj sanitizedNode.

Definition sanitizeNodesForPublicView (nodes : list Value) : list Value :=
  map sanitize_node nodes.

(** *** [stripIntegrationIds] and [updateEdgeReferences] *)

(** One node of [stripIntegrationIds]; [new_id] is what [nanoid()] gives. *)
Definition strip_node (new_id : string) (node : Value) : Value :=
  let newNode := obj_set "id" (VStr new_id) (own_props node) in
  if truthy (field "data" newNode) then
    let data := own_props (field "data" newNode) in
    let data :=
      if truthy (field "config" data) then
        let configWithoutIntegration :=
          obj_without "integrationId" (own_props (field "config" data)) in
        obj_set "config" (VObj configWithoutIntegration) data
      else data in
    let data := obj_set "status" (VStr "idle") data in
    VObj (obj_set "data" (VObj data) newNode)
  else VObj newNode.

(** [nodes.map(...)] with the ids that [nanoid()] returns from the [k]-th
    call on. *)
Fixpoint stripIntegrationIds (nanoid : nat → string) (k : nat)
    (nodes : list Value) : list Value :=
  match nodes with
  | [] => []
  | node :: rest =>
      strip_node (nanoid k) node :: stripIntegrationIds nanoid (S k) rest
  end.

(** Equality of keys of a [Map]: primitives by value, objects and arrays by
    identity, which two values parsed from JSON never share. *)
Definition same_key (a b : Value) : bool :=
  match a, b with
  | VUndefined, VUndefined | VNull, VNull => true
  | VBool x, VBool y => Bool.eqb x y
  | VNum x, VNum y => Z.eqb x y
  | VStr x, VStr y => String.eqb x y
  | _, _ => false
  end.

(** [idMap.get(key)] on a map built by [set] calls in list order: the last
    entry for the key counts. *)
Fixpoint map_get (key : Value) (entries : list (Value * Value))
  : option Value :=
  match entries with
  | [] => None
  | (k, v) :: rest =>
      match map_get key rest with
      | Some v' => Some v'
      | None => if same_key k key then Some v else None
      end
  end.

(** [oldNodes.forEach((oldNode, index) => idMap.set(oldNode.id,
    newNodes[index].id))] *)
Fixpoint id_entries (oldNodes newNodes : list Value)
  : Outcome (list (Value * Value)) :=
  match oldNodes with
  | [] => Returned []
  | oldNode :: oldRest =>
      match member "id" oldNode with
      | Thrown e => Thrown e
      | Returned old_id =>
          match newNodes with
          | [] =>
              Thrown (JsError
                        "Cannot read properties of undefined (reading 'id')")
          | newNode :: newRest =>
              match member "id" newNode with
              | Thrown e => Thrown e
              | Returned new_id =>
                  match id_entries oldRest newRest with
                  | Thrown e => Thrown e
                  | Returned entries => Returned ((old_id, new_id) :: entries)
                  end
              end
          end
      end
  end.

(** [idMap.get(x) || x] *)
Definition renamed (idMap : list (Value * Value)) (x : Value) : Value :=
  match map_get x idMap with
  | Some y => if truthy y then y else x
  | None => x
  end.

Fixpoint rename_edges (nanoid : nat → string) (k : nat)
    (idMap : list (Value * Value)) (edges : list Value)
  : Outcome (list Value) :=
  match edges with
  | [] => Returned []
  | edge :: rest =>
      match member "source" edge with
      | Thrown e => Thrown e
      | Returned source =>
          let newEdge :=
            VObj (obj_set "target" (renamed idMap (prop "target" edge))
                    (obj_set "source" (renamed idMap source)
                       (obj_set "id" (VStr (nanoid k))
                          (own_props edge)))) in
          match rename_edges nanoid (S k) idMap rest with
          | Thrown e => Thrown e
          | Returned edges' => Returned (newEdge :: edges')
          end
      end
  end.

Definition updateEdgeReferences (nanoid : nat → string) (k : nat)
    (edges oldNodes newNodes : list Value) : Outcome (list Value) :=
  match id_entries oldNodes newNodes with
  | Thrown e => Thrown e
  | Returned idMap => rename_edges nanoid k idMap edges
  end.

End Spread.

(** *** [buildUpdateData] *)

(** [if (body.k !== undefined) updateData.k = body.k] *)
Definition copy_defined (k : string) (body : Value)
    (updateData : list (string * Value)) : list (string * Value) :=
  match prop k body with
  | VUndefined => updateData
  | v => obj_set k v updateData
  end.

(** [now] is [new Date().toISOString()]; [body] is neither [null] nor
    [undefined]. *)
Definition buildUpdateData (now : string) (body : Value)
  : list (string * Value) :=
  let updateData := [("updated_at", VStr now)] in
  let updateData := copy_defined "name" body updateData in
  let updateData := copy_defined "description" body updateData in
  let updateData := copy_defined "nodes" body updateData in
  let updateData := copy_defined "edges" body updateData in
  copy_defined "visibility" body updateData.

(** *** The name of a duplicate *)

(** [String(v)], as a template literal converts a value. *)
Fixpoint to_string (v : Value) : string :=
  match v with
  | VUndefined => "undefined"
  | VNull => "null"
  | VBool true => "true"
  | VBool false => "false"
  | VNum n => pretty n
  | VStr s => s
  | VArr items =>
      (fix join (items : list Value) : string :=
         match items with
         | [] => ""
         | [x] => if nullish x then "" else to_string x
         | x :: rest =>
             (if nullish x then "" else to_string x) +:+ "," +:+ join rest
         end) items
  | VObj _ => "[object Object]"
  end.

(** [existingNames.has(name)] on the set of the [name] columns. *)
Definition has_name (existingNames : list Value) (name : string) : bool :=
  existsb (is_str name) existingNames.

(** The [while] loop that looks for a free counter, run for at most [fuel]
    rounds. *)
Fixpoint free_counter (fuel : nat) (existingNames : list Value)
    (baseName : string) (counter : nat) : option nat :=
  match fuel with
  | O => None
  | S fuel' =>
      if has_name existingNames (baseName +:+ " " +:+ pretty counter) then
        free_counter fuel' existingNames baseName (S counter)
      else Some counter
  end.

(** [fuel] bounds the rounds of the loop; [None] when it does not suffice. *)
Definition copy_name (fuel : nat) (existingNames : list Value)
    (sourceName : string) : option string :=
  let baseName := sourceName +:+ " (Copy)" in
  if has_name existingNames baseName then
    match free_counter fuel existingNames baseName 2 with
    | Some counter => Some (baseName +:+ " " +:+ pretty counter)
    | None => None
    end
  else Some baseName.

(** *** JSON nodes as [extractIntegrationIds] reads them *)

(** [node.data?.config?.integrationId] reads [node.data], which throws on a
    node that is [null], then goes on through the optional chain. *)
Definition validation_view (node : Value)
  : Outcome Integrations.WorkflowNodeForValidation :=
  match member "data" node with
  | Thrown e => Thrown e
  | Returned data =>
      Returned
        {| Integrations.node_data :=
             if nullish data then None
             else Some
                    {| Integrations.node_config :=
                         if nullish (prop "config" data) then None
                         else Some
                                {| Integrations.integrationId :=
                                     Some (prop "integrationId"
                                             (prop "config" data)) |} |} |}
  end.

(** The JSON node names the integration [id]:
    [node.data?.config?.integrationId] is the string [id], which is not
    empty. *)
Definition json_names_integration (node : Value) (id : string) : Prop :=
  prop "integrationId" (prop "config" (prop "data" node)) = VStr id
  ∧ id ≠ "".

Fixpoint validation_views (nodes : list Value)
  : Outcome (list Integrations.WorkflowNodeForValidation) :=
  match nodes with
  | [] => Returned []
  | node :: rest =>
      match validation_view node, validation_views rest with
      | Thrown e, _ => Thrown e
      | Returned _, Thrown e => Thrown e
      | Returned n, Returned ns => Returned (n :: ns)
      end
  end.

(** Sample nodes and edges. *)
Definition sample_code_units (s : string) : list string :=
  map (λ c, String c EmptyString) (list_ascii_of_string s).

Definition json_node (id : string) (config : list (string * Value)) : Value :=
  VObj [("id", VStr id);
        ("data", VObj [("label", VStr id); ("config", VObj config);
                       ("status", VStr "success")])].

Definition json_edge (id source target : string) : Value :=
  VObj [("id", VStr id); ("source", VStr source); ("target", VStr target)].

Definition sample_json_nodes : list Value :=
  [ json_node "a" [("triggerType", VStr "Webhook")];
    json_node "b" [("integrationId", VStr "int-1"); ("to", VStr "x")] ].

Definition sample_json_edges : list Value := [ json_edge "e1" "a" "b" ].

Definition sample_nanoid (k : nat) : string := "n" +:+ pretty k.

End Js.

(** ** The route handlers of workflows *)

Module Api.
Import Integrations IntegrationWrites Js.

(** *** The database *)

(** A row of [workflows]; the columns that take what a request body holds
    are JSON values. *)
Record WorkflowRow : Type := mkWorkflowRow {
  wf_id : string;
  wf_user_id : string;
  wf_name : Value;
  wf_description : Value;
  wf_nodes : Value;
  wf_edges : Value;
  wf_visibility : string;
  wf_created_at : string;
  wf_updated_at : string;
}.

(** A row of [api_keys]. *)
Record ApiKeyRow : Type := mkApiKeyRow {
  key_id : string;
  key_user_id : string;
  key_hash : string;
  key_last_used_at : option string;
}.

(** The argument of a [start(executeWorkflow, [...])] call. *)
Record StartArgs : Type := mkStartArgs {
  arg_nodes : Value;
  arg_edges : Value;
  arg_triggerInput : Value;
  arg_executionId : string;
  arg_workflowId : string;
}.

Record Server : Type := mkServer {
  proc : Proc;                                      (* environment, integrations *)
  workflows : list WorkflowRow;
  api_keys : list ApiKeyRow;
  workflow_executions : list WorkflowExecutions.ExecutionRow;
  workflow_execution_logs : list WorkflowLogging.LogRow;
  fates : list QueryFate;                           (* fate of upcoming queries *)
  start_fates : list (option Exn);                  (* what upcoming start() calls throw *)
  started : list StartArgs;                         (* the start() calls made *)
}.

Definition set_proc (p : Proc) (s : Server) : Server :=
  {| proc := p; workflows := workflows s; api_keys := api_keys s;
     workflow_executions := workflow_executions s;
     workflow_execution_logs := workflow_execution_logs s;
     fates := fates s; start_fates := start_fates s; started := started s |}.

Definition set_workflows (rows : list WorkflowRow) (s : Server) : Server :=
  {| proc := proc s; workflows := rows; api_keys := api_keys s;
     workflow_executions := workflow_executions s;
     workflow_execution_logs := workflow_execution_logs s;
     fates := fates s; start_fates := start_fates s; started := started s |}.

Definition set_api_keys (rows : list ApiKeyRow) (s : Server) : Server :=
  {| proc := proc s; workflows := workflows s; api_keys := rows;
     workflow_executions := workflow_executions s;
     workflow_execution_logs := workflow_execution_logs s;
     fates := fates s; start_fates := start_fates s; started := started s |}.

Definition set_executions (rows : list WorkflowExecutions.ExecutionRow)
    (s : Server) : Server :=
  {| proc := proc s; workflows := workflows s; api_keys := api_keys s;
     workflow_executions := rows;
     workflow_execution_logs := workflow_execution_logs s;
     fates := fates s; start_fates := start_fates s; started := started s |}.

Definition set_logs (rows : list WorkflowLogging.LogRow) (s : Server)
  : Server :=
  {| proc := proc s; workflows := workflows s; api_keys := api_keys s;
     workflow_executions := workflow_executions s;
     workflow_execution_logs := rows;
     fates := fates s; start_fates := start_fates s; started := started s |}.

Definition set_fates (rest : list QueryFate) (s : Server) : Server :=
  {| proc := proc s; workflows := workflows s; api_keys := api_keys s;
     workflow_executions := workflow_executions s;
     workflow_execution_logs := workflow_execution_logs s;
     fates := rest; start_fates := start_fates s; started := started s |}.

(** A query of the session's client: the next fate decides whether it
    fails; when it does not, [run] gives the answer and what the tables
    hold afterwards. *)
Definition query {A} (run : Server → (option A * option Exn) * Server)
  : Eff Server (option A * option Exn) :=
  λ s,
    match fates s with
    | [] => (Returned (None, Some (JsError "connection lost")), s)
    | QueryFails msg :: rest =>
        (Returned (None, Some (JsError msg)), set_fates rest s)
    | QuerySucceeds :: rest =>
        let '(answer, s') := run (set_fates rest s) in (Returned answer, s')
    end.

(** [.single()]: exactly one row, or an error and no data. *)
Definition one_row {R} (rows : list R) : option R * option Exn :=
  match rows with
  | [row] => (Some row, None)
  | _ =>
      (None,
       Some (JsError "JSON object requested, multiple (or no) rows returned"))
  end.

(** The integration store is read through the admin client. *)
Definition lift_proc {A} (m : Eff Proc A) : Eff Server A :=
  λ s, let '(o, p) := m (proc s) in (o, set_proc p s).

Definition lift {A} (o : Outcome A) : Eff Server A := λ s, (o, s).

(** *** Responses *)

Definition not_found : NextResponse :=
  {| status := 404; json := VObj [("error", VStr "Workflow not found")] |}.

(** [error instanceof Error ? error.message : fallback], with status 500 *)
Definition server_error (fallback : string) (error : Exn) : NextResponse :=
  {| status := 500;
     json := VObj [("error",
                    VStr match error with
                         | JsError message => message
                         | JsThrown _ => fallback
                         end)] |}.

(** A workflow row as the object that the client library returns. *)
Definition workflow_json (w : WorkflowRow) : list (string * Value) :=
  [("created_at", VStr (wf_created_at w));
   ("description", wf_description w);
   ("edges", wf_edges w);
   ("id", VStr (wf_id w));
   ("name", wf_name w);
   ("nodes", wf_nodes w);
   ("updated_at", VStr (wf_updated_at w));
   ("user_id", VStr (wf_user_id w));
   ("visibility", VStr (wf_visibility w))].

(** *** [GET /api/workflows/[workflowId]] *)

Section Handlers.

Variable code_units : string → list string.

(** The code points of a string, each as a string of its own: what
    iterating over a string yields. *)
Variable code_points : string → list string.

(** [createHash("sha256").update(key).digest("hex")] *)
Variable sha256_hex : string → string.

(** [nodes.map(...)] needs an array. *)
Definition as_array (what : string) (v : Value) : Outcome (list Value) :=
  match v with
  | VArr items => Returned items
  | _ => Thrown (JsError (what +:+ " is not a function"))
  end.

Definition GET (user : option string) (workflowId : string)
  : Eff Server NextResponse :=
  try_catch
    (res <- query (λ s,
              (one_row (List.filter (λ w, String.eqb (wf_id w) workflowId)
                                    (workflows s)), s)) ;;
     match res with
     | (Some workflow, None) =>
         let isOwner :=
           match user with
           | Some user_id => String.eqb user_id (wf_user_id workflow)
           | None => false
           end in
         if negb isOwner
            && negb (String.eqb (wf_visibility workflow) "public") then
           ret not_found
         else
           nodes <- (if isOwner then ret (wf_nodes workflow)
                     else
                       items <- lift (as_array "nodes.map"
                                               (wf_nodes workflow)) ;;
                       ret (VArr (sanitizeNodesForPublicView code_units
                                    items))) ;;
           ret {| status := 200;
                  json :=
                    VObj (obj_set "isOwner" (VBool isOwner)
                            (obj_set "updatedAt"
                               (VStr (wf_updated_at workflow))
                               (obj_set "createdAt"
                                  (VStr (wf_created_at workflow))
                                  (obj_set "nodes" nodes
                                     (workflow_json workflow))))) |}
     | _ => ret not_found
     end)
    (λ error, ret (server_error "Failed to get workflow" error)).

(** *** [PATCH /api/workflows/[workflowId]] *)

(** What iterating over a value yields. *)
Definition iterate (v : Value) : Outcome (list Value) :=
  match v with
  | VArr items => Returned items
  | VStr s => Returned (map VStr (code_points s))
  | _ => Thrown (JsError "nodes is not iterable")
  end.

(** [validateWorkflowIntegrations] on the nodes as they come from JSON. *)
Definition validateWorkflowIntegrations_json (nodes : Value)
    (userId : string) : Eff Server Validation :=
  items <- lift (iterate nodes) ;;
  views <- lift (validation_views items) ;;
  lift_proc (validateWorkflowIntegrations views userId).

(** [.update(updateData)] on a workflow row. *)
Definition updated_workflow (updateData : list (string * Value))
    (w : WorkflowRow) : WorkflowRow :=
  let text k old :=
    match assoc_get k updateData with
    | Some (VStr s) => s
    | _ => old
    end in
  let json k old := default old (assoc_get k updateData) in
  {| wf_id := text "id" (wf_id w);
     wf_user_id := text "user_id" (wf_user_id w);
     wf_name := json "name" (wf_name w);
     wf_description := json "description" (wf_description w);
     wf_nodes := json "nodes" (wf_nodes w);
     wf_edges := json "edges" (wf_edges w);
     wf_visibility := text "visibility" (wf_visibility w);
     wf_created_at := text "created_at" (wf_created_at w);
     wf_updated_at := text "updated_at" (wf_updated_at w) |}.

(** [body] is what [await request.json()] gives; [now] is
    [new Date().toISOString()]. *)
Definition PATCH (now : string) (user : option string) (workflowId : string)
    (body : Outcome Value) : Eff Server NextResponse :=
  try_catch
    (match user with
     | None => ret unauthorized
     | Some user_id =>
         res <- query (λ s,
                  (one_row (List.filter
                              (λ w, String.eqb (wf_id w) workflowId
                                    && String.eqb (wf_user_id w) user_id)
                              (workflows s)), s)) ;;
         match res with
         | (Some existingWorkflow, None) =>
             body <- lift body ;;
             nodes <- lift (member "nodes" body) ;;
             valid <- match nodes with
                      | VArr _ =>
                          validation <- validateWorkflowIntegrations_json
                                          nodes user_id ;;
                          ret (valid validation)
                      | _ => ret true
                      end ;;
             if negb valid then
               ret {| status := 403;
                      json := VObj [("error",
                                     VStr "Invalid integration references in workflow")] |}
             else if negb (match prop "visibility" body with
                           | VUndefined => true
                           | _ => false
                           end)
                     && negb (is_str "private" (prop "visibility" body))
                     && negb (is_str "public" (prop "visibility" body)) then
               ret {| status := 400;
                      json := VObj [("error",
                                     VStr "Invalid visibility value. Must be 'private' or 'public'")] |}
             else
               let updateData := buildUpdateData now body in
               res <- query (λ s,
                        match List.filter
                                (λ w, String.eqb (wf_id w) workflowId)
                                (workflows s) with
                        | [row] =>
                            ((Some (updated_workflow updateData row), None),
                             set_workflows
                               (map (λ w, if String.eqb (wf_id w) workflowId
                                          then updated_workflow updateData w
                                          else w)
                                    (workflows s)) s)
                        | rows => (one_row rows, s)
                        end) ;;
               match res with
               | (Some updatedWorkflow, None) =>
                   ret {| status := 200;
                          json :=
                            VObj (obj_set "isOwner" (VBool true)
                                    (obj_set "updatedAt"
                                       (VStr (wf_updated_at updatedWorkflow))
                                       (obj_set "createdAt"
                                          (VStr (wf_created_at
                                                   updatedWorkflow))
                                          (workflow_json updatedWorkflow))))
                       |}
               | _ => ret not_found
               end
         | _ => ret not_found
         end
     end)
    (λ error, ret (server_error "Failed to update workflow" error)).

(** *** Starting an execution *)







(** *** [POST /api/workflows/[workflowId]/execute] *)


(** *** [POST /api/workflows/[workflowId]/webhook] *)

Record ApiKeyValidation : Type := mkApiKeyValidation {
  key_valid : bool;
  key_error : option string;
  statusCode : option nat;
}.

(** [s.slice(n)] *)
Fixpoint slice (n : nat) (s : string) : string :=
  match n, s with
  | O, _ => s
  | S n', String _ rest => slice n' rest
  | S _, EmptyString => EmptyString
  end.

(** [now] is [new Date().toISOString()]. *)
Definition validateApiKey (now : string) (authHeader : option string)
    (workflowUserId : string) : Eff Server ApiKeyValidation :=
  match authHeader with
  | Some authHeader =>
      if String.eqb authHeader "" then
        ret {| key_valid := false;
               key_error := Some "Missing Authorization header";
               statusCode := Some 401%nat |}
      else
        let key :=
          if String.prefix "Bearer " authHeader then slice 7 authHeader
          else authHeader in
        if negb (String.prefix "wfb_" key) then
          ret {| key_valid := false;
                 key_error := Some "Invalid API key format";
                 statusCode := Some 401%nat |}
        else
          let keyHash := sha256_hex key in
          res <- query (λ s,
                   (one_row (List.filter
                               (λ k, String.eqb (key_hash k) keyHash)
                               (api_keys s)), s)) ;;
          match res with
          | (Some apiKey, None) =>
              if negb (String.eqb (key_user_id apiKey) workflowUserId) then
                ret {| key_valid := false;
                       key_error :=
                         Some "You do not have permission to run this workflow";
                       statusCode := Some 403%nat |}
              else
                (* fire and forget: the outcome of the update is ignored *)
                _ <- query (A := unit) (λ s,
                       ((Some tt, None),
                        set_api_keys
                          (map (λ k, if String.eqb (key_id k) (key_id apiKey)
                                     then {| key_id := key_id k;
                                             key_user_id := key_user_id k;
                                             key_hash := key_hash k;
                                             key_last_used_at := Some now |}
                                     else k)
                               (api_keys s)) s)) ;;
                ret {| key_valid := true; key_error := None;
                       statusCode := None |}
          | _ =>
              ret {| key_valid := false;
                     key_error := Some "Invalid API key";
                     statusCode := Some 401%nat |}
          end
  | None =>
      ret {| key_valid := false;
             key_error := Some "Missing Authorization header";
             statusCode := Some 401%nat |}
  end.





(** *** [DELETE /api/workflows/[workflowId]/executions] *)

Definition executions_DELETE (user : option string) (workflowId : string)
  : Eff Server NextResponse :=
  try_catch
    (match user with
     | None => ret unauthorized
     | Some user_id =>
         res <- query (λ s,
                  (one_row (List.filter
                              (λ w, String.eqb (wf_id w) workflowId
                                    && String.eqb (wf_user_id w) user_id)
                              (workflows s)), s)) ;;
         match res with
         | (Some workflow, None) =>
             res <- query (λ s,
                      ((Some (List.filter
                                (λ e, String.eqb
                                        (WorkflowExecutions.exec_workflow_id e)
                                        workflowId)
                                (workflow_executions s)), None), s)) ;;
             match res with
             | (_, Some executionsError) => throw executionsError
             | (executions, None) =>
                 let executionIds :=
                   map WorkflowExecutions.exec_id (default [] executions) in
                 (if Nat.ltb 0 (length executionIds) then
                    res <- query (A := unit) (λ s,
                             ((Some tt, None),
                              set_logs
                                (List.filter
                                   (λ l, negb (bool_decide
                                                 (WorkflowLogging.row_execution_id l
                                                  ∈ executionIds)))
                                   (workflow_execution_logs s)) s)) ;;
                    match res with
                    | (_, Some logsDeleteError) => throw logsDeleteError
                    | _ =>
                        res <- query (A := unit) (λ s,
                                 ((Some tt, None),
                                  set_executions
                                    (List.filter
                                       (λ e, negb (String.eqb
                                                     (WorkflowExecutions.exec_workflow_id e)
                                                     workflowId))
                                       (workflow_executions s)) s)) ;;
                        match res with
                        | (_, Some executionsDeleteError) =>
                            throw executionsDeleteError
                        | _ => ret tt
                        end
                    end
                  else ret tt) ;;;
                 ret {| status := 200;
                        json :=
                          VObj [("success", VBool true);
                                ("deletedCount",
                                 VNum (Z.of_nat (length executionIds)))] |}
             end
         | _ => ret not_found
         end
     end)
    (λ error, ret (server_error "Failed to delete executions" error)).

End Handlers.

(** What a handler that only reads leaves as it is. *)
Definition same_tables (s s' : Server) : Prop :=
  integrations (proc s') = integrations (proc s)
  ∧ workflows s' = workflows s
  ∧ api_keys s' = api_keys s
  ∧ workflow_executions s' = workflow_executions s
  ∧ workflow_execution_logs s' = workflow_execution_logs s
  ∧ started s' = started s.



(** The key that an [Authorization] header carries. *)
Definition bearer_key (authHeader : string) : string :=
  if String.prefix "Bearer " authHeader then slice 7 authHeader
  else authHeader.

(** What the ownership check of integrations leaves as it is: everything
    but the fates of the admin client's queries. *)
Definition same_but_proc (s s' : Server) : Prop :=
  same_tables s s'
  ∧ fates s' = fates s
  ∧ start_fates s' = start_fates s
  ∧ INTEGRATION_ENCRYPTION_KEY (proc s') = INTEGRATION_ENCRYPTION_KEY (proc s).

(** Every log belongs to an execution that exists. *)
Definition logs_have_executions (s : Server) : Prop :=
  ∀ l, l ∈ workflow_execution_logs s →
       ∃ e, e ∈ workflow_executions s
            ∧ WorkflowExecutions.exec_id e
              = WorkflowLogging.row_execution_id l.

End Api.

(** * Properties *)

(** ** Strings *)

Lemma append_cons x (a b : string) : String x a +:+ b = String x (a +:+ b).
Proof. reflexivity. Qed.

Lemma append_assoc (a b c : string) : (a +:+ b) +:+ c = a +:+ (b +:+ c).
Proof. induction a as [|x a IH]; [done|]. by rewrite !append_cons, IH. Qed.

Lemma append_nil_r (a : string) : a +:+ "" = a.
Proof. induction a as [|x a IH]; [done|]. by rewrite append_cons, IH. Qed.

Lemma append_length (a b : string) :
  String.length (a +:+ b) = (String.length a + String.length b)%nat.
Proof.
  induction a as [|x a IH]; [done|]. rewrite append_cons. simpl.
  by rewrite IH.
Qed.

Lemma lacks_cons c x (s : string) :
  lacks c (String x s) = negb (Ascii.eqb x c) && lacks c s.
Proof. reflexivity. Qed.

Lemma lacks_append c (a b : string) :
  lacks c (a +:+ b) = lacks c a && lacks c b.
Proof.
  induction a as [|x a IH]; [done|]. rewrite append_cons. simpl.
  by rewrite IH, andb_assoc.
Qed.

Lemma str_split_lacks sep s : lacks sep s = true → str_split sep s = [s].
Proof.
  induction s as [|c s IH]; simpl; [done|].
  destruct (Ascii.eqb c sep); simpl; [done|].
  intros H. by rewrite (IH H).
Qed.

Lemma str_split_app sep a b :
  lacks sep a = true →
  str_split sep (a +:+ String sep b) = a :: str_split sep b.
Proof.
  induction a as [|c a IH]; simpl.
  - intros _. by rewrite Ascii.eqb_refl.
  - destruct (Ascii.eqb c sep); simpl; [done|].
    intros H. by rewrite (IH H).
Qed.

(** ** Step logging *)

Lemma isErrorResult_spec result :
  isErrorResult result = true
  ↔ ∃ props, result = VObj props
             ∧ assoc_get "success" props = Some (VBool false).
Proof.
  split.
  - destruct result as [| | | | |items|props]; simpl; try discriminate.
    destruct (assoc_get "success" props) as [[| |[]| | | |]|] eqn:Hget;
      try discriminate.
    intros _. by exists props.
  - intros (props & -> & Hget). simpl. by rewrite Hget.
Qed.

Lemma step_failed_returned result :
  step_failed (Returned result) ↔ isErrorResult result = true.
Proof.
  rewrite isErrorResult_spec. unfold step_failed. split.
  - intros [(props & [= ->] & Hget) | (e & [=])]. eauto.
  - intros (props & -> & Hget). left. eauto.
Qed.

Section StepLoggingFacts.

Variable redactSensitiveData : Value → Value.

Lemma logStepStart_total context input w :
  ∃ info w',
    StepLogging.logStepStart redactSensitiveData context input w
      = (Returned info, w')
    ∧ clock w' = clock w
    ∧ (∃ sent, wire w' = wire w ++ sent
               ∧ Forall (λ req, snapshot_of req = redactSensitiveData input)
                        sent)
    ∧ (log_start_fails w = true →
       info = {| logId := ""; startTime := clock w |}).
Proof.
  unfold StepLogging.logStepStart, log_start_fails.
  destruct (contextExecutionId context) as [execId|]; [destruct context as [ctx|]|].
  - unfold try_catch, bind, fetch, response_json, Date_now, ret, throw,
      console_error.
    destruct (network w) as [|[|[[] [b|]]] rest]; simpl;
      eexists _, _; (split; [reflexivity|]); simpl;
      (split; [reflexivity|]);
      (split; [eexists; split; [reflexivity|]; repeat constructor|]);
      try done.
  - eexists _, _. split; [reflexivity|]. simpl. split; [done|].
    split; [|done]. exists []. by rewrite app_nil_r.
  - destruct context; eexists _, _; (split; [reflexivity|]); simpl;
      (split; [done|]); (split; [|done]); exists []; by rewrite app_nil_r.
Qed.

Lemma logStepComplete_total info status output error w :
  ∃ w',
    StepLogging.logStepComplete redactSensitiveData info status output error w
      = (Returned tt, w')
    ∧ wire w' = wire w ++
        (if String.eqb (logId info) "" then []
         else [CompleteReq (logId info) (startTime info) status
                           (redactSensitiveData output) error]).
Proof.
  unfold StepLogging.logStepComplete.
  destruct (String.eqb (logId info) "").
  - eexists. split; [reflexivity|]. by rewrite app_nil_r.
  - unfold try_catch, bind, fetch, ret, console_error.
    destruct (network w) as [|[|r] rest]; simpl;
      eexists; (split; [reflexivity|]); done.
Qed.

(** The wrapper runs the step once, after the start of the log, ends with
    one call of [logStepComplete], and hands on the outcome of the step. *)
Lemma withStepLogging_run context input stepLogic w0 info w1 o w2 :
  StepLogging.logStepStart redactSensitiveData context input w0
    = (Returned info, w1) →
  stepLogic w1 = (o, w2) →
  ∃ status error,
    StepLogging.withStepLogging redactSensitiveData context input stepLogic w0
      = (o, (StepLogging.logStepComplete redactSensitiveData info status
               (output_of o) error w2).2)
    ∧ (status = StError ↔ step_failed o)
    ∧ (status = StSuccess ↔ ¬ step_failed o).
Proof.
  intros Hstart Hstep.
  unfold StepLogging.withStepLogging, bind at 1. rewrite Hstart.
  unfold try_catch, bind at 1. rewrite Hstep.
  destruct o as [result|e].
  - destruct (isErrorResult result) eqn:Herr.
    + exists StError, (Some (errorOrDefault result)).
      destruct (logStepComplete_total info StError result
                  (Some (errorOrDefault result)) w2) as (w3 & Hc & _).
      unfold bind, ret. simpl. rewrite !Hc. simpl.
      rewrite step_failed_returned.
      split; [done|]. split; [done|]. split; [done|]. congruence.
    + exists StSuccess, None.
      destruct (logStepComplete_total info StSuccess result None w2)
        as (w3 & Hc & _).
      unfold bind, ret. simpl. rewrite !Hc. simpl.
      rewrite step_failed_returned.
      split; [done|]. split; [|split; [congruence|done]].
      split; [done|congruence].
  - exists StError, (Some (VStr (errorMessageOf e))).
    destruct (logStepComplete_total info StError VUndefined
                (Some (VStr (errorMessageOf e))) w2) as (w3 & Hc & _).
    unfold bind, throw. simpl. rewrite !Hc. simpl.
    assert (step_failed (Thrown e)) by (right; eauto).
    split; [done|]. split; [done|]. split; [done|]. tauto.
Qed.

End StepLoggingFacts.

(** The step handler that wraps a step function from outside is the same
    wrapper, applied to a context that is always present. *)
Section StepHandlerFacts.

Variable redactSensitiveData : Value → Value.

Lemma stepHandler_logStepStart context input w :
  StepHandler.logStepStart redactSensitiveData context input w
  = StepLogging.logStepStart redactSensitiveData (Some context) input w.
Proof.
  unfold StepHandler.logStepStart, StepLogging.logStepStart.
  by destruct (contextExecutionId (Some context)).
Qed.

Lemma stepHandler_logStepComplete info status output error w :
  StepHandler.logStepComplete redactSensitiveData (logId info)
    (startTime info) status output error w
  = StepLogging.logStepComplete redactSensitiveData info status output error w.
Proof. reflexivity. Qed.

Lemma stepHandler_withStepLogging stepFn input context w :
  StepHandler.stepHandler redactSensitiveData stepFn input context w
  = StepLogging.withStepLogging redactSensitiveData (Some context) input
      (stepFn input) w.
Proof.
  unfold StepHandler.stepHandler, StepLogging.withStepLogging, bind,
    try_catch.
  rewrite stepHandler_logStepStart.
  destruct (StepLogging.logStepStart _ _ _ _) as [[info|e] w1]; [|done].
  destruct (stepFn input w1) as [[result|e] w2];
    [destruct (isErrorResult result)|]; reflexivity.
Qed.

End StepHandlerFacts.

(** What the wrapper leaves on the wire after the step: the completion
    request, when the log has an id. *)
Lemma withStepLogging_records redact context input stepLogic w0 info w1 :
  StepLogging.logStepStart redact context input w0 = (Returned info, w1) →
  ∃ status error,
    (StepLogging.withStepLogging redact context input stepLogic w0).1
    = (stepLogic w1).1
    ∧ wire (StepLogging.withStepLogging redact context input stepLogic w0).2
      = wire (stepLogic w1).2 ++
          (if String.eqb (logId info) "" then []
           else [CompleteReq (logId info) (startTime info) status
                             (redact (output_of (stepLogic w1).1)) error])
    ∧ (status = StError ↔ step_failed (stepLogic w1).1)
    ∧ (status = StSuccess ↔ ¬ step_failed (stepLogic w1).1).
Proof.
  intros Hstart.
  destruct (stepLogic w1) as [o w2] eqn:Hstep.
  destruct (withStepLogging_run redact context input stepLogic w0 info w1 o w2
              Hstart Hstep) as (status & error & Hrun & Herr & Hok).
  destruct (logStepComplete_total redact info status (output_of o) error w2)
    as (w3 & Hc & Hwire).
  exists status, error. rewrite Hrun, Hc. simpl. done.
Qed.

(** C4, as the code has it. Whenever the start of the log gave a log id,
    [withStepLogging] and [stepHandler] record one completion, with status
    error if and only if the result of the step is an object whose [success]
    field is [false] or the step throws, and with status success in every
    other case. To record a completion is to put its request on the wire to
    the log endpoint. *)
Theorem completion_status_error_iff_step_failed
    (redact : Value → Value) (context : option StepContext) (input : Value)
    (w0 : World) (info : LogInfo) (w1 : World) :
  StepLogging.logStepStart redact context input w0 = (Returned info, w1) →
  logId info ≠ "" →
  (∀ stepLogic : M Value,
     ∃ status error,
       wire (StepLogging.withStepLogging redact context input stepLogic w0).2
       = wire (stepLogic w1).2 ++
           [CompleteReq (logId info) (startTime info) status
                        (redact (output_of (stepLogic w1).1)) error]
       ∧ (status = StError ↔ step_failed (stepLogic w1).1)
       ∧ (status = StSuccess ↔ ¬ step_failed (stepLogic w1).1))
  ∧ (∀ (c : StepContext) (stepFn : Value → M Value),
       context = Some c →
       ∃ status error,
         wire (StepHandler.stepHandler redact stepFn input c w0).2
         = wire (stepFn input w1).2 ++
             [CompleteReq (logId info) (startTime info) status
                          (redact (output_of (stepFn input w1).1)) error]
         ∧ (status = StError ↔ step_failed (stepFn input w1).1)
         ∧ (status = StSuccess ↔ ¬ step_failed (stepFn input w1).1)).
Proof.
  intros Hstart Hid.
  assert (String.eqb (logId info) "" = false) as Hid'
    by (by apply String.eqb_neq).
  split.
  - intros stepLogic.
    destruct (withStepLogging_records redact context input stepLogic w0 info
                w1 Hstart) as (status & error & _ & Hwire & Herr & Hok).
    rewrite Hid' in Hwire. eauto.
  - intros c stepFn ->. rewrite stepHandler_withStepLogging.
    destruct (withStepLogging_records redact (Some c) input (stepFn input) w0
                info w1 Hstart) as (status & error & _ & Hwire & Herr & Hok).
    rewrite Hid' in Hwire. eauto.
Qed.

Lemma completion_status_witness :
  ∃ status error,
    wire (StepLogging.withStepLogging sample_redact (Some sample_context)
            sample_input failing_step sample_world).2
    = [StartReq "exec-1" "node-1" "Send email" "action"
         (sample_redact sample_input)] ++
        [CompleteReq "log-1" 990 status
           (sample_redact
              (VObj [("success", VBool false); ("error", VStr "timeout")]))
           error]
    ∧ (status = StError ↔ step_failed (Returned (VObj [("success", VBool false); ("error", VStr "timeout")])))
    ∧ (status = StSuccess ↔ ¬ step_failed (Returned (VObj [("success", VBool false); ("error", VStr "timeout")]))).
Proof.
  refine (proj1 (completion_status_error_iff_step_failed sample_redact
                   (Some sample_context) sample_input sample_world
                   {| logId := "log-1"; startTime := 990 |}
                   {| clock := 1000;
                      network := [Resolved {| ok := true;
                                              json_body := None |}];
                      wire := [StartReq "exec-1" "node-1" "Send email"
                                 "action" (sample_redact sample_input)];
                      console := [] |} eq_refl _) failing_step).
  discriminate.
Defined.

(** C4 as stated fails without a log id: with no execution id in the
    context, or when the start of the log could not be persisted, the
    wrapper records no completion at all, whether the step fails or
    succeeds. *)
Lemma completion_not_recorded_without_log_id :
  (step_failed
     (StepLogging.withStepLogging sample_redact None sample_input
        failing_step sample_world).1
   ∧ wire (StepLogging.withStepLogging sample_redact None sample_input
             failing_step sample_world).2 = [])
  ∧ (¬ step_failed
       (StepLogging.withStepLogging sample_redact None sample_input
          succeeding_step sample_world).1
     ∧ wire (StepLogging.withStepLogging sample_redact None sample_input
               succeeding_step sample_world).2 = [])
  ∧ (step_failed
       (StepLogging.withStepLogging sample_redact (Some sample_context)
          sample_input failing_step
          {| clock := 5; network := [NetworkError]; wire := [];
             console := [] |}).1
     ∧ wire (StepLogging.withStepLogging sample_redact (Some sample_context)
               sample_input failing_step
               {| clock := 5; network := [NetworkError]; wire := [];
                  console := [] |}).2
       = [StartReq "exec-1" "node-1" "Send email" "action"
            (sample_redact sample_input)]).
Proof.
  split; [|split].
  - split; [|reflexivity]. left. by eexists.
  - split; [|reflexivity].
    intros [(props & [= <-] & [=]) | (e & [=])].
  - split; [|reflexivity]. left. by eexists.
Qed.

(** C5. A failure while persisting a log entry never reaches the caller and
    never keeps the step from running and handing on its outcome:
    [logStepStart] always returns, and falls back to an empty log id and the
    current time when the request fails, the response is not ok or its body
    cannot be read; [logStepComplete] always returns, whatever the network
    does; [withStepLogging] runs the step after the start of the log and
    returns (or rethrows) exactly what the step did. *)
Theorem logging_failure_never_aborts_step
    (redact : Value → Value) (context : option StepContext) (input : Value)
    (stepLogic : M Value) (w0 : World) :
  ∃ info w1,
    StepLogging.logStepStart redact context input w0 = (Returned info, w1)
    ∧ (log_start_fails w0 = true →
       info = {| logId := ""; startTime := clock w1 |})
    ∧ (∃ w3, StepLogging.withStepLogging redact context input stepLogic w0
             = ((stepLogic w1).1, w3))
    ∧ (∀ info' status output error w,
         ∃ w', StepLogging.logStepComplete redact info' status output error w
               = (Returned (), w')).
Proof.
  destruct (logStepStart_total redact context input w0)
    as (info & w1 & Hstart & Hclock & _ & Hfall).
  exists info, w1. split; [done|]. split.
  { intros Hfails. rewrite Hclock. by apply Hfall. }
  split.
  - destruct (stepLogic w1) as [o w2] eqn:Hstep.
    destruct (withStepLogging_run redact context input stepLogic w0 info w1
                o w2 Hstart Hstep) as (status & error & Hrun & _).
    rewrite Hrun. eauto.
  - intros info' status output error w.
    destruct (logStepComplete_total redact info' status output error w)
      as (w' & Hc & _).
    eauto.
Qed.

Lemma withStepLogging_wire redact context input stepLogic w0 :
  ∃ info w1 sent_start sent_complete,
    StepLogging.logStepStart redact context input w0 = (Returned info, w1)
    ∧ wire w1 = wire w0 ++ sent_start
    ∧ Forall (λ req, snapshot_of req = redact input) sent_start
    ∧ wire (StepLogging.withStepLogging redact context input stepLogic w0).2
      = wire (stepLogic w1).2 ++ sent_complete
    ∧ Forall (λ req, snapshot_of req = redact (output_of (stepLogic w1).1))
             sent_complete.
Proof.
  destruct (logStepStart_total redact context input w0)
    as (info & w1 & Hstart & _ & (sent & Hwire & Hsent) & _).
  destruct (stepLogic w1) as [o w2] eqn:Hstep.
  destruct (withStepLogging_run redact context input stepLogic w0 info w1 o w2
              Hstart Hstep) as (status & error & Hrun & _).
  destruct (logStepComplete_total redact info status (output_of o) error w2)
    as (w3 & Hc & Hwire3).
  exists info, w1, sent. eexists. rewrite Hstep, Hrun, Hc. simpl.
  split; [done|]. split; [done|]. split; [done|].
  split; [exact Hwire3|].
  destruct (String.eqb (logId info) ""); repeat constructor.
Qed.

(** C6. Every input snapshot and every output snapshot that the logging
    wrappers put on the wire for persistence has been passed through
    [redactSensitiveData]: what [withStepLogging] and [stepHandler] send
    around the step are start requests that carry the redacted input and
    completion requests that carry the redacted output of the step. *)
Theorem snapshots_redacted_before_transmission
    (redact : Value → Value) (input : Value) (w0 : World) :
  (∀ (context : option StepContext) (stepLogic : M Value),
     ∃ info w1 sent_start sent_complete,
       StepLogging.logStepStart redact context input w0 = (Returned info, w1)
       ∧ wire w1 = wire w0 ++ sent_start
       ∧ Forall (λ req, snapshot_of req = redact input) sent_start
       ∧ wire (StepLogging.withStepLogging redact context input stepLogic
                 w0).2
         = wire (stepLogic w1).2 ++ sent_complete
       ∧ Forall (λ req,
                   snapshot_of req = redact (output_of (stepLogic w1).1))
                sent_complete)
  ∧ (∀ (context : StepContext) (stepFn : Value → M Value),
       ∃ info w1 sent_start sent_complete,
         StepHandler.logStepStart redact context input w0
           = (Returned info, w1)
         ∧ wire w1 = wire w0 ++ sent_start
         ∧ Forall (λ req, snapshot_of req = redact input) sent_start
         ∧ wire (StepHandler.stepHandler redact stepFn input context w0).2
           = wire (stepFn input w1).2 ++ sent_complete
         ∧ Forall (λ req,
                     snapshot_of req
                     = redact (output_of (stepFn input w1).1))
                  sent_complete).
Proof.
  split.
  - intros context stepLogic. apply withStepLogging_wire.
  - intros context stepFn.
    rewrite stepHandler_withStepLogging.
    setoid_rewrite stepHandler_logStepStart.
    apply withStepLogging_wire.
Qed.

(** A failing step with a log id: the start and the error completion go on
    the wire, both redacted. *)
Example failing_step_run :
  StepLogging.withStepLogging sample_redact (Some sample_context)
    sample_input failing_step sample_world
  = (Returned (VObj [("success", VBool false); ("error", VStr "timeout")]),
     {| clock := 1000; network := [];
        wire :=
          [StartReq "exec-1" "node-1" "Send email" "action"
             (VObj [("apiKey", VStr "[REDACTED]");
                    ("to", VStr "a@example.com")]);
           CompleteReq "log-1" 990 StError
             (VObj [("success", VBool false); ("error", VStr "timeout")])
             (Some (VStr "timeout"))];
        console := [] |}).
Proof. reflexivity. Qed.

(** A thrown exception is logged as an error and rethrown. *)
Example throwing_step_run :
  StepLogging.withStepLogging sample_redact (Some sample_context)
    sample_input throwing_step sample_world
  = (Thrown (JsError "boom"),
     {| clock := 1000; network := [];
        wire :=
          [StartReq "exec-1" "node-1" "Send email" "action"
             (VObj [("apiKey", VStr "[REDACTED]");
                    ("to", VStr "a@example.com")]);
           CompleteReq "log-1" 990 StError VUndefined
             (Some (VStr "boom"))];
        console := [] |}).
Proof. reflexivity. Qed.

(** Without an execution id nothing is logged, and with a dead network the
    step still runs and returns. *)
Example unlogged_step_run :
  (StepLogging.withStepLogging sample_redact None sample_input
     succeeding_step sample_world).2.(wire) = []
  ∧ (StepLogging.withStepLogging sample_redact (Some sample_context)
       sample_input succeeding_step
       {| clock := 5; network := [NetworkError]; wire := [];
          console := [] |}).1
    = Returned (VObj [("success", VBool true); ("apiKey", VStr "sk-123")]).
Proof. split; reflexivity. Qed.

(** ** The log store *)

Module WorkflowLoggingFacts.
Import WorkflowLogging.

Lemma logStepStartDb_rows params db :
  match logStepStartDb params db with
  | (Returned res, db') =>
      ∃ row, logs db' = logs db ++ [row]
             ∧ row_id row = result_logId res
             ∧ has_id (row_id row) (logs db) = false
             ∧ row_status row = RowRunning
             ∧ pair_of row = (start_executionId params, start_nodeId params)
             ∧ row_completed_at row = None
  | (Thrown _, db') => logs db' = logs db
  end.
Proof.
  unfold logStepStartDb, bind, Db_now, insert_log, ret, throw.
  destruct (db_fates db) as [|[msg|uuid] rest]; simpl; try done.
  destruct (has_id uuid (logs db)) eqn:Hid; simpl; [done|].
  eexists. split; [reflexivity|]. by simpl.
Qed.

Lemma logStepCompleteDb_rows params db :
  match logStepCompleteDb params db with
  | (Returned _, db') =>
      logs db' =
        map (λ r, if String.eqb (row_id r) (complete_logId params)
                  then completed_row params (db_clock db) r else r)
            (logs db)
  | (Thrown _, db') => logs db' = logs db
  end.
Proof.
  unfold logStepCompleteDb, bind, Db_now, update_log, ret, throw.
  destruct (db_fates db) as [|[msg|uuid] rest]; simpl; done.
Qed.

(** A completion never makes a row running. *)
Lemma running_rows_completed execId node params now rows :
  (length (filter (λ r, row_execution_id r = execId ∧ row_node_id r = node
                        ∧ row_status r = RowRunning)
             (map (λ r, if String.eqb (row_id r) (complete_logId params)
                        then completed_row params now r else r) rows))
   ≤ length (filter (λ r, row_execution_id r = execId ∧ row_node_id r = node
                          ∧ row_status r = RowRunning) rows))%nat.
Proof.
  induction rows as [|r rows IH]; [done|].
  simpl map. rewrite !filter_cons.
  destruct (String.eqb (row_id r) (complete_logId params)).
  - destruct (decide (row_execution_id (completed_row params now r) = execId
                      ∧ row_node_id (completed_row params now r) = node
                      ∧ row_status (completed_row params now r) = RowRunning))
      as [(_ & _ & Hrun)|_].
    + simpl in Hrun. by destruct (complete_status params).
    + destruct (decide _); simpl; lia.
  - destruct (decide _); simpl; lia.
Qed.

(** One call keeps the bound for a pair, unless it starts that pair while
    one of its rows is running. *)
Lemma run_call_running call db execId node :
  (length (running_rows execId node db) ≤ 1)%nat →
  (∀ params, call = CallStart params →
             start_executionId params = execId →
             start_nodeId params = node →
             length (running_rows execId node db) = 0%nat) →
  (length (running_rows execId node (run_call call db)) ≤ 1)%nat.
Proof.
  intros Hone Hidle. destruct call as [params|params|ms]; simpl; [| |done].
  - pose proof (logStepStartDb_rows params db) as H.
    destruct (logStepStartDb params db) as [[res|e] db']; simpl.
    + destruct H as (row & Hlogs & _ & _ & Hstatus & Hpair & _).
      unfold running_rows in *. rewrite Hlogs, filter_app, length_app.
      rewrite filter_cons, filter_nil.
      destruct (decide (row_execution_id row = execId
                        ∧ row_node_id row = node
                        ∧ row_status row = RowRunning))
        as [(Hexec & Hnode & _)|_]; simpl; [|lia].
      injection Hpair as Hp1 Hp2.
      rewrite (Hidle params eq_refl) by congruence. lia.
    + unfold running_rows in *. by rewrite H.
  - pose proof (logStepCompleteDb_rows params db) as H.
    destruct (logStepCompleteDb params db) as [[res|e] db']; simpl.
    + unfold running_rows in *. rewrite H.
      etransitivity; [apply running_rows_completed|done].
    + unfold running_rows in *. by rewrite H.
Qed.

Lemma run_calls_app calls1 calls2 db :
  run_calls (calls1 ++ calls2) db = run_calls calls2 (run_calls calls1 db).
Proof. unfold run_calls. apply fold_left_app. Qed.

Lemma started_when_idle_app calls1 calls2 db :
  started_when_idle (calls1 ++ calls2) db = true →
  started_when_idle calls1 db = true
  ∧ started_when_idle calls2 (run_calls calls1 db) = true.
Proof.
  revert db. induction calls1 as [|call calls1 IH]; intros db; [done|].
  simpl. intros [Hcall Hrest]%andb_true_iff.
  destruct (IH _ Hrest) as [H1 H2]. by rewrite Hcall, H1.
Qed.

Lemma run_calls_running calls db :
  (∀ execId node, (length (running_rows execId node db) ≤ 1)%nat) →
  started_when_idle calls db = true →
  ∀ execId node,
    (length (running_rows execId node (run_calls calls db)) ≤ 1)%nat.
Proof.
  revert db. induction calls as [|call calls IH]; intros db Hone Hidle;
    [done|].
  simpl in Hidle. apply andb_true_iff in Hidle as [Hcall Hrest].
  simpl. apply IH; [|done].
  intros execId node. apply run_call_running; [done|].
  intros params -> <- <-. by apply Nat.eqb_eq in Hcall.
Qed.

Lemma run_call_row_kept call db row :
  row ∈ logs db →
  (∀ params, call = CallComplete params → complete_logId params ≠ row_id row) →
  row ∈ logs (run_call call db).
Proof.
  intros Hrow Hother. destruct call as [params|params|ms]; simpl; [| |done].
  - pose proof (logStepStartDb_rows params db) as H.
    destruct (logStepStartDb params db) as [[res|e] db']; simpl.
    + destruct H as (new & -> & _). apply elem_of_app. by left.
    + by rewrite H.
  - pose proof (logStepCompleteDb_rows params db) as H.
    destruct (logStepCompleteDb params db) as [[res|e] db']; simpl;
      rewrite H; [|done].
    apply list_elem_of_In, in_map_iff. exists row.
    split; [|by apply list_elem_of_In].
    destruct (String.eqb_spec (row_id row) (complete_logId params)) as [Heq|];
      [|done].
    by destruct (Hother params eq_refl).
Qed.

(** C7, as the code has it. [logStepStartDb] creates each log row in status
    running, and [logStepCompleteDb] sets a terminal status, the completion
    time and the duration on the row with the given id and on no other row,
    and the output and the error where it is given them; a row changes only
    through a completion that names its id. Neither function limits how
    often it is called: on a store with at most one running row per
    (execution, node) pair, at every moment of a sequence of calls that
    starts no pair while one of its rows is running, at most one row of a
    pair is running. A pair may be started again once its row is
    completed. *)
Theorem running_rows_at_most_one_when_started_idle
    (calls : list DbCall) (db0 : Db) :
  (∀ execId node, (length (running_rows execId node db0) ≤ 1)%nat) →
  started_when_idle calls db0 = true →
  (∀ before after execId node,
     calls = before ++ after →
     (length (running_rows execId node (run_calls before db0)) ≤ 1)%nat)
  ∧ (∀ params db res db',
       logStepStartDb params db = (Returned res, db') →
       ∃ row, logs db' = logs db ++ [row]
              ∧ row_id row = result_logId res
              ∧ row_status row = RowRunning
              ∧ pair_of row = (start_executionId params, start_nodeId params))
  ∧ (∀ params db u db',
       logStepCompleteDb params db = (Returned u, db') →
       logs db' =
         map (λ r, if String.eqb (row_id r) (complete_logId params)
                   then completed_row params (db_clock db) r else r)
             (logs db))
  ∧ (∀ params now r,
       row_status (completed_row params now r) ≠ RowRunning
       ∧ row_completed_at (completed_row params now r) = Some now
       ∧ row_duration (completed_row params now r)
         = Some (now - complete_startTime params)
       ∧ (∀ output, complete_output params = Some output →
                    row_output (completed_row params now r) = Some output)
       ∧ (complete_output params = None →
          row_output (completed_row params now r) = row_output r)
       ∧ (∀ error, complete_error params = Some error →
                   row_error (completed_row params now r) = Some error)
       ∧ (complete_error params = None →
          row_error (completed_row params now r) = row_error r))
  ∧ (∀ call db row,
       row ∈ logs db →
       (∀ params, call = CallComplete params →
                  complete_logId params ≠ row_id row) →
       row ∈ logs (run_call call db)).
Proof.
  intros Hone Hidle. split; [|split; [|split; [|split]]].
  - intros before after execId node ->.
    apply run_calls_running; [done|].
    by destruct (started_when_idle_app before after db0 Hidle).
  - intros params db res db' Hrun.
    pose proof (logStepStartDb_rows params db) as H. rewrite Hrun in H.
    destruct H as (row & ? & ? & _ & ? & ? & _). eauto.
  - intros params db u db' Hrun.
    pose proof (logStepCompleteDb_rows params db) as H. by rewrite Hrun in H.
  - intros params now r. simpl.
    split; [by destruct (complete_status params)|].
    do 2 (split; [done|]).
    split; [by intros output ->|]. split; [by intros ->|].
    split; [by intros error ->|by intros ->].
  - intros call db row. apply run_call_row_kept.
Qed.

(** A node that is started, completed and started again has one running
    row before, between and after. *)
Lemma running_rows_at_most_one_witness :
  (∀ execId node, (length (running_rows execId node sample_db) ≤ 1)%nat)
  ∧ started_when_idle
      [CallStart (sample_start "node-1"); Tick 5;
       CallComplete (sample_complete "log-1" StSuccess);
       CallStart (sample_start "node-1")] sample_db = true
  ∧ (length (running_rows "exec-1" "node-1"
               (run_calls [CallStart (sample_start "node-1"); Tick 5;
                           CallComplete (sample_complete "log-1" StSuccess);
                           CallStart (sample_start "node-1")] sample_db))
     ≤ 1)%nat.
Proof.
  assert (∀ execId node,
            (length (running_rows execId node sample_db) ≤ 1)%nat) as Hone
    by (intros execId node; vm_compute; lia).
  split; [exact Hone|]. split; [reflexivity|].
  apply (proj1 (running_rows_at_most_one_when_started_idle
                  [CallStart (sample_start "node-1"); Tick 5;
                   CallComplete (sample_complete "log-1" StSuccess);
                   CallStart (sample_start "node-1")] sample_db Hone
                  eq_refl)
           [CallStart (sample_start "node-1"); Tick 5;
            CallComplete (sample_complete "log-1" StSuccess);
            CallStart (sample_start "node-1")] []).
  reflexivity.
Defined.

(** C7 as stated fails: nothing keeps a pair from being started twice, and
    then two of its rows are running; and nothing keeps a row from being
    completed twice, and then it is mutated twice. *)
Lemma two_starts_leave_two_running_rows :
  ¬ (length (running_rows "exec-1" "node-1"
               (run_calls [CallStart (sample_start "node-1");
                           CallStart (sample_start "node-1")] sample_db))
     ≤ 1)%nat
  ∧ map row_status
        (logs (run_calls [CallStart (sample_start "node-1");
                          CallComplete (sample_complete "log-1" StSuccess)]
                         sample_db))
    = [RowSuccess]
  ∧ map row_status
        (logs (run_calls [CallStart (sample_start "node-1");
                          CallComplete (sample_complete "log-1" StSuccess);
                          CallComplete (sample_complete "log-1" StError)]
                         sample_db))
    = [RowError].
Proof.
  split; [|split; reflexivity].
  vm_compute. lia.
Qed.

End WorkflowLoggingFacts.

(** ** Integration credentials *)

Module IntegrationsFacts.
Import Integrations.

(** *** Hex and the envelope *)

Lemma hex_of_byte_decode b rest :
  hex_decode (hex_of_byte b +:+ rest) = b :: hex_decode rest.
Proof. destruct b; reflexivity. Qed.

Lemma hex_decode_encode buf : hex_decode (hex_encode buf) = buf.
Proof.
  induction buf as [|b buf IH]; [done|].
  simpl hex_encode. by rewrite hex_of_byte_decode, IH.
Qed.

Lemma hex_of_byte_lacks_colon b : lacks ":" (hex_of_byte b) = true.
Proof. destruct b; reflexivity. Qed.

Lemma hex_encode_lacks_colon buf : lacks ":" (hex_encode buf) = true.
Proof.
  induction buf as [|b buf IH]; [done|].
  simpl hex_encode. by rewrite lacks_append, hex_of_byte_lacks_colon, IH.
Qed.

Lemma hex_value_bound c v : hex_value c = Some v → (v < 16)%N.
Proof.
  unfold hex_value. intros H.
  repeat match type of H with
         | (if ?b then _ else _) = _ => destruct b eqn:?
         end; try discriminate; injection H as <-;
    repeat match goal with
           | H : (_ && _)%bool = true |- _ => apply andb_true_iff in H as [? ?]
           | H : (_ <=? _)%N = true |- _ => apply N.leb_le in H
           end; lia.
Qed.

Lemma hex_decode_length s n :
  is_hex s = true → String.length s = (2 * n)%nat →
  length (hex_decode s) = n.
Proof.
  revert s. induction n as [|n IH]; intros s Hhex Hlen.
  - by destruct s.
  - destruct s as [|c1 [|c2 s]]; try (simpl in Hlen; lia).
    simpl in Hhex.
    destruct (hex_value c1) as [hi|] eqn:H1; [|done].
    destruct (hex_value c2) as [lo|] eqn:H2; [|done].
    simpl. rewrite H1, H2.
    apply hex_value_bound in H1. apply hex_value_bound in H2.
    destruct (Byte.of_N (16 * hi + lo)) as [b|] eqn:Hb.
    + simpl. f_equal. apply IH; [done|]. simpl in Hlen. lia.
    + apply Byte.of_N_None_iff in Hb. lia.
Qed.

Lemma hex_encode_length buf :
  String.length (hex_encode buf) = (2 * length buf)%nat.
Proof.
  induction buf as [|b buf IH]; [done|].
  simpl hex_encode. unfold hex_of_byte.
  change (String.length (String ?a (String ?c EmptyString) +:+ ?r))
    with (S (S (String.length r))).
  simpl. rewrite IH. lia.
Qed.

Lemma hex_encode_even buf : Nat.odd (String.length (hex_encode buf)) = false.
Proof.
  rewrite hex_encode_length, <- Nat.negb_even, Nat.even_mul. done.
Qed.

(** *** UTF-8 *)

Lemma lead_scalar1 b : scalar1 b = true → lead b = ([b], idle).
Proof. unfold scalar1, lead. by intros ->. Qed.

Lemma lead_C2_DF b :
  between 0xC2 0xDF b = true → lead b = ([], expect 1 0x80 0xBF b).
Proof. intros H. destruct b; first [discriminate H | reflexivity]. Qed.

Lemma lead_E0 b :
  between 0xE0 0xE0 b = true → lead b = ([], expect 2 0xA0 0xBF b).
Proof. intros H. destruct b; first [discriminate H | reflexivity]. Qed.

Lemma lead_E1_EC b :
  between 0xE1 0xEC b = true → lead b = ([], expect 2 0x80 0xBF b).
Proof. intros H. destruct b; first [discriminate H | reflexivity]. Qed.

Lemma lead_ED b :
  between 0xED 0xED b = true → lead b = ([], expect 2 0x80 0x9F b).
Proof. intros H. destruct b; first [discriminate H | reflexivity]. Qed.

Lemma lead_EE_EF b :
  between 0xEE 0xEF b = true → lead b = ([], expect 2 0x80 0xBF b).
Proof. intros H. destruct b; first [discriminate H | reflexivity]. Qed.

Lemma lead_F0 b :
  between 0xF0 0xF0 b = true → lead b = ([], expect 3 0x90 0xBF b).
Proof. intros H. destruct b; first [discriminate H | reflexivity]. Qed.

Lemma lead_F1_F3 b :
  between 0xF1 0xF3 b = true → lead b = ([], expect 3 0x80 0xBF b).
Proof. intros H. destruct b; first [discriminate H | reflexivity]. Qed.

Lemma lead_F4 b :
  between 0xF4 0xF4 b = true → lead b = ([], expect 3 0x80 0x8F b).
Proof. intros H. destruct b; first [discriminate H | reflexivity]. Qed.

Lemma not_ED lo hi b :
  between lo hi b = true → (hi < 0xED ∨ 0xED < lo)%N →
  between 0xED 0xED b = false.
Proof.
  unfold between. intros H Hr.
  apply andb_true_iff in H as [H1 H2].
  apply N.leb_le in H1, H2. apply andb_false_iff.
  destruct Hr; [left|right]; apply N.leb_gt; lia.
Qed.

Lemma not_A0_BF b :
  between 0x80 0x9F b = true → between 0xA0 0xBF b = false.
Proof.
  unfold between. intros H.
  apply andb_true_iff in H as [H1 H2].
  apply N.leb_le in H1, H2. apply andb_false_iff.
  left; apply N.leb_gt; lia.
Qed.

Lemma utf8_write_keep b rest :
  between 0xED 0xED b = false → utf8_write (b :: rest) = b :: utf8_write rest.
Proof. intros H. destruct rest as [|b2 [|b3 rest]]; simpl; by rewrite ?H. Qed.

Lemma utf8_write_keep_ED b b2 rest :
  between 0xA0 0xBF b2 = false →
  utf8_write (b :: b2 :: rest) = b :: utf8_write (b2 :: rest).
Proof.
  intros H. destruct rest as [|b3 rest]; [done|].
  change (utf8_write (b :: b2 :: b3 :: rest))
    with (if between 0xED 0xED b && between 0xA0 0xBF b2
          then replacement ++ utf8_write rest
          else b :: utf8_write (b2 :: b3 :: rest)).
  by rewrite H, andb_false_r.
Qed.

Lemma well_formed_utf8_cases (P : list byte → Prop) :
  P [] →
  (∀ b1 rest, scalar1 b1 = true → P rest → P (b1 :: rest)) →
  (∀ b1 b2 rest, scalar2 b1 b2 = true → P rest → P (b1 :: b2 :: rest)) →
  (∀ b1 b2 b3 rest,
     scalar3 b1 b2 b3 = true → P rest → P (b1 :: b2 :: b3 :: rest)) →
  (∀ b1 b2 b3 b4 rest,
     scalar4 b1 b2 b3 b4 = true → P rest → P (b1 :: b2 :: b3 :: b4 :: rest)) →
  ∀ s, well_formed_utf8 s = true → P s.
Proof.
  intros Hnil H1 H2 H3 H4 s.
  remember (length s) as n eqn:Hn. revert s Hn.
  induction n as [n IH] using lt_wf_ind. intros s Hn Hwf.
  destruct s as [|b1 rest1]; [done|]. simpl in Hwf, Hn.
  destruct (scalar1 b1) eqn:Hs1.
  { apply H1; [done|]. apply (IH (length rest1)); [lia|done|done]. }
  destruct rest1 as [|b2 rest2]; [done|]. simpl in Hn.
  destruct (scalar2 b1 b2) eqn:Hs2.
  { apply H2; [done|]. apply (IH (length rest2)); [lia|done|done]. }
  destruct rest2 as [|b3 rest3]; [done|]. simpl in Hn.
  destruct (scalar3 b1 b2 b3) eqn:Hs3.
  { apply H3; [done|]. apply (IH (length rest3)); [lia|done|done]. }
  destruct rest3 as [|b4 rest4]; [done|]. simpl in Hn.
  apply andb_true_iff in Hwf as [Hs4 Hwf].
  apply H4; [done|]. apply (IH (length rest4)); [lia|done|done].
Qed.

Lemma utf8_write_well_formed s :
  well_formed_utf8 s = true → utf8_write s = s.
Proof.
  revert s. apply (well_formed_utf8_cases (λ s, utf8_write s = s)).
  - done.
  - intros b1 rest H1 IH.
    rewrite utf8_write_keep, IH; [done|].
    apply (not_ED _ _ _ H1). lia.
  - intros b1 b2 rest [H1 H2]%andb_true_iff IH.
    rewrite !utf8_write_keep, IH; [done| |].
    + apply (not_ED _ _ _ H2). lia.
    + apply (not_ED _ _ _ H1). lia.
  - intros b1 b2 b3 rest [H12 H3]%andb_true_iff IH.
    assert (utf8_write (b1 :: b2 :: b3 :: rest)
            = b1 :: utf8_write (b2 :: b3 :: rest)) as ->.
    { repeat apply orb_true_iff in H12 as [H12|H12];
        apply andb_true_iff in H12 as [H1 H2].
      - apply utf8_write_keep, (not_ED _ _ _ H1). lia.
      - apply utf8_write_keep, (not_ED _ _ _ H1). lia.
      - by apply utf8_write_keep_ED, not_A0_BF.
      - apply utf8_write_keep, (not_ED _ _ _ H1). lia. }
    assert (between 0x80 0xBF b2 = true) as H2.
    { repeat apply orb_true_iff in H12 as [H12|H12];
        apply andb_true_iff in H12 as [_ H2]; try done;
        unfold between in *; apply andb_true_iff in H2 as [Hlo Hhi];
        apply N.leb_le in Hlo, Hhi; apply andb_true_iff;
        split; apply N.leb_le; lia. }
    rewrite !utf8_write_keep, IH; [done| |].
    + apply (not_ED _ _ _ H3). lia.
    + apply (not_ED _ _ _ H2). lia.
  - intros b1 b2 b3 b4 rest [[H12 H3]%andb_true_iff H4]%andb_true_iff IH.
    assert (between 0xF0 0xF4 b1 = true) as H1.
    { repeat apply orb_true_iff in H12 as [H12|H12];
        apply andb_true_iff in H12 as [H1 _];
        unfold between in *; apply andb_true_iff in H1 as [Hlo Hhi];
        apply N.leb_le in Hlo, Hhi; apply andb_true_iff;
        split; apply N.leb_le; lia. }
    assert (between 0x80 0xBF b2 = true) as H2.
    { repeat apply orb_true_iff in H12 as [H12|H12];
        apply andb_true_iff in H12 as [_ H2]; try done;
        unfold between in *; apply andb_true_iff in H2 as [Hlo Hhi];
        apply N.leb_le in Hlo, Hhi; apply andb_true_iff;
        split; apply N.leb_le; lia. }
    rewrite !utf8_write_keep, IH; [done| | | |].
    + apply (not_ED _ _ _ H4). lia.
    + apply (not_ED _ _ _ H3). lia.
    + apply (not_ED _ _ _ H2). lia.
    + apply (not_ED _ _ _ H1). lia.
Qed.

Lemma utf8_decode_well_formed s :
  well_formed_utf8 s = true → utf8_decode s = s.
Proof.
  unfold utf8_decode. revert s.
  apply (well_formed_utf8_cases (λ s, utf8_decode_from idle s = s)).
  - done.
  - intros b1 rest H1 IH. simpl. unfold feed. simpl.
    by rewrite (lead_scalar1 _ H1), IH.
  - intros b1 b2 rest [H1 H2]%andb_true_iff IH. simpl. unfold feed. simpl.
    rewrite (lead_C2_DF _ H1). simpl. by rewrite H2, IH.
  - intros b1 b2 b3 rest [H12 H3]%andb_true_iff IH.
    simpl. unfold feed. simpl.
    repeat apply orb_true_iff in H12 as [H12|H12];
      apply andb_true_iff in H12 as [H1 H2].
    + rewrite (lead_E0 _ H1). simpl. rewrite H2. simpl. by rewrite H3, IH.
    + rewrite (lead_E1_EC _ H1). simpl. rewrite H2. simpl. by rewrite H3, IH.
    + rewrite (lead_ED _ H1). simpl. rewrite H2. simpl. by rewrite H3, IH.
    + rewrite (lead_EE_EF _ H1). simpl. rewrite H2. simpl. by rewrite H3, IH.
  - intros b1 b2 b3 b4 rest [[H12 H3]%andb_true_iff H4]%andb_true_iff IH.
    simpl. unfold feed. simpl.
    repeat apply orb_true_iff in H12 as [H12|H12];
      apply andb_true_iff in H12 as [H1 H2].
    + rewrite (lead_F0 _ H1). simpl. rewrite H2. simpl. rewrite H3. simpl.
      by rewrite H4, IH.
    + rewrite (lead_F1_F3 _ H1). simpl. rewrite H2. simpl. rewrite H3. simpl.
      by rewrite H4, IH.
    + rewrite (lead_F4 _ H1). simpl. rewrite H2. simpl. rewrite H3. simpl.
      by rewrite H4, IH.
Qed.

(** *** Encryption round trip *)

Lemma getEncryptionKey_valid p keyHex :
  INTEGRATION_ENCRYPTION_KEY p = Some keyHex →
  String.length keyHex = 64%nat →
  is_hex keyHex = true →
  getEncryptionKey p = (Returned (hex_decode keyHex), p)
  ∧ length (hex_decode keyHex) = 32%nat.
Proof.
  intros Henv Hlen Hhex. split.
  - unfold getEncryptionKey, bind, getenv_key. rewrite Henv.
    destruct (String.eqb_spec keyHex "") as [->|_]; [done|].
    by rewrite Hlen.
  - by apply hex_decode_length.
Qed.

Lemma envelope_parts iv authTag encrypted :
  str_split ":" (hex_encode iv +:+ ":" +:+ hex_encode authTag +:+ ":"
                   +:+ hex_encode encrypted)
  = [hex_encode iv; hex_encode authTag; hex_encode encrypted].
Proof.
  assert (∀ x, ":" +:+ x = String ":" x) as Hcolon by done.
  rewrite !Hcolon.
  rewrite str_split_app by apply hex_encode_lacks_colon.
  rewrite str_split_app by apply hex_encode_lacks_colon.
  by rewrite str_split_lacks by apply hex_encode_lacks_colon.
Qed.

(** C8, as the code has it. With a 64-character hex string as
    [INTEGRATION_ENCRYPTION_KEY], decrypting what [encrypt] returns for a
    plaintext without a lone surrogate gives the plaintext back, and the
    envelope has the three parts [iv:authTag:ciphertext], each in hex. The
    AES-256-GCM primitive is a parameter that opens what it sealed under
    the same key, iv and tag. *)
Theorem decrypt_encrypt_round_trip
    (gcm_seal : list byte → list byte → list byte → list byte * list byte)
    (gcm_open :
       list byte → list byte → list byte → list byte → option (list byte))
    (p : Proc) (keyHex plaintext : string) :
  (∀ key iv data,
     length key = 32%nat →
     gcm_open key iv (gcm_seal key iv data).2 (gcm_seal key iv data).1
     = Some data) →
  INTEGRATION_ENCRYPTION_KEY p = Some keyHex →
  String.length keyHex = 64%nat →
  is_hex keyHex = true →
  well_formed plaintext = true →
  ∃ envelope p',
    encrypt gcm_seal plaintext p = (Returned envelope, p')
    ∧ decrypt gcm_open envelope p' = (Returned plaintext, p')
    ∧ ∃ iv authTag encrypted,
        length iv = IV_LENGTH
        ∧ envelope = hex_encode iv +:+ ":" +:+ hex_encode authTag +:+ ":"
                       +:+ hex_encode encrypted
        ∧ str_split ":" envelope
          = [hex_encode iv; hex_encode authTag; hex_encode encrypted].
Proof.
  intros Hgcm Henv Hlen Hhex Hwf.
  destruct (getEncryptionKey_valid p keyHex Henv Hlen Hhex) as [Hkey Hkeylen].
  unfold well_formed in Hwf.
  pose proof (utf8_write_well_formed _ Hwf) as Hwrite.
  pose proof (utf8_decode_well_formed _ Hwf) as Hdecode.
  remember (map (entropy p) (seq (drawn p) IV_LENGTH)) as iv eqn:Hiv.
  remember {| INTEGRATION_ENCRYPTION_KEY := INTEGRATION_ENCRYPTION_KEY p;
              entropy := entropy p; drawn := (drawn p + IV_LENGTH)%nat;
                integrations := integrations p;
                query_fates := query_fates p |} as p' eqn:Hp'.
  assert (INTEGRATION_ENCRYPTION_KEY p' = Some keyHex) as Henv'
    by (by rewrite Hp').
  destruct (gcm_seal (hex_decode keyHex) iv (list_byte_of_string plaintext))
    as [encrypted authTag] eqn:Hseal.
  exists (hex_encode iv +:+ ":" +:+ hex_encode authTag +:+ ":"
            +:+ hex_encode encrypted), p'.
  split; [|split].
  - unfold encrypt, bind at 1. rewrite Hkey.
    unfold bind, randomBytes, check_key. rewrite <- Hiv, <- Hp'.
    rewrite Hkeylen. simpl. by rewrite Hwrite, Hseal.
  - destruct (getEncryptionKey_valid p' keyHex Henv' Hlen Hhex) as [Hkey' _].
    unfold decrypt, bind at 1. rewrite Hkey', envelope_parts.
    unfold bind, check_key, check_hex. rewrite Hkeylen, hex_encode_even.
    simpl. rewrite !hex_decode_encode.
    specialize (Hgcm (hex_decode keyHex) iv (list_byte_of_string plaintext)
                     Hkeylen).
    rewrite Hseal in Hgcm. simpl in Hgcm. rewrite Hgcm, Hdecode.
    by rewrite string_of_list_byte_of_string.
  - exists iv, authTag, encrypted. split; [|split].
    + by rewrite Hiv, length_map, length_seq.
    + done.
    + apply envelope_parts.
Qed.

Lemma decrypt_encrypt_round_trip_witness :
  ∃ envelope p',
    encrypt sample_seal "api-key" sample_proc = (Returned envelope, p')
    ∧ decrypt sample_open envelope p' = (Returned "api-key", p')
    ∧ ∃ iv authTag encrypted,
        length iv = IV_LENGTH
        ∧ envelope = hex_encode iv +:+ ":" +:+ hex_encode authTag +:+ ":"
                       +:+ hex_encode encrypted
        ∧ str_split ":" envelope
          = [hex_encode iv; hex_encode authTag; hex_encode encrypted].
Proof.
  apply (decrypt_encrypt_round_trip sample_seal sample_open sample_proc
           sample_key "api-key").
  - intros key iv data _. simpl. unfold sample_open. by rewrite rev_involutive.
  - reflexivity.
  - reflexivity.
  - reflexivity.
  - reflexivity.
Defined.

(** C8 as stated fails for a plaintext that holds a surrogate without its
    pair: [encrypt] writes the string as UTF-8, which has U+FFFD in the
    place of such a surrogate, so what [decrypt] gives back is another
    string. *)
Lemma lone_surrogate_is_not_read_back :
  INTEGRATION_ENCRYPTION_KEY sample_proc = Some sample_key
  ∧ String.length sample_key = 64%nat
  ∧ is_hex sample_key = true
  ∧ (∀ key iv data,
       sample_open key iv (sample_seal key iv data).2
                   (sample_seal key iv data).1 = Some data)
  ∧ ∃ envelope p',
      encrypt sample_seal lone_surrogate sample_proc = (Returned envelope, p')
      ∧ decrypt sample_open envelope p'
        = (Returned replacement_character, p')
      ∧ replacement_character ≠ lone_surrogate.
Proof.
  do 3 (split; [reflexivity|]).
  split.
  { intros key iv data. simpl. unfold sample_open. by rewrite rev_involutive. }
  eexists _, _. split; [vm_compute; reflexivity|].
  split; [vm_compute; reflexivity|]. by vm_compute.
Qed.

(** *** Reading integrations *)

Lemma getEncryptionKey_state p :
  (getEncryptionKey p).2 = p.
Proof.
  unfold getEncryptionKey, bind, getenv_key.
  destruct (INTEGRATION_ENCRYPTION_KEY p) as [k|]; [|done].
  destruct (String.eqb k ""); [done|].
  by destruct (negb _).
Qed.

Lemma decrypt_state gcm_open ciphertext p :
  (decrypt gcm_open ciphertext p).2 = p.
Proof.
  unfold decrypt, bind at 1.
  pose proof (getEncryptionKey_state p) as Hst.
  destruct (getEncryptionKey p) as [[key|e] p0]; simpl in Hst; subst p0;
    [|done].
  destruct (str_split ":" ciphertext) as [|a [|b [|c [|d l]]]]; try done.
  unfold bind, check_key, check_hex.
  destruct (Nat.eqb _ _); [|done]. simpl.
  destruct (Nat.odd _); [done|]. simpl.
  by destruct (gcm_open _ _ _ _).
Qed.

(** [decryptConfig] never throws and leaves the process as it is; a blob
    that cannot be read gives the empty object. *)
Lemma decryptConfig_total gcm_open JSON_parse encryptedConfig p :
  ∃ config,
    decryptConfig gcm_open JSON_parse encryptedConfig p = (Returned config, p)
    ∧ (match (decrypt gcm_open encryptedConfig p).1 with
       | Thrown _ => True
       | Returned decrypted => ∃ e, JSON_parse decrypted = Thrown e
       end → config = VObj []).
Proof.
  unfold decryptConfig, try_catch, bind, lift_outcome, ret.
  pose proof (decrypt_state gcm_open encryptedConfig p) as Hst.
  destruct (decrypt gcm_open encryptedConfig p) as [[decrypted|e] p0];
    simpl in *; subst p0.
  - destruct (JSON_parse decrypted) as [v|e] eqn:Hparse.
    + exists v. split; [done|]. by intros [e [=]].
    + by exists (VObj []).
  - by exists (VObj []).
Qed.

Lemma decrypted_row_total gcm_open JSON_parse row p :
  ∃ config,
    decrypted_row gcm_open JSON_parse row p
      = (Returned (integration_of row config), p)
    ∧ (config_unreadable gcm_open JSON_parse p row → config = VObj []).
Proof.
  unfold decrypted_row, bind at 1.
  destruct (decryptConfig_total gcm_open JSON_parse (row_config row) p)
    as (config & -> & Hempty).
  by exists config.
Qed.

Lemma decrypt_env gcm_open ciphertext p q :
  INTEGRATION_ENCRYPTION_KEY p = INTEGRATION_ENCRYPTION_KEY q →
  (decrypt gcm_open ciphertext p).1 = (decrypt gcm_open ciphertext q).1.
Proof.
  intros Henv.
  unfold decrypt, bind at 1 3, getEncryptionKey, bind, getenv_key.
  rewrite Henv.
  destruct (INTEGRATION_ENCRYPTION_KEY q) as [k|]; [|done].
  destruct (String.eqb k ""); [done|].
  destruct (negb _); [done|]. simpl.
  destruct (str_split ":" ciphertext) as [|a [|b [|c [|d l]]]]; try done.
  unfold check_key, check_hex, ret, throw.
  destruct (Nat.eqb _ _); [|done].
  destruct (Nat.odd _); [done|].
  by destruct (gcm_open _ _ _ _).
Qed.

Lemma config_unreadable_env gcm_open JSON_parse p q row :
  INTEGRATION_ENCRYPTION_KEY p = INTEGRATION_ENCRYPTION_KEY q →
  config_unreadable gcm_open JSON_parse p row →
  config_unreadable gcm_open JSON_parse q row.
Proof.
  unfold config_unreadable. intros Henv.
  by rewrite (decrypt_env gcm_open (row_config row) p q Henv).
Qed.

Lemma read_config_env gcm_open JSON_parse p q row :
  INTEGRATION_ENCRYPTION_KEY p = INTEGRATION_ENCRYPTION_KEY q →
  read_config gcm_open JSON_parse p row = read_config gcm_open JSON_parse q row.
Proof.
  intros Henv. unfold read_config, decryptConfig, try_catch, bind.
  pose proof (decrypt_env gcm_open (row_config row) p q Henv) as Hd.
  destruct (decrypt gcm_open (row_config row) p) as [[d|e] p0],
           (decrypt gcm_open (row_config row) q) as [[d'|e'] q0];
    simpl in Hd; try done.
  injection Hd as <-. unfold lift_outcome, ret.
  by destruct (JSON_parse d).
Qed.


Lemma decrypted_row_read gcm_open JSON_parse row p :
  decrypted_row gcm_open JSON_parse row p
  = (Returned (integration_of row (read_config gcm_open JSON_parse p row)), p).
Proof.
  unfold decrypted_row, bind at 1, read_config.
  destruct (decryptConfig_total gcm_open JSON_parse (row_config row) p)
    as (config & -> & _).
  done.
Qed.

Lemma map_rows_read gcm_open JSON_parse rows p :
  map_rows gcm_open JSON_parse rows p
  = (Returned
       (map (λ row, integration_of row (read_config gcm_open JSON_parse p row))
            rows), p).
Proof.
  induction rows as [|row rows IH]; [done|].
  simpl. unfold bind at 1. rewrite decrypted_row_read.
  unfold bind at 1. by rewrite IH.
Qed.

Lemma select_integrations_env filters p :
  INTEGRATION_ENCRYPTION_KEY (select_integrations filters p).2
  = INTEGRATION_ENCRYPTION_KEY p.
Proof.
  unfold select_integrations.
  by destruct (query_fates p) as [|[msg|] rest].
Qed.

Lemma select_integrations_succeeds filters p :
  query_succeeds p →
  (select_integrations filters p).1
  = Returned (Some (List.filter filters (integrations p)), None).
Proof.
  intros [rest Hq]. unfold select_integrations. by rewrite Hq.
Qed.

Lemma select_integrations_returns filters p :
  ∃ res, (select_integrations filters p).1 = Returned res.
Proof.
  unfold select_integrations.
  destruct (query_fates p) as [|[msg|] rest]; simpl; eauto.
Qed.

Lemma read_one_row gcm_open JSON_parse filters p :
  (res <- select_integrations filters ;;
   match single res with
   | (Some data, None) =>
       d <- decrypted_row gcm_open JSON_parse data ;; ret (Some d)
   | _ => ret None
   end) p
  = (Returned
       match single
               match (select_integrations filters p).1 with
               | Returned res => res
               | Thrown _ => (None, None)
               end
       with
       | (Some data, None) =>
           Some (integration_of data (read_config gcm_open JSON_parse p data))
       | _ => None
       end,
     (select_integrations filters p).2).
Proof.
  unfold bind at 1.
  pose proof (select_integrations_env filters p) as Henv.
  destruct (select_integrations_returns filters p) as [res Hres].
  destruct (select_integrations filters p) as [o p1]. simpl in *. subst o.
  destruct (single res) as [[data|] [e|]]; try done.
  unfold bind. rewrite decrypted_row_read. unfold ret.
  by rewrite (read_config_env gcm_open JSON_parse p1 p data Henv).
Qed.



(** *** Ownership of referenced integrations *)

Lemma unique_elem seen ids x :
  x ∈ unique seen ids ↔ x ∈ ids ∧ x ∉ seen.
Proof.
  revert seen. induction ids as [|i ids IH]; intros seen; simpl.
  - split; [by intros ?%elem_of_nil | by intros [?%elem_of_nil _]].
  - destruct (bool_decide_reflect (i ∈ seen)) as [Hin|Hnotin].
    + rewrite IH, elem_of_cons. split; [tauto|].
      intros [[->|?] ?]; tauto.
    + rewrite !elem_of_cons, IH, elem_of_cons.
      destruct (decide (x = i)) as [->|Hne]; tauto.
Qed.

Lemma extractIntegrationIds_elem nodes x :
  x ∈ extractIntegrationIds nodes
  ↔ ∃ node, node ∈ nodes ∧ node_integrationId node = Some x.
Proof.
  unfold extractIntegrationIds. rewrite unique_elem, list_elem_of_omap.
  split; [tauto|]. intros H. split; [done|]. apply not_elem_of_nil.
Qed.

(** The rows that belong to another user among those a workflow refers to. *)
Lemma foreign_rows_elem (ids : list string) userId rows id :
  id ∈ map row_id
         (List.filter (λ i, negb (String.eqb (row_user_id i) userId))
            (List.filter (λ row, bool_decide (row_id row ∈ ids)) rows))
  ↔ ∃ row, row ∈ rows ∧ row_id row = id ∧ id ∈ ids
           ∧ row_user_id row ≠ userId.
Proof.
  rewrite list_elem_of_In, in_map_iff. split.
  - intros (row & <- & Hin).
    apply filter_In in Hin as [Hin Hforeign].
    apply filter_In in Hin as [Hin Hids].
    exists row. apply list_elem_of_In in Hin.
    apply bool_decide_eq_true in Hids.
    apply negb_true_iff, String.eqb_neq in Hforeign. done.
  - intros (row & Hin & <- & Hids & Hforeign).
    exists row. split; [done|].
    apply filter_In. split.
    + apply filter_In. split; [by apply list_elem_of_In|].
      by apply bool_decide_eq_true.
    + by apply negb_true_iff, String.eqb_neq.
Qed.

Lemma node_integrationId_names node id :
  node_integrationId node = Some id ↔ names_integration node id.
Proof.
  unfold node_integrationId, names_integration. split.
  - intros H.
    destruct (node_data node) as [d|]; [|done].
    destruct (node_config d) as [c|] eqn:Hc; [|done].
    destruct (integrationId c) as [[| |b|n|s|items|props]|] eqn:Hi;
      try done.
    destruct (String.eqb_spec s "") as [Heq|Hne]; [done|].
    injection H as <-. by exists d, c.
  - intros (d & c & -> & -> & -> & Hne).
    by apply String.eqb_neq in Hne as ->.
Qed.

(** The ids that [extractIntegrationIds] returns are those that a node
    names. *)
Lemma extractIntegrationIds_names nodes id :
  id ∈ extractIntegrationIds nodes
  ↔ ∃ node, node ∈ nodes ∧ names_integration node id.
Proof.
  rewrite extractIntegrationIds_elem.
  by setoid_rewrite node_integrationId_names.
Qed.

(** What [validateWorkflowIntegrations] answers, by the ids that
    [extractIntegrationIds] returns. *)
Lemma validateWorkflowIntegrations_run nodes userId p :
  ∃ res p',
    validateWorkflowIntegrations nodes userId p = (Returned res, p')
    ∧ integrations p' = integrations p
    ∧ INTEGRATION_ENCRYPTION_KEY p' = INTEGRATION_ENCRYPTION_KEY p
    ∧ (valid res = false
       ↔ (∃ row, row ∈ integrations p
                 ∧ row_id row ∈ extractIntegrationIds nodes
                 ∧ row_user_id row ≠ userId)
         ∨ (extractIntegrationIds nodes ≠ [] ∧ ¬ query_succeeds p))
    ∧ (query_succeeds p → valid res = false →
       ∃ ids, invalidIds res = Some ids
              ∧ ∀ id, id ∈ ids
                      ↔ ∃ row, row ∈ integrations p ∧ row_id row = id
                               ∧ id ∈ extractIntegrationIds nodes
                               ∧ row_user_id row ≠ userId)
    ∧ (valid res = true → invalidIds res = None).
Proof.
  unfold validateWorkflowIntegrations.
  destruct (extractIntegrationIds nodes) as [|i0 ids'] eqn:Heq.
  { simpl. eexists _, _. split; [reflexivity|]. simpl.
    do 2 (split; [done|]). split; [|done].
    split; [done|].
    intros [(row & _ & Hin & _) | [Hne _]]; [|done].
    by apply elem_of_nil in Hin. }
  rewrite <- Heq in *.
  assert (extractIntegrationIds nodes ≠ []) as Hne by (by rewrite Heq).
  clear Heq. set (ids := extractIntegrationIds nodes) in *.
  replace (Nat.eqb (length ids) 0) with false by (by destruct ids).
  unfold bind, select_integrations.
  destruct (query_fates p) as [|[msg|] rest] eqn:Hq; simpl.
  - assert (¬ query_succeeds p) as Hfail
      by (intros [r Hr]; rewrite Hq in Hr; discriminate).
    eexists _, _. split; [reflexivity|]. simpl.
    do 2 (split; [done|]). split; [|done]. split; [by right|done].
  - assert (¬ query_succeeds p) as Hfail
      by (intros [r Hr]; rewrite Hq in Hr; discriminate).
    eexists _, _. split; [reflexivity|]. simpl.
    do 2 (split; [done|]). split; [|done]. split; [by right|done].
  - assert (query_succeeds p) as Hok by (by exists rest).
    pose proof (foreign_rows_elem ids userId (integrations p)) as Hforeign.
    destruct (map row_id _) as [|bad invalid] eqn:Hinvalid; simpl.
    + eexists _, _. split; [reflexivity|]. simpl.
      do 2 (split; [done|]). split; [|done].
      split; [done|].
      intros [(row & Hin & Hrow & Huser) | [_ Hfail]]; [|done].
      assert (row_id row ∈ ([] : list string)) as Habs
        by (apply Hforeign; eauto).
      by apply elem_of_nil in Habs.
    + eexists _, _. split; [reflexivity|]. simpl.
      do 2 (split; [done|]). split; [|split; [|done]].
      * split; [|done]. intros _. left.
        destruct (proj1 (Hforeign bad)) as (row & Hin & <- & Hrow & Huser);
          [by left|]. eauto.
      * intros _ _. eexists. split; [reflexivity|]. exact Hforeign.
Qed.


(** Alice's workflow refers to her own integration, to one that no longer
    exists and to one of Bob's: only the last makes it invalid. *)
Example validate_sample_nodes :
  extractIntegrationIds sample_nodes = ["int-1"; "int-9"; "int-2"]
  ∧ (validateWorkflowIntegrations sample_nodes "alice" sample_proc).1
    = Returned {| valid := false; invalidIds := Some ["int-2"] |}
  ∧ (validateWorkflowIntegrations (take 5 sample_nodes) "alice"
       sample_proc).1
    = Returned {| valid := true; invalidIds := None |}.
Proof. vm_compute. done. Qed.

End IntegrationsFacts.

(** ** Interpolation *)

Module InterpolationFacts.
Import Interpolation.

Lemma find_close_body body after :
  lacks "}" body = true →
  find_close (body +:+ String "}" (String "}" after)) = Some (body, after).
Proof.
  induction body as [|c body IH]; simpl; [done|].
  intros Hc. apply andb_true_iff in Hc as [Hc Hbody].
  apply negb_true_iff in Hc. rewrite Hc. simpl.
  rewrite (IH Hbody).
  by destruct (body +:+ String "}" (String "}" after)) eqn:Hrest;
    [destruct body|].
Qed.

Lemma parse_literals fuel s :
  lacks "{" s = true → (String.length s ≤ fuel)%nat →
  parse_template fuel s = literals s.
Proof.
  revert s. induction fuel as [|fuel IH]; intros s Hs Hlen.
  - destruct s; [done|simpl in Hlen; lia].
  - destruct s as [|c rest]; [done|]. simpl in *.
    apply andb_true_iff in Hs as [Hc Hrest]. apply negb_true_iff in Hc.
    rewrite Hc, IH by (done || lia). simpl. by destruct rest.
Qed.

(** The text of a reference between a prefix and a suffix. *)
Lemma parse_reference fuel prefix body suffix :
  lacks "{" prefix = true → lacks "}" body = true →
  lacks "{" suffix = true →
  (String.length prefix + String.length body + String.length suffix + 4
   ≤ fuel)%nat →
  parse_template fuel
    (prefix +:+ String "{" (String "{"
                  (body +:+ String "}" (String "}" suffix))))
  = literals prefix ++ Ref body :: literals suffix.
Proof.
  revert fuel. induction prefix as [|c prefix IH]; intros fuel Hp Hb Hs Hlen.
  - destruct fuel as [|fuel]; [simpl in Hlen; lia|].
    simpl. rewrite find_close_body by done.
    rewrite parse_literals; [done|done|]. simpl in Hlen. lia.
  - destruct fuel as [|fuel]; [simpl in Hlen; lia|].
    simpl in *. apply andb_true_iff in Hp as [Hc Hp].
    apply negb_true_iff in Hc. rewrite Hc. simpl.
    rewrite IH by (done || lia).
    by destruct prefix.
Qed.

Lemma render_literals outputs s :
  concat_strings (map (render outputs) (literals s)) = s.
Proof. induction s as [|c s IH]; simpl; [done|]. by rewrite IH. Qed.

Lemma concat_strings_app l1 l2 :
  concat_strings (l1 ++ l2) = concat_strings l1 +:+ concat_strings l2.
Proof.
  induction l1 as [|s l1 IH]; simpl; [done|].
  by rewrite IH, append_assoc.
Qed.


Lemma str_split_dotted name path :
  lacks "." name = true →
  Forall (λ seg, lacks "." seg = true) path →
  str_split "." (reference name path) = name :: path.
Proof.
  unfold reference. intros Hname Hpath. revert name Hname.
  induction Hpath as [|seg path Hseg Hpath IH]; intros name Hname.
  - simpl. rewrite append_nil_r.
    induction name as [|c name IHn]; [done|]. simpl in *.
    apply andb_true_iff in Hname as [Hc Hname].
    apply negb_true_iff in Hc. by rewrite Hc, (IHn Hname).
  - simpl dotted. rewrite (append_cons "." "").
    change ("" +:+ ?x) with x.
    specialize (IH seg Hseg).
    induction name as [|c name IHn].
    + change ("" +:+ ?x) with x. simpl. by rewrite IH.
    + rewrite append_cons. simpl in *.
      apply andb_true_iff in Hname as [Hc Hname].
      apply negb_true_iff in Hc. by rewrite Hc, (IHn Hname).
Qed.

Lemma resolve_reference (outputs : gmap string Value) name path :
  lacks "." name = true →
  Forall (λ seg, lacks "." seg = true) path →
  resolve outputs (reference name path)
  = match outputs !! name with
    | Some output => traverse path output
    | None => None
    end.
Proof.
  intros Hname Hpath. unfold resolve. by rewrite str_split_dotted.
Qed.

Lemma lacks_reference c name path :
  c ≠ "."%char →
  lacks c name = true →
  Forall (λ seg, lacks c seg = true) path →
  lacks c (reference name path) = true.
Proof.
  intros Hc Hname Hpath. unfold reference. rewrite lacks_append, Hname.
  induction Hpath as [|seg path Hseg Hpath IH]; [done|].
  simpl dotted. rewrite (append_cons "." "").
  change ("" +:+ ?x) with x.
  rewrite lacks_cons, lacks_append, Hseg.
  rewrite andb_true_l in IH. rewrite IH.
  destruct (Ascii.eqb_spec "." c); [by subst|done].
Qed.

Lemma segments_reference prefix body suffix :
  lacks "{" prefix = true → lacks "}" body = true →
  lacks "{" suffix = true →
  segments (prefix +:+ "{{" +:+ body +:+ "}}" +:+ suffix)
  = literals prefix ++ Ref body :: literals suffix.
Proof.
  intros Hp Hb Hs. unfold segments.
  change (prefix +:+ "{{" +:+ body +:+ "}}" +:+ suffix)
    with (prefix +:+ String "{" (String "{"
                       (body +:+ String "}" (String "}" suffix)))).
  apply parse_reference; try done.
  rewrite append_length. simpl. rewrite append_length. simpl. lia.
Qed.

(** C2. For every map from node display names to outputs: a template that
    is one reference and nothing else interpolates to the value of the
    referenced field itself, with its type, and a template with text around
    the reference interpolates to the string made of that text and the
    stringified value. *)
Theorem interpolate_single_reference_is_typed
    (outputs : gmap string Value) (name : string) (path : list string)
    (output v : Value) :
  lacks "." name = true →
  lacks "}" name = true →
  Forall (λ seg, lacks "." seg = true ∧ lacks "}" seg = true) path →
  outputs !! name = Some output →
  traverse path output = Some v →
  interpolate outputs ("{{" +:+ reference name path +:+ "}}") = v
  ∧ ∀ prefix suffix,
      lacks "{" prefix = true → lacks "{" suffix = true →
      prefix ≠ "" ∨ suffix ≠ "" →
      interpolate outputs
        (prefix +:+ "{{" +:+ reference name path +:+ "}}" +:+ suffix)
      = VStr (prefix +:+ stringify v +:+ suffix).
Proof.
  intros Hdot Hbrace Hpath Hout Hv.
  assert (Forall (λ seg, lacks "." seg = true) path) as Hpath_dot
    by (eapply Forall_impl; [exact Hpath|]; by intros seg [? ?]).
  assert (Forall (λ seg, lacks "}" seg = true) path) as Hpath_brace
    by (eapply Forall_impl; [exact Hpath|]; by intros seg [? ?]).
  assert (lacks "}" (reference name path) = true) as Hbody
    by (by apply lacks_reference).
  assert (resolve outputs (reference name path) = Some v) as Hres
    by (by rewrite resolve_reference, Hout).
  split.
  - unfold interpolate.
    change ("{{" +:+ reference name path +:+ "}}")
      with ("" +:+ "{{" +:+ reference name path +:+ "}}" +:+ "").
    rewrite segments_reference by done. simpl. by rewrite Hres.
  - intros prefix suffix Hp Hs Hne. unfold interpolate.
    rewrite segments_reference by done.
    assert (concat_strings
              (map (render outputs)
                 (literals prefix ++ Ref (reference name path)
                    :: literals suffix))
            = prefix +:+ stringify v +:+ suffix) as Htext.
    { rewrite map_app, concat_strings_app, render_literals. simpl.
      by rewrite Hres, render_literals. }
    destruct prefix as [|c prefix].
    + destruct suffix as [|c suffix]; [by destruct Hne|].
      by rewrite <- Htext.
    + by rewrite <- Htext.
Qed.

Lemma interpolate_single_reference_witness :
  interpolate {[ "A" := VObj [("value", VNum 42)] ]} "{{A.value}}" = VNum 42
  ∧ interpolate {[ "A" := VObj [("value", VNum 42)] ]} "x={{A.value}}"
    = VStr "x=42".
Proof.
  destruct (interpolate_single_reference_is_typed
              {[ "A" := VObj [("value", VNum 42)] ]} "A" ["value"]
              (VObj [("value", VNum 42)]) (VNum 42)) as [Htyped Htext].
  - reflexivity.
  - reflexivity.
  - repeat constructor.
  - reflexivity.
  - reflexivity.
  - split; [exact Htyped|].
    apply (Htext "x=" ""); [reflexivity|reflexivity|by left].
Defined.

End InterpolationFacts.

(** ** Dependency ordering and the executor *)

Module ExecutorFacts.
Import Executor.

(** *** Cycles *)

Lemma tc_last {A} (R : relation A) x z :
  tc R x z → ∃ y, rtc R x y ∧ R y z.
Proof.
  induction 1 as [x z HR | x y z HR _ (w & Hyw & Hwz)].
  - exists x. split; [apply rtc_refl|done].
  - exists w. split; [by eapply rtc_l|done].
Qed.

(** A node on a cycle has a predecessor on a cycle. *)
Lemma on_cycle_pred g x :
  on_cycle g x → ∃ p, edge_rel g p x ∧ on_cycle g p.
Proof.
  intros Hc. destruct (tc_last _ _ _ Hc) as (p & Hxp & Hpx).
  exists p. split; [done|].
  eapply tc_rtc_r; [by apply tc_once|done].
Qed.

Lemma in_degree_zero es emitted n e :
  in_degree es emitted n = 0%nat →
  e ∈ es → target e = node_id n → source e ∈ emitted.
Proof.
  unfold in_degree. intros Hzero Hin Htarget.
  destruct (decide (source e ∈ emitted)) as [|Hnot]; [done|].
  apply length_zero_iff_nil in Hzero.
  assert (In e (List.filter
                  (λ e, bool_decide (target e = node_id n)
                        && negb (bool_decide (source e ∈ emitted))) es))
    as Habs.
  { apply filter_In. split; [by apply list_elem_of_In|].
    apply andb_true_iff. split; [by apply bool_decide_eq_true|].
    by apply negb_true_iff, bool_decide_eq_false. }
  rewrite Hzero in Habs. by destruct Habs.
Qed.

Lemma pick_ready_spec es emitted remaining n rest :
  pick_ready es emitted remaining = Some (n, rest) →
  in_degree es emitted n = 0%nat ∧ remaining ≡ₚ n :: rest.
Proof.
  revert n rest. induction remaining as [|m remaining IH]; intros n rest;
    simpl; [done|].
  destruct (Nat.eqb_spec (in_degree es emitted m) 0) as [Hzero|_].
  - by intros [= <- <-].
  - destruct (pick_ready es emitted remaining) as [[k rest']|]; [|done].
    intros [= <- <-]. destruct (IH k rest' eq_refl) as [Hk Hperm].
    split; [done|]. rewrite Hperm. apply Permutation_swap.
Qed.

Lemma kahn_step fuel es emitted m remaining :
  kahn (S fuel) es emitted (m :: remaining)
  = match pick_ready es emitted (m :: remaining) with
    | Some (n, rest) =>
        match kahn fuel es (node_id n :: emitted) rest with
        | Some order => Some (n :: order)
        | None => None
        end
    | None => None
    end.
Proof. reflexivity. Qed.

Lemma kahn_perm fuel es emitted remaining order :
  kahn fuel es emitted remaining = Some order → order ≡ₚ remaining.
Proof.
  revert emitted remaining order.
  induction fuel as [|fuel IH]; intros emitted remaining order.
  - destruct remaining; simpl; [|done]. by intros [= <-].
  - destruct remaining as [|m remaining']; [by intros [= <-]|].
    rewrite kahn_step.
    destruct (pick_ready es emitted (m :: remaining')) as [[n rest]|] eqn:Hpick;
      [|done].
    destruct (kahn fuel es (node_id n :: emitted) rest) as [order'|] eqn:Hk;
      [|done].
    intros [= <-]. apply pick_ready_spec in Hpick as [_ Hperm].
    rewrite Hperm. constructor. by eapply IH.
Qed.

(** While no node of a cycle has been emitted, none becomes ready: the
    elimination stops before the remaining nodes are used up. *)
Lemma kahn_cycle g fuel emitted remaining x :
  on_cycle g x →
  x ∈ node_ids remaining →
  (∀ y, on_cycle g y → y ∉ emitted) →
  kahn fuel (edges g) emitted remaining = None.
Proof.
  revert emitted remaining.
  induction fuel as [|fuel IH]; intros emitted remaining Hx Hin Hemitted.
  - destruct remaining; [by apply elem_of_nil in Hin|done].
  - destruct remaining as [|m remaining']; [by apply elem_of_nil in Hin|].
    rewrite kahn_step.
    destruct (pick_ready (edges g) emitted (m :: remaining'))
      as [[n rest]|] eqn:Hpick; [|done].
    apply pick_ready_spec in Hpick as [Hzero Hperm].
    assert (¬ on_cycle g (node_id n)) as Hn.
    { intros Hcn. destruct (on_cycle_pred g _ Hcn) as (p & (e & He & <- & Ht) & Hp).
      apply (Hemitted _ Hp). by eapply in_degree_zero. }
    rewrite IH; [done|done| |].
    + unfold node_ids in *. rewrite Hperm in Hin. simpl in Hin.
      apply elem_of_cons in Hin as [->|Hin]; [done|done].
    + intros y Hy. rewrite not_elem_of_cons. split; [|by apply Hemitted].
      by intros ->.
Qed.

Lemma edges_valid_target g e :
  edges_valid g = true → e ∈ edges g →
  source e ∈ node_ids (nodes g) ∧ target e ∈ node_ids (nodes g).
Proof.
  unfold edges_valid. intros Hvalid Hin.
  rewrite forallb_forall in Hvalid.
  specialize (Hvalid e (proj1 (list_elem_of_In _ _) Hin)).
  apply andb_true_iff in Hvalid as [Hs Ht].
  by apply bool_decide_eq_true in Hs, Ht.
Qed.

Lemma dependency_order_cycle g x :
  on_cycle g x → ∃ err, dependency_order g = inl err.
Proof.
  intros Hx. unfold dependency_order.
  destruct (edges_valid g) eqn:Hvalid; [|by eauto].
  rewrite (kahn_cycle g _ [] (nodes g) x); [by eauto|done| |].
  - destruct (on_cycle_pred g x Hx) as (p & (e & He & _ & <-) & _).
    by apply (edges_valid_target g e).
  - intros y _. apply not_elem_of_nil.
Qed.

(** C3. A graph with a cycle that a trigger node reaches fails dependency
    ordering with a structural error, and the execution ends in error
    before any node is executed and before any node log is created. *)
Theorem cycle_fails_before_any_node
    (handler : WorkflowNode → list (string * Value) → Outcome Value)
    (redact : Value → Value) (halt_all_downstream : bool)
    (g : Graph) (triggerInput : Value) :
  cycle_reachable_from_trigger g →
  (∃ err, dependency_order g = inl err
          ∧ exec_error (execute handler redact halt_all_downstream g
                          triggerInput)
            = Some (structural_message err))
  ∧ exec_status (execute handler redact halt_all_downstream g triggerInput)
    = ExecError
  ∧ exec_invoked (execute handler redact halt_all_downstream g triggerInput)
    = []
  ∧ exec_logs (execute handler redact halt_all_downstream g triggerInput)
    = []
  ∧ exec_statuses (execute handler redact halt_all_downstream g triggerInput)
    = ∅.
Proof.
  intros (t & x & _ & _ & _ & Hx).
  destruct (dependency_order_cycle g x Hx) as [err Herr].
  unfold execute. rewrite Herr. simpl. eauto 10.
Qed.

(** *** Walking the nodes *)

Section Walk.

Variable handler : WorkflowNode → list (string * Value) → Outcome Value.
Variable redact : Value → Value.
Variable halt_all_downstream : bool.
Variable g : Graph.
Variable triggerInput : Value.

Local Abbreviation run_node :=
  (run_node handler redact halt_all_downstream g triggerInput).
Local Abbreviation run_nodes :=
  (run_nodes handler redact halt_all_downstream g triggerInput).

(** A node ends in one call of [finish]; a node that is not to run ends
    skipped, without its handler. *)
Lemma run_node_finish st n :
  ∃ status input output error ran,
    run_node st n = finish redact g st n status input output error ran
    ∧ (should_run halt_all_downstream g st n = false →
       status = Skipped ∧ ran = false).
Proof.
  unfold Executor.run_node.
  destruct (should_run halt_all_downstream g st n).
  - destruct (node_type n);
      [by eexists _, _, _, _, _| |];
      ( destruct (handler n _) as [result|e];
        [destruct (isErrorResult result)|];
        by eexists _, _, _, _, _ ).
  - by eexists _, _, _, _, _.
Qed.

(** A node ends in error exactly when it was to run, is not a trigger, and
    its handler returned a result with [success: false] or threw. *)
Lemma run_node_error_iff st n :
  statuses (run_node st n) !! node_id n = Some Error
  ↔ should_run halt_all_downstream g st n = true
    ∧ node_type n ≠ Trigger
    ∧ ((∃ result,
          handler n (Interpolation.resolve_config (outputs st) (node_config n))
          = Returned result
          ∧ isErrorResult result = true)
       ∨ (∃ e,
            handler n
              (Interpolation.resolve_config (outputs st) (node_config n))
            = Thrown e)).
Proof.
  unfold Executor.run_node.
  destruct (should_run halt_all_downstream g st n); simpl.
  - destruct (node_type n) eqn:Htype; simpl.
    + rewrite lookup_insert_eq. split; [done|]. by intros (_ & ? & _).
    + destruct (handler n _) as [result|e] eqn:Hh.
      * destruct (isErrorResult result) eqn:Herr; simpl;
          rewrite lookup_insert_eq.
        -- split; [|done]. intros _. split; [done|]. split; [done|].
           left. eauto.
        -- split; [done|]. intros (_ & _ & [(r & [= <-] & ?)|(e & [=])]).
           congruence.
      * simpl. rewrite lookup_insert_eq. split; [|done].
        intros _. split; [done|]. split; [done|]. right. eauto.
    + destruct (handler n _) as [result|e] eqn:Hh.
      * destruct (isErrorResult result) eqn:Herr; simpl;
          rewrite lookup_insert_eq.
        -- split; [|done]. intros _. split; [done|]. split; [done|].
           left. eauto.
        -- split; [done|]. intros (_ & _ & [(r & [= <-] & ?)|(e & [=])]).
           congruence.
      * simpl. rewrite lookup_insert_eq. split; [|done].
        intros _. split; [done|]. split; [done|]. right. eauto.
  - rewrite lookup_insert_eq. split; [done|]. by intros [? _].
Qed.

Lemma run_nodes_cons n order st :
  run_nodes (n :: order) st = run_nodes order (run_node st n).
Proof. reflexivity. Qed.

Lemma run_nodes_status_other order st x :
  x ∉ node_ids order →
  statuses (run_nodes order st) !! x = statuses st !! x.
Proof.
  revert st. induction order as [|n order IH]; intros st Hx; [done|].
  rewrite run_nodes_cons. apply not_elem_of_cons in Hx as [Hne Hx].
  rewrite IH by done.
  destruct (run_node_finish st n) as (s & i & o & e & ran & -> & _).
  simpl. by rewrite lookup_insert_ne.
Qed.

Lemma run_nodes_status_some order st x :
  x ∈ node_ids order →
  is_Some (statuses (run_nodes order st) !! x).
Proof.
  revert st. induction order as [|n order IH]; intros st Hx;
    [by apply elem_of_nil in Hx|].
  rewrite run_nodes_cons.
  destruct (decide (x ∈ node_ids order)) as [Hin|Hnotin]; [by apply IH|].
  apply elem_of_cons in Hx as [->|Hx]; [|done].
  rewrite run_nodes_status_other by done.
  destruct (run_node_finish st n) as (s & i & o & e & ran & -> & _).
  simpl. rewrite lookup_insert_eq. eauto.
Qed.

Lemma path_snoc x l y z :
  path g x l y → edge_rel g y z → path g x (l ++ [z]) z.
Proof.
  induction 1 as [x | x y l w Hxy Hpath IH]; intros Hedge; simpl.
  - apply path_edge with z; [done|]. apply path_here.
  - apply path_edge with y; [done|]. by apply IH.
Qed.

(** The predecessors of a node reached only through [failed] are [failed]
    itself or reached only through it. *)
Lemma only_through_pred failed x e :
  only_through g failed x → e ∈ edges g → target e = x →
  source e = failed ∨ only_through g failed (source e).
Proof.
  intros [Hne Hall] He Ht.
  destruct (decide (source e = failed)) as [|Hsrc]; [by left|].
  right. split; [done|]. intros r l Hroot Hpath.
  assert (failed ∈ l ++ [x]) as Hin.
  { apply (Hall r); [done|]. eapply path_snoc; [done|]. by exists e. }
  apply elem_of_app in Hin as [Hin|Hin]; [done|].
  apply list_elem_of_singleton in Hin. by destruct Hne.
Qed.

(** A node of the graph that is reached only through another node has an
    incoming edge. *)
Lemma only_through_incoming failed n :
  node_id n ∈ node_ids (nodes g) →
  only_through g failed (node_id n) →
  incoming g n ≠ [].
Proof.
  intros Hnode [Hne Hall] Hnil.
  assert (is_root g (node_id n)) as Hroot.
  { split; [done|]. intros e He Ht.
    assert (In e (incoming g n)) as Hin.
    { apply filter_In. split; [by apply list_elem_of_In|].
      by apply bool_decide_eq_true. }
    rewrite Hnil in Hin. by destruct Hin. }
  specialize (Hall _ _ Hroot (path_here g (node_id n))).
  apply list_elem_of_singleton in Hall. by destruct Hne.
Qed.

Lemma halts_behind_not_run failed st n :
  halts_behind g failed st →
  node_id n ∈ node_ids (nodes g) →
  only_through g failed (node_id n) →
  should_run halt_all_downstream g st n = false.
Proof.
  intros (Hst & _ & _ & Hfailed & _) Hnode Hn.
  unfold should_run. apply andb_false_iff. right.
  apply orb_false_iff. split.
  - pose proof (only_through_incoming failed n Hnode Hn) as Hne.
    by destruct (incoming g n).
  - apply not_true_is_false. intros Hex.
    apply existsb_exists in Hex as (e & He & Helig).
    apply filter_In in He as [He Ht].
    apply list_elem_of_In in He. apply bool_decide_eq_true in Ht.
    unfold edge_eligible in Helig.
    destruct (only_through_pred failed _ e Hn He Ht) as [Hsrc|Hsrc].
    + rewrite Hsrc in Helig.
      destruct (statuses st !! failed) as [[]|]; done.
    + destruct (Hst _ Hsrc) as [Hs|Hs]; by rewrite Hs in Helig.
Qed.

Lemma halts_behind_step failed st n :
  halts_behind g failed st →
  node_id n ∈ node_ids (nodes g) →
  statuses (run_node st n) !! failed ≠ Some Success →
  halts_behind g failed (run_node st n).
Proof.
  intros HJ Hnode Hfailed.
  pose proof (halts_behind_not_run failed st n HJ Hnode) as Hskip.
  destruct HJ as (Hst & Hinv & Hlogs & _ & Herr).
  destruct (run_node_finish st n) as (s & i & o & e & ran & Hrun & Hnot).
  rewrite Hrun in *. clear Hrun. unfold halts_behind. simpl in *.
  split; [|split; [|split; [|split]]].
  - intros x Hx. destruct (decide (node_id n = x)) as [<-|Hne].
    + rewrite lookup_insert_eq. right. f_equal.
      by destruct (Hnot (Hskip Hx)).
    + rewrite lookup_insert_ne by done. by apply Hst.
  - intros x Hx. destruct ran; [|by apply Hinv].
    rewrite not_elem_of_app. split; [by apply Hinv|].
    intros Hin%list_elem_of_singleton. subst x.
    by destruct (Hnot (Hskip Hx)).
  - intros log Hin Hlog. apply elem_of_app in Hin as [Hin|Hin].
    + by apply Hlogs.
    + apply list_elem_of_singleton in Hin. subst log. simpl in *.
      by destruct (Hnot (Hskip Hlog)).
  - done.
  - intros x. destruct (decide (node_id n = x)) as [<-|Hne].
    + rewrite lookup_insert_eq. intros [= ->].
      destruct (first_error st); eauto.
    + rewrite lookup_insert_ne by done. intros Hx.
      destruct (Herr x Hx) as [msg ->]. destruct s; eauto.
Qed.

Lemma halts_behind_run_nodes failed order st :
  NoDup (node_ids order) →
  (∀ n, n ∈ order → node_id n ∈ node_ids (nodes g)) →
  halts_behind g failed st →
  statuses (run_nodes order st) !! failed = Some Error →
  halts_behind g failed (run_nodes order st).
Proof.
  revert st. induction order as [|n order IH]; intros st Hnd Hnodes HJ Hfinal;
    [done|].
  rewrite run_nodes_cons in *.
  apply NoDup_cons in Hnd as [Hn Hnd].
  apply IH; [done| | |done].
  - intros m Hm. apply Hnodes. by right.
  - apply halts_behind_step; [done|apply Hnodes; by left|].
    destruct (decide (failed ∈ node_ids order)) as [Hin|Hnotin].
    + destruct (decide (node_id n = failed)) as [Heq|Hne].
      * by rewrite Heq in Hn.
      * destruct (run_node_finish st n) as (s & i & o & e & ran & -> & _).
        simpl. rewrite lookup_insert_ne by done. by destruct HJ as (_&_&_&?&_).
    + rewrite run_nodes_status_other in Hfinal by done. by rewrite Hfinal.
Qed.

Lemma run_nodes_logged order st x :
  x ∈ node_ids order →
  ∃ log, log ∈ node_logs (run_nodes order st) ∧ log_node_id log = x.
Proof.
  assert (∀ order st log,
            log ∈ node_logs st → log ∈ node_logs (run_nodes order st))
    as Hmono.
  { clear. intros order. induction order as [|n order IH]; intros st log Hin;
      [done|].
    rewrite run_nodes_cons. apply IH.
    destruct (run_node_finish st n) as (s & i & o & e & ran & -> & _).
    simpl. apply elem_of_app. by left. }
  revert st. induction order as [|n order IH]; intros st Hx;
    [by apply elem_of_nil in Hx|].
  rewrite run_nodes_cons. apply elem_of_cons in Hx as [->|Hx]; [|by apply IH].
  destruct (run_node_finish st n) as (s & i & o & e & ran & Hrun & _).
  eexists. split.
  - apply Hmono. rewrite Hrun. simpl. apply elem_of_app. right. by left.
  - done.
Qed.

Lemma path_end_node x l y :
  edges_valid g = true →
  x ∈ node_ids (nodes g) → path g x l y → y ∈ node_ids (nodes g).
Proof.
  intros Hvalid Hx Hpath. induction Hpath as [x | x y l z Hxy Hpath IH];
    [done|].
  apply IH. destruct Hxy as (e & He & _ & <-).
  by apply (edges_valid_target g e).
Qed.

Lemma dependency_order_inr order :
  dependency_order g = inr order →
  edges_valid g = true ∧ order ≡ₚ nodes g.
Proof.
  unfold dependency_order.
  destruct (edges_valid g); [|done].
  destruct (kahn _ _ _ _) as [order'|] eqn:Hk; [|done].
  intros [= <-]. split; [done|]. by eapply kahn_perm.
Qed.

Lemma halts_behind_initial failed : halts_behind g failed initial_state.
Proof.
  unfold halts_behind, initial_state. simpl.
  split; [by left|]. split; [intros; apply not_elem_of_nil|].
  split; [by intros log Hin%elem_of_nil|].
  split; [by rewrite lookup_empty|].
  intros x. by rewrite lookup_empty.
Qed.

End Walk.

(** C1. In a graph whose node identifiers are unique (the invariant of the
    data model), when a node fails (its handler returns a result with
    [success: false], or throws, which marks it [Error]), every node that
    is reachable only through it is recorded [Skipped] and its handler is
    never invoked, and the execution ends with status error. This holds
    under either reading of how far a failure halts the nodes downstream. *)
Theorem failed_node_skips_what_it_alone_reaches
    (handler : WorkflowNode → list (string * Value) → Outcome Value)
    (redact : Value → Value) (halt_all_downstream : bool)
    (g : Graph) (triggerInput : Value) (failed : string) :
  NoDup (node_ids (nodes g)) →
  exec_statuses (execute handler redact halt_all_downstream g triggerInput)
    !! failed = Some Error →
  exec_status (execute handler redact halt_all_downstream g triggerInput)
  = ExecError
  ∧ ∀ m,
      reachable_only_through g failed m →
      (exec_statuses (execute handler redact halt_all_downstream g
                        triggerInput) !! m = Some Skipped)
      ∧ (m ∉ exec_invoked (execute handler redact halt_all_downstream g
                             triggerInput))
      ∧ (∃ log,
           log ∈ exec_logs (execute handler redact halt_all_downstream g
                              triggerInput)
           ∧ log_node_id log = m)
      ∧ (∀ log,
           log ∈ exec_logs (execute handler redact halt_all_downstream g
                              triggerInput) →
           log_node_id log = m → log_status log = Skipped).
Proof.
  intros Hnd. unfold execute.
  destruct (dependency_order g) as [err|order] eqn:Horder; simpl.
  { by rewrite lookup_empty. }
  intros Hfailed.
  apply dependency_order_inr in Horder as [Hvalid Hperm].
  assert (NoDup (node_ids order)) as Hnd'.
  { unfold node_ids. by rewrite Hperm. }
  assert (∀ n, n ∈ order → node_id n ∈ node_ids (nodes g)) as Hnodes.
  { intros n Hn. unfold node_ids. rewrite <- Hperm.
    apply list_elem_of_In, in_map, list_elem_of_In, Hn. }
  pose proof (halts_behind_run_nodes handler redact halt_all_downstream g
                triggerInput failed order initial_state Hnd' Hnodes
                (halts_behind_initial g failed) Hfailed)
    as (Hst & Hinv & Hlogs & _ & Herr).
  split.
  - by destruct (Herr failed Hfailed) as [msg ->].
  - intros m [(r & l & Hroot & Hpath) Hm].
    assert (m ∈ node_ids order) as Hin.
    { unfold node_ids. rewrite Hperm.
      eapply path_end_node; [done| |done]. by destruct Hroot. }
    split; [|split; [|split]].
    + destruct (run_nodes_status_some handler redact halt_all_downstream g
                  triggerInput order initial_state m Hin) as [s Hs].
      destruct (Hst m Hm) as [Hnone|Hskip]; [congruence|done].
    + by apply Hinv.
    + by apply run_nodes_logged.
    + intros log Hlog <-. by apply Hlogs.
Qed.

(** *** The sample graphs *)

Lemma looping_cycle : cycle_reachable_from_trigger looping.
Proof.
  exists (sample_node "Trigger" Trigger), "Fetch".
  assert (edge_rel looping "Trigger" "Fetch") as Htf.
  { exists {| source := "Trigger"; target := "Fetch"; label := None |}.
    split; [|done]. apply list_elem_of_In. simpl. tauto. }
  assert (edge_rel looping "Fetch" "Notify") as Hfn.
  { exists {| source := "Fetch"; target := "Notify"; label := None |}.
    split; [|done]. apply list_elem_of_In. simpl. tauto. }
  assert (edge_rel looping "Notify" "Fetch") as Hnf.
  { exists {| source := "Notify"; target := "Fetch"; label := None |}.
    split; [|done]. apply list_elem_of_In. simpl. tauto. }
  split; [apply list_elem_of_In; simpl; tauto|].
  split; [done|]. split; [by apply rtc_once|].
  eapply tc_l; [exact Hfn|]. by apply tc_once.
Qed.

Lemma cycle_fails_before_any_node_witness :
  exec_status (execute sample_handler sample_redact false looping VNull)
  = ExecError
  ∧ exec_logs (execute sample_handler sample_redact false looping VNull) = [].
Proof.
  destruct (cycle_fails_before_any_node sample_handler sample_redact false
              looping VNull looping_cycle)
    as (_ & Hstatus & _ & Hlogs & _).
  by split.
Defined.

Lemma pipeline_edge x y :
  edge_rel pipeline x y
  ↔ (x = "Trigger" ∧ y = "Fetch") ∨ (x = "Fetch" ∧ y = "Notify").
Proof.
  split.
  - intros (e & He & <- & <-).
    apply list_elem_of_In in He. simpl in He.
    destruct He as [<-|[<-|[]]]; simpl; tauto.
  - intros [[-> ->]|[-> ->]].
    + exists {| source := "Trigger"; target := "Fetch"; label := None |}.
      split; [|done]. apply list_elem_of_In. simpl. tauto.
    + exists {| source := "Fetch"; target := "Notify"; label := None |}.
      split; [|done]. apply list_elem_of_In. simpl. tauto.
Qed.

Lemma pipeline_only_through :
  reachable_only_through pipeline "Fetch" "Notify".
Proof.
  assert (is_root pipeline "Trigger") as Hroot.
  { split; [apply list_elem_of_In; simpl; tauto|].
    intros e He Ht. apply list_elem_of_In in He. simpl in He.
    destruct He as [<-|[<-|[]]]; discriminate. }
  split; [|split; [done|]].
  - exists "Trigger", ["Trigger"; "Fetch"; "Notify"]. split; [done|].
    eapply path_edge; [apply pipeline_edge; by left|].
    eapply path_edge; [apply pipeline_edge; by right|].
    apply path_here.
  - intros r l [_ Hr] Hpath.
    assert (r = "Notify" ∨ "Fetch" ∈ l) as [->|Hin]; [| |done].
    { clear Hr. remember "Notify" as z eqn:Hz.
      induction Hpath as [x | x y l z Hxy Hpath IH]; [by left|].
      right. destruct (IH Hz) as [->|Hin].
      - subst z. apply pipeline_edge in Hxy as [[_ [=]]|[-> _]]. by left.
      - by right. }
    exfalso.
    apply (Hr {| source := "Fetch"; target := "Notify"; label := None |});
      [|done].
    apply list_elem_of_In. simpl. tauto.
Qed.

Lemma failed_node_skips_witness :
  exec_status (execute sample_handler sample_redact false pipeline VNull)
  = ExecError
  ∧ exec_statuses (execute sample_handler sample_redact false pipeline VNull)
      !! "Notify" = Some Skipped.
Proof.
  assert (NoDup (node_ids (nodes pipeline))) as Hnd.
  { apply (bool_decide_unpack _). vm_compute. reflexivity. }
  destruct (failed_node_skips_what_it_alone_reaches sample_handler
              sample_redact false pipeline VNull "Fetch" Hnd)
    as [Hstatus Hskipped].
  - vm_compute. reflexivity.
  - split; [exact Hstatus|].
    exact (proj1 (Hskipped "Notify" pipeline_only_through)).
Defined.

(** The scenarios of the specification. *)
Example pipeline_scenario :
  let r := execute sample_handler sample_redact false pipeline VNull in
  exec_status r = ExecError
  ∧ exec_error r = Some "timeout"
  ∧ map (λ l, (log_node_id l, log_status l)) (exec_logs r)
    = [("Trigger", Success); ("Fetch", Error); ("Notify", Skipped)]
  ∧ exec_invoked r = ["Fetch"].
Proof. vm_compute. done. Qed.

Example branching_scenario :
  let r := execute sample_handler sample_redact false branching
                   (VObj [("n", VNum 5)]) in
  exec_status r = ExecSuccess
  ∧ map (λ l, (log_node_id l, log_status l)) (exec_logs r)
    = [("Trigger", Success); ("Condition", Success); ("A", Success);
       ("B", Skipped)].
Proof. vm_compute. done. Qed.

End ExecutorFacts.

(** ** Reading and writing the integration store *)

Module IntegrationWritesFacts.
Import Integrations IntegrationsFacts IntegrationWrites.

Lemma query_succeeds_dec p : query_succeeds p ∨ ¬ query_succeeds p.
Proof.
  unfold query_succeeds.
  destruct (query_fates p) as [|[msg|] rest]; [right|right|left]; eauto;
    by intros [r [=]].
Qed.

Lemma select_integrations_fails filters p :
  ¬ query_succeeds p →
  ∃ e, (select_integrations filters p).1 = Returned (None, Some e).
Proof.
  intros Hfail. unfold select_integrations.
  destruct (query_fates p) as [|[msg|] rest] eqn:Hq; simpl; eauto.
  destruct Hfail. by exists rest.
Qed.

Lemma select_integrations_table filters p :
  integrations (select_integrations filters p).2 = integrations p.
Proof.
  unfold select_integrations.
  by destruct (query_fates p) as [|[msg|] rest].
Qed.

Lemma filter_singleton_elem {A} (f : A → bool) (l : list A) (x : A) :
  List.filter f l = [x] → x ∈ l ∧ f x = true.
Proof.
  intros H. assert (In x (List.filter f l)) as Hin by (rewrite H; by left).
  apply filter_In in Hin as [Hin Hf]. by apply list_elem_of_In in Hin.
Qed.

(** X1. [getIntegration] answers with an integration exactly when the query
    succeeds and precisely one stored row has both the id and the user asked
    for; the answer is that row with its config read by [decryptConfig]. An
    integration of another user is never returned, the function never
    throws, and the table is left as it is. *)
Theorem getIntegration_returns_only_own_row
    (gcm_open :
       list byte → list byte → list byte → list byte → option (list byte))
    (JSON_parse : string → Outcome Value)
    (integrationId userId : string) (p : Proc) :
  ∃ r p',
    getIntegration gcm_open JSON_parse integrationId userId p
    = (Returned r, p')
    ∧ integrations p' = integrations p
    ∧ (∀ d, r = Some d
            ↔ query_succeeds p
              ∧ ∃ row,
                  List.filter (λ r, String.eqb (row_id r) integrationId
                                    && String.eqb (row_user_id r) userId)
                              (integrations p) = [row]
                  ∧ d = integration_of row
                          (read_config gcm_open JSON_parse p row))
    ∧ (∀ d, r = Some d →
            id d = integrationId ∧ Integrations.userId d = userId
            ∧ ∃ row, row ∈ integrations p ∧ row_id row = integrationId
                     ∧ row_user_id row = userId).
Proof.
  unfold getIntegration. rewrite read_one_row.
  eexists _, _. split; [reflexivity|].
  split; [apply select_integrations_table|].
  set (f := λ r, String.eqb (row_id r) integrationId
                 && String.eqb (row_user_id r) userId).
  assert (∀ d,
            match single
                    match (select_integrations f p).1 with
                    | Returned res => res
                    | Thrown _ => (None, None)
                    end
            with
            | (Some data, None) =>
                Some (integration_of data
                        (read_config gcm_open JSON_parse p data))
            | _ => None
            end = Some d
            ↔ query_succeeds p
              ∧ ∃ row, List.filter f (integrations p) = [row]
                       ∧ d = integration_of row
                               (read_config gcm_open JSON_parse p row))
    as Hiff.
  { intros d. destruct (query_succeeds_dec p) as [Hq|Hq].
    - rewrite select_integrations_succeeds by done.
      destruct (List.filter f (integrations p)) as [|row [|row' rows]];
        simpl.
      + split; [done|]. by intros [_ (row & [=] & _)].
      + split.
        * intros [= <-]. eauto.
        * by intros [_ (row0 & [= <-] & ->)].
      + split; [done|]. by intros [_ (row0 & [=] & _)].
    - destruct (select_integrations_fails f p Hq) as [e ->]. simpl.
      split; [done|]. by intros [? _]. }
  split; [exact Hiff|].
  intros d Hd. apply Hiff in Hd as (_ & row & Hrow & ->).
  apply filter_singleton_elem in Hrow as [Hin Hf].
  apply andb_true_iff in Hf as [Hid Huser].
  apply String.eqb_eq in Hid, Huser. simpl. eauto 10.
Qed.

(** X2. [getIntegrations] returns exactly the rows of the given user (of the
    given type, when one is asked for), in table order, each with its
    config read by [decryptConfig]; a failed query gives the empty list.
    The function never throws and leaves the table as it is. *)
Theorem getIntegrations_returns_the_users_rows
    (gcm_open :
       list byte → list byte → list byte → list byte → option (list byte))
    (JSON_parse : string → Outcome Value)
    (userId : string) (type : option string) (p : Proc) :
  ∃ ds p',
    getIntegrations gcm_open JSON_parse userId type p = (Returned ds, p')
    ∧ integrations p' = integrations p
    ∧ (∀ d, d ∈ ds →
            Integrations.userId d = userId
            ∧ (∀ t, type = Some t → t ≠ "" → Integrations.type d = t)
            ∧ ∃ row, row ∈ integrations p
                     ∧ d = integration_of row
                             (read_config gcm_open JSON_parse p row))
    ∧ (query_succeeds p →
       ∀ row, row ∈ integrations p → row_user_id row = userId →
              (∀ t, type = Some t → t ≠ "" → row_type row = t) →
              integration_of row (read_config gcm_open JSON_parse p row)
              ∈ ds)
    ∧ (query_succeeds p →
       sublist (map id ds) (map row_id (integrations p)))
    ∧ (¬ query_succeeds p → ds = []).
Proof.
  unfold getIntegrations.
  set (f := λ row : IntegrationRow,
              match type with
              | Some t =>
                  if String.eqb t "" then String.eqb (row_user_id row) userId
                  else String.eqb (row_user_id row) userId
                       && String.eqb (row_type row) t
              | None => String.eqb (row_user_id row) userId
              end).
  assert (∀ row, f row = true
                 ↔ row_user_id row = userId
                   ∧ ∀ t, type = Some t → t ≠ "" → row_type row = t) as Hf.
  { intros row. unfold f. destruct type as [t|].
    - destruct (String.eqb_spec t "") as [->|Hne].
      + rewrite String.eqb_eq. split; [|tauto].
        intros ->. split; [done|]. by intros t [= <-].
      + rewrite andb_true_iff, !String.eqb_eq. split.
        * intros [-> Ht]. split; [done|]. by intros t' [= <-].
        * intros [-> Ht]. split; [done|]. by apply Ht.
    - rewrite String.eqb_eq. split; [|tauto]. by intros ->. }
  unfold bind at 1.
  pose proof (select_integrations_env f p) as Henv.
  pose proof (select_integrations_table f p) as Htable.
  destruct (query_succeeds_dec p) as [Hq|Hq].
  - pose proof (select_integrations_succeeds f p Hq) as Hsel.
    destruct (select_integrations f p) as [o p1]. simpl in *. subst o.
    rewrite map_rows_read. eexists _, _. split; [reflexivity|].
    split; [done|].
    assert (∀ row, read_config gcm_open JSON_parse p1 row
                   = read_config gcm_open JSON_parse p row) as Hread
      by (intros row; by apply read_config_env).
    split; [|split; [|split; [|done]]].
    + intros d Hd. apply list_elem_of_In, in_map_iff in Hd as (row & <- & Hin).
      apply filter_In in Hin as [Hin Hrow]. apply Hf in Hrow as [Hu Ht].
      simpl. split; [done|]. split; [done|].
      exists row. split; [by apply list_elem_of_In|]. by rewrite Hread.
    + intros _ row Hin Hu Ht.
      apply list_elem_of_In, in_map_iff. exists row.
      split; [by rewrite Hread|].
      apply filter_In. split; [by apply list_elem_of_In|]. by apply Hf.
    + intros _. rewrite map_map. simpl.
      clear. induction (integrations p) as [|row rows IH]; [constructor|].
      simpl. destruct (f row); simpl; by constructor.
  - destruct (select_integrations_fails f p Hq) as [e Hsel].
    destruct (select_integrations f p) as [o p1]. simpl in *. subst o.
    eexists _, _. split; [reflexivity|]. split; [done|].
    split; [|split; [|split]]; try done.
    by intros d ?%elem_of_nil.
Qed.

(** *** Encrypting and storing a config *)

Section Writes.

Variable gcm_seal : list byte → list byte → list byte → list byte * list byte.
Variable gcm_open :
  list byte → list byte → list byte → list byte → option (list byte).
Variable JSON_stringify : Value → string.
Variable JSON_parse : string → Outcome Value.

Lemma encrypt_then_decrypt p keyHex plaintext :
  gcm_correct gcm_seal gcm_open →
  INTEGRATION_ENCRYPTION_KEY p = Some keyHex →
  String.length keyHex = 64%nat →
  is_hex keyHex = true →
  well_formed plaintext = true →
  ∃ envelope,
    encrypt gcm_seal plaintext p = (Returned envelope, after_iv p)
    ∧ ∀ q, INTEGRATION_ENCRYPTION_KEY q = Some keyHex →
           decrypt gcm_open envelope q = (Returned plaintext, q).
Proof.
  intros Hgcm Henv Hlen Hhex Hwf.
  destruct (getEncryptionKey_valid p keyHex Henv Hlen Hhex) as [Hkey Hkeylen].
  unfold well_formed in Hwf.
  pose proof (utf8_write_well_formed _ Hwf) as Hwrite.
  pose proof (utf8_decode_well_formed _ Hwf) as Hdecode.
  remember (map (entropy p) (seq (drawn p) IV_LENGTH)) as iv eqn:Hiv.
  destruct (gcm_seal (hex_decode keyHex) iv (list_byte_of_string plaintext))
    as [encrypted authTag] eqn:Hseal.
  exists (hex_encode iv +:+ ":" +:+ hex_encode authTag +:+ ":"
            +:+ hex_encode encrypted).
  split.
  - unfold encrypt, bind at 1. rewrite Hkey.
    unfold bind, randomBytes, check_key. rewrite <- Hiv.
    rewrite Hkeylen. simpl. by rewrite Hwrite, Hseal.
  - intros q Hq.
    destruct (getEncryptionKey_valid q keyHex Hq Hlen Hhex) as [Hkey' _].
    unfold decrypt, bind at 1. rewrite Hkey', envelope_parts.
    unfold bind, check_key, check_hex. rewrite Hkeylen, hex_encode_even.
    simpl. rewrite !hex_decode_encode.
    specialize (Hgcm (hex_decode keyHex) iv (list_byte_of_string plaintext)
                     Hkeylen).
    rewrite Hseal in Hgcm. simpl in Hgcm. rewrite Hgcm, Hdecode.
    by rewrite string_of_list_byte_of_string.
Qed.

End Writes.

Lemma encrypt_frame gcm_seal plaintext p :
  integrations (encrypt gcm_seal plaintext p).2 = integrations p
  ∧ query_fates (encrypt gcm_seal plaintext p).2 = query_fates p
  ∧ INTEGRATION_ENCRYPTION_KEY (encrypt gcm_seal plaintext p).2
    = INTEGRATION_ENCRYPTION_KEY p.
Proof.
  assert (∃ o d, encrypt gcm_seal plaintext p
                 = (o, {| INTEGRATION_ENCRYPTION_KEY :=
                            INTEGRATION_ENCRYPTION_KEY p;
                          entropy := entropy p; drawn := d;
                          integrations := integrations p;
                          query_fates := query_fates p |})) as (o & d & ->);
    [|done].
  unfold encrypt, bind at 1.
  pose proof (getEncryptionKey_state p) as Hst.
  destruct (getEncryptionKey p) as [[key|e] p0]; simpl in Hst; subst p0.
  - unfold bind, randomBytes, check_key.
    destruct (Nat.eqb _ _); simpl; [|by eauto].
    destruct (gcm_seal _ _ _). by eauto.
  - exists (Thrown e), (drawn p). by destruct p.
Qed.

Lemma hex_decode_short_fuel n s :
  (String.length s ≤ n)%nat → is_hex s = false →
  (2 * length (hex_decode s) < String.length s)%nat.
Proof.
  revert s. induction n as [|n IH]; intros s Hn Hhex.
  - destruct s; [done|simpl in Hn; lia].
  - destruct s as [|c1 [|c2 s]]; [done|simpl; lia|].
    simpl in Hhex. simpl hex_decode.
    destruct (hex_value c1) as [hi|] eqn:H1; [|simpl; lia].
    destruct (hex_value c2) as [lo|] eqn:H2; [|simpl; lia].
    destruct (Byte.of_N (16 * hi + lo)) as [b|]; [|simpl; lia].
    simpl in Hn. assert (String.length s ≤ n)%nat as Hs by lia.
    specialize (IH s Hs Hhex). simpl. lia.
Qed.

Lemma encrypt_unusable gcm_seal plaintext p :
  ¬ key_usable p → ∃ e, (encrypt gcm_seal plaintext p).1 = Thrown e.
Proof.
  intros Hkey. unfold encrypt, bind at 1, getEncryptionKey, bind, getenv_key.
  destruct (INTEGRATION_ENCRYPTION_KEY p) as [k|] eqn:Henv; [|simpl; eauto].
  destruct (String.eqb k ""); [simpl; eauto|].
  destruct (Nat.eqb_spec (String.length k) 64) as [Hlen|Hlen];
    [|simpl; eauto].
  simpl. unfold bind, randomBytes, check_key.
  destruct (is_hex k) eqn:Hhex.
  { destruct Hkey. by exists k. }
  pose proof (hex_decode_short_fuel _ k (le_n _) Hhex) as Hshort.
  destruct (Nat.eqb_spec (length (hex_decode k)) 32) as [H32|H32]; [lia|].
  simpl. eauto.
Qed.

(** X3. Without a usable encryption key (none set, empty, not 64 characters
    or not hex) [createIntegration] throws, and so does [updateIntegration]
    when it is given a config; neither has sent a query by then, so nothing
    is stored. *)
Theorem no_config_is_stored_without_a_usable_key
    (gcm_seal : list byte → list byte → list byte → list byte * list byte)
    (gcm_open :
       list byte → list byte → list byte → list byte → option (list byte))
    (JSON_stringify : Value → string) (JSON_parse : string → Outcome Value)
    (p : Proc) (assigned_id now userId name type integrationId : string)
    (updates_name : option string) (config : Value) :
  ¬ key_usable p →
  (∃ e p',
     createIntegration gcm_seal JSON_stringify assigned_id now userId name
                       type config p = (Thrown e, p')
     ∧ integrations p' = integrations p
     ∧ query_fates p' = query_fates p)
  ∧ (∃ e p',
       updateIntegration gcm_seal gcm_open JSON_stringify JSON_parse now
                         integrationId userId updates_name (Some config) p
       = (Thrown e, p')
       ∧ integrations p' = integrations p
       ∧ query_fates p' = query_fates p).
Proof.
  intros Hkey.
  destruct (encrypt_unusable gcm_seal (JSON_stringify config) p Hkey)
    as [e He].
  destruct (encrypt_frame gcm_seal (JSON_stringify config) p)
    as (Htable & Hfates & _).
  split.
  - unfold createIntegration, bind at 1, encryptConfig.
    destruct (encrypt gcm_seal (JSON_stringify config) p) as [o p1].
    simpl in *. subst o. eauto.
  - unfold updateIntegration, bind at 1, bind at 1, encryptConfig.
    destruct (encrypt gcm_seal (JSON_stringify config) p) as [o p1].
    simpl in *. subst o. eauto.
Qed.

Lemma no_config_is_stored_without_a_usable_key_witness :
  (∃ e p',
     createIntegration sample_seal sample_stringify "int-3" "2024-03-01"
                       "alice" "Chat" "slack" (VObj []) sample_keyless_proc
     = (Thrown e, p')
     ∧ integrations p' = sample_rows
     ∧ query_fates p' = [QuerySucceeds; QuerySucceeds])
  ∧ (∃ e p',
       updateIntegration sample_seal sample_open sample_stringify
                         sample_parse "2024-03-01" "int-1" "alice" None
                         (Some (VObj [])) sample_keyless_proc
       = (Thrown e, p')
       ∧ integrations p' = sample_rows
       ∧ query_fates p' = [QuerySucceeds; QuerySucceeds]).
Proof.
  apply (no_config_is_stored_without_a_usable_key sample_seal sample_open
           sample_stringify sample_parse sample_keyless_proc).
  by intros (k & [=] & _).
Defined.

Lemma filter_owned_fresh integrationId userId rows :
  integrationId ∉ map row_id rows →
  List.filter (owned_by integrationId userId) rows = [].
Proof.
  induction rows as [|row rows IH]; [done|].
  intros Hfresh. simpl in Hfresh. apply not_elem_of_cons in Hfresh as [Hne ?].
  simpl. unfold owned_by at 1.
  destruct (String.eqb_spec (row_id row) integrationId) as [Heq|_];
    [by destruct Hne|].
  simpl. by apply IH.
Qed.

(** X4. An integration that [createIntegration] has stored reads back: with
    a usable key, a cipher that opens what it sealed, a config that
    [JSON.parse] recovers from the text of [JSON.stringify] (a text without
    lone surrogates, as [JSON.stringify] escapes them), and both queries
    succeeding, [createIntegration] returns the integration under the id
    that the database assigned, and [getIntegration] with that id and the
    creating user then returns the same integration with the same config,
    decrypted from the stored blob. Another user who asks for that id gets
    nothing. *)
Theorem created_integration_reads_back
    (gcm_seal : list byte → list byte → list byte → list byte * list byte)
    (gcm_open :
       list byte → list byte → list byte → list byte → option (list byte))
    (JSON_stringify : Value → string) (JSON_parse : string → Outcome Value)
    (p : Proc) (keyHex : string) (rest : list QueryFate)
    (assigned_id now userId name type : string) (config : Value) :
  gcm_correct gcm_seal gcm_open →
  INTEGRATION_ENCRYPTION_KEY p = Some keyHex →
  String.length keyHex = 64%nat →
  is_hex keyHex = true →
  well_formed (JSON_stringify config) = true →
  JSON_parse (JSON_stringify config) = Returned config →
  query_fates p = QuerySucceeds :: QuerySucceeds :: rest →
  assigned_id ∉ map row_id (integrations p) →
  ∃ p1 p2 blob,
    createIntegration gcm_seal JSON_stringify assigned_id now userId name
                      type config p
    = (Returned {| id := assigned_id; Integrations.userId := userId;
                   Integrations.name := name; Integrations.type := type;
                   Integrations.config := config;
                   createdAt := now; updatedAt := now |}, p1)
    ∧ integrations p1
      = integrations p
        ++ [ {| row_id := assigned_id; row_user_id := userId;
                row_name := name; row_type := type; row_config := blob;
                row_created_at := now; row_updated_at := now |} ]
    ∧ getIntegration gcm_open JSON_parse assigned_id userId p1
      = (Returned
           (Some {| id := assigned_id; Integrations.userId := userId;
                    Integrations.name := name; Integrations.type := type;
                    Integrations.config := config;
                    createdAt := now; updatedAt := now |}), p2)
    ∧ ∀ other, other ≠ userId →
               (getIntegration gcm_open JSON_parse assigned_id other p1).1
               = Returned None.
Proof.
  intros Hgcm Henv Hlen Hhex Hwf Hjson Hfates Hfresh.
  destruct (encrypt_then_decrypt gcm_seal gcm_open p keyHex
              (JSON_stringify config) Hgcm Henv Hlen Hhex Hwf)
    as (blob & Henc & Hdec).
  set (row := {| row_id := assigned_id; row_user_id := userId;
                 row_name := name; row_type := type; row_config := blob;
                 row_created_at := now; row_updated_at := now |}).
  set (p1 := after_query (after_iv p) (integrations p ++ [row])
                         (QuerySucceeds :: rest)).
  assert (createIntegration gcm_seal JSON_stringify assigned_id now userId
            name type config p
          = (Returned (integration_of row config), p1)) as Hcreate.
  { unfold createIntegration, bind at 1, encryptConfig. rewrite Henc.
    unfold bind, insert_integration. simpl. by rewrite Hfates. }
  assert (query_succeeds p1) as Hq1 by (by exists rest).
  assert (read_config gcm_open JSON_parse p1 row = config) as Hread.
  { unfold read_config, decryptConfig, try_catch, bind. simpl.
    rewrite (Hdec p1 Henv). unfold lift_outcome. by rewrite Hjson. }
  assert (∀ u, List.filter (owned_by assigned_id u) (integrations p1)
               = if String.eqb userId u then [row] else []) as Hfilter.
  { intros u. simpl. rewrite List.filter_app, filter_owned_fresh by done.
    simpl. unfold owned_by. simpl. by rewrite String.eqb_refl. }
  exists p1, (select_integrations (owned_by assigned_id userId) p1).2, blob.
  split; [exact Hcreate|]. split; [done|]. split.
  - unfold getIntegration. rewrite read_one_row.
    change (λ row0, String.eqb (row_id row0) assigned_id
                    && String.eqb (row_user_id row0) userId)
      with (owned_by assigned_id userId).
    rewrite select_integrations_succeeds by done.
    rewrite Hfilter, String.eqb_refl. simpl. by rewrite Hread.
  - intros other Hother. unfold getIntegration. rewrite read_one_row.
    change (λ row0, String.eqb (row_id row0) assigned_id
                    && String.eqb (row_user_id row0) other)
      with (owned_by assigned_id other).
    rewrite select_integrations_succeeds by done.
    rewrite Hfilter.
    by destruct (String.eqb_spec userId other) as [->|_].
Qed.

Lemma created_integration_reads_back_witness :
  ∃ p1 p2 blob,
    createIntegration sample_seal sample_stringify "int-3" "2024-03-01"
                      "alice" "Chat" "slack" (VObj []) sample_proc
    = (Returned {| id := "int-3"; Integrations.userId := "alice";
                   Integrations.name := "Chat";
                   Integrations.type := "slack";
                   Integrations.config := VObj [];
                   createdAt := "2024-03-01"; updatedAt := "2024-03-01" |},
       p1)
    ∧ integrations p1
      = integrations sample_proc
        ++ [ {| row_id := "int-3"; row_user_id := "alice";
                row_name := "Chat"; row_type := "slack"; row_config := blob;
                row_created_at := "2024-03-01";
                row_updated_at := "2024-03-01" |} ]
    ∧ getIntegration sample_open sample_parse "int-3" "alice" p1
      = (Returned
           (Some {| id := "int-3"; Integrations.userId := "alice";
                    Integrations.name := "Chat";
                    Integrations.type := "slack";
                    Integrations.config := VObj [];
                    createdAt := "2024-03-01";
                    updatedAt := "2024-03-01" |}), p2)
    ∧ ∀ other, other ≠ "alice" →
               (getIntegration sample_open sample_parse "int-3" other p1).1
               = Returned None.
Proof.
  apply (created_integration_reads_back sample_seal sample_open
           sample_stringify sample_parse sample_proc sample_key []).
  - intros key iv data _. simpl. unfold sample_open. by rewrite rev_involutive.
  - reflexivity.
  - reflexivity.
  - reflexivity.
  - reflexivity.
  - reflexivity.
  - reflexivity.
  - vm_compute. intros H. repeat (apply elem_of_cons in H as [[=]|H]).
    by apply elem_of_nil in H.
Defined.

(** *** Updating *)

Lemma update_integration_run filters updateData p :
  ∃ res p',
    update_integration filters updateData p = (Returned res, p')
    ∧ INTEGRATION_ENCRYPTION_KEY p' = INTEGRATION_ENCRYPTION_KEY p
    ∧ ((∃ row rest,
          query_fates p = QuerySucceeds :: rest
          ∧ List.filter filters (integrations p) = [row]
          ∧ res = (Some (updateData row), None)
          ∧ query_fates p' = rest
          ∧ integrations p'
            = map (λ r, if filters r then updateData r else r)
                  (integrations p))
       ∨ ((∃ e, res = (None, Some e))
          ∧ integrations p' = integrations p
          ∧ ¬ (query_succeeds p
               ∧ ∃ row, List.filter filters (integrations p) = [row]))).
Proof.
  unfold update_integration.
  destruct (query_fates p) as [|[msg|] rest] eqn:Hq.
  - eexists _, _. split; [reflexivity|]. split; [done|]. right.
    split; [eauto|]. split; [done|]. intros [[r Hr] _]. congruence.
  - eexists _, _. split; [reflexivity|]. split; [done|]. right.
    split; [eauto|]. split; [done|]. intros [[r Hr] _]. congruence.
  - destruct (List.filter filters (integrations p)) as [|row [|row' rows]]
      eqn:Hrows.
    + eexists _, _. split; [reflexivity|]. split; [done|]. right.
      split; [eauto|]. split; [done|]. by intros [_ [r [=]]].
    + eexists _, _. split; [reflexivity|]. split; [done|]. left.
      exists row, rest. done.
    + eexists _, _. split; [reflexivity|]. split; [done|]. right.
      split; [eauto|]. split; [done|]. by intros [_ [r [=]]].
Qed.

Lemma lookup_map_if {A} (f : A → bool) (g : A → A) (l : list A) i :
  map (λ r, if f r then g r else r) l !! i
  = (λ r, if f r then g r else r) <$> l !! i.
Proof. apply list_lookup_fmap. Qed.

(** X5. [updateIntegration] changes at most the row that has both the given
    id and the given user: every other row stays where it is and as it is,
    and no row ever changes its id, owner, type or creation time. When no
    row has that id and user (the integration is missing or belongs to
    somebody else) the table is left as it was and no integration is
    returned. *)
Theorem updateIntegration_changes_only_the_owners_row
    (gcm_seal : list byte → list byte → list byte → list byte * list byte)
    (gcm_open :
       list byte → list byte → list byte → list byte → option (list byte))
    (JSON_stringify : Value → string) (JSON_parse : string → Outcome Value)
    (now integrationId userId : string) (updates_name : option string)
    (updates_config : option Value) (p : Proc) :
  ∃ o p',
    updateIntegration gcm_seal gcm_open JSON_stringify JSON_parse now
                      integrationId userId updates_name updates_config p
    = (o, p')
    ∧ length (integrations p') = length (integrations p)
    ∧ (∀ i row, integrations p !! i = Some row →
                owned_by integrationId userId row = false →
                integrations p' !! i = Some row)
    ∧ (∀ i row, integrations p !! i = Some row →
                ∃ row', integrations p' !! i = Some row'
                        ∧ row_id row' = row_id row
                        ∧ row_user_id row' = row_user_id row
                        ∧ row_type row' = row_type row
                        ∧ row_created_at row' = row_created_at row)
    ∧ (List.filter (owned_by integrationId userId) (integrations p) = [] →
       integrations p' = integrations p ∧ ∀ d, o ≠ Returned (Some d)).
Proof.
  unfold updateIntegration. unfold bind at 1.
  set (first := match updates_config with
                | Some config =>
                    encrypted <- encryptConfig gcm_seal JSON_stringify config ;;
                    ret (Some encrypted)
                | None => ret None
                end).
  assert (integrations (first p).2 = integrations p) as Hfirst.
  { unfold first. destruct updates_config as [config|]; [|done].
    unfold bind, encryptConfig.
    destruct (encrypt_frame gcm_seal (JSON_stringify config) p)
      as (Htable & _ & _).
    by destruct (encrypt gcm_seal (JSON_stringify config) p) as [[x|e] q]. }
  destruct (first p) as [[new_config|e] p1]; simpl in Hfirst.
  2: { eexists _, _. split; [reflexivity|]. rewrite Hfirst.
       split; [done|]. split; [done|]. split; [by eauto 10|]. done. }
  unfold bind at 1.
  match goal with
  | |- context [update_integration ?f ?g p1] =>
      destruct (update_integration_run f g p1)
        as (res & p2 & Hrun & Henv & Hcases);
      change f with (owned_by integrationId userId) in *;
      set (updateData := g) in *
  end.
  rewrite Hrun. rewrite Hfirst in Hcases.
  destruct Hcases as [(row & rest & Hq & Hrows & -> & Hrest & Htable)
                     | ((e & ->) & Htable & Hnone)].
  - unfold bind. rewrite decrypted_row_read. unfold ret.
    eexists _, _. split; [reflexivity|]. rewrite Htable.
    split; [by rewrite length_map|].
    split; [|split].
    + intros i r Hi Hr. rewrite lookup_map_if, Hi. simpl.
      unfold owned_by in Hr. by rewrite Hr.
    + intros i r Hi. rewrite lookup_map_if, Hi. simpl.
      destruct (String.eqb (row_id r) integrationId
                && String.eqb (row_user_id r) userId); eauto 10.
    + intros Hempty. rewrite Hempty in Hrows. discriminate.
  - eexists _, _. split; [reflexivity|]. rewrite Htable.
    split; [done|]. split; [done|]. split; [by eauto 10|]. done.
Qed.

Lemma filter_map_owned integrationId userId
    (g : IntegrationRow → IntegrationRow) rows :
  (∀ r, row_id (g r) = row_id r ∧ row_user_id (g r) = row_user_id r) →
  List.filter (owned_by integrationId userId)
    (map (λ r, if owned_by integrationId userId r then g r else r) rows)
  = map g (List.filter (owned_by integrationId userId) rows).
Proof.
  intros Hg. induction rows as [|r rows IH]; [done|].
  simpl. destruct (owned_by integrationId userId r) eqn:Hr.
  - assert (owned_by integrationId userId (g r) = true) as ->.
    { unfold owned_by in *. destruct (Hg r) as [-> ->]. done. }
    simpl. by rewrite IH.
  - by rewrite Hr, IH.
Qed.

(** X6. A config written by [updateIntegration] reads back: with a usable
    key, a cipher that opens what it sealed, a config that [JSON.parse]
    recovers from the text of [JSON.stringify] (a text without lone
    surrogates, as [JSON.stringify] escapes them), both queries succeeding and exactly one
    row with the given id and user, [updateIntegration] returns that
    integration with the new config, the new name if one was given (the old
    one otherwise) and the new update time, and a following
    [getIntegration] returns the same. *)
Theorem updated_integration_reads_back
    (gcm_seal : list byte → list byte → list byte → list byte * list byte)
    (gcm_open :
       list byte → list byte → list byte → list byte → option (list byte))
    (JSON_stringify : Value → string) (JSON_parse : string → Outcome Value)
    (p : Proc) (keyHex : string) (rest : list QueryFate)
    (now integrationId userId : string) (updates_name : option string)
    (config : Value) (row : IntegrationRow) :
  gcm_correct gcm_seal gcm_open →
  INTEGRATION_ENCRYPTION_KEY p = Some keyHex →
  String.length keyHex = 64%nat →
  is_hex keyHex = true →
  well_formed (JSON_stringify config) = true →
  JSON_parse (JSON_stringify config) = Returned config →
  query_fates p = QuerySucceeds :: QuerySucceeds :: rest →
  List.filter (owned_by integrationId userId) (integrations p) = [row] →
  ∃ p1 p2,
    updateIntegration gcm_seal gcm_open JSON_stringify JSON_parse now
                      integrationId userId updates_name (Some config) p
    = (Returned
         (Some {| id := integrationId; Integrations.userId := userId;
                  Integrations.name := default (row_name row) updates_name;
                  Integrations.type := row_type row;
                  Integrations.config := config;
                  createdAt := row_created_at row; updatedAt := now |}), p1)
    ∧ getIntegration gcm_open JSON_parse integrationId userId p1
      = (Returned
           (Some {| id := integrationId; Integrations.userId := userId;
                    Integrations.name := default (row_name row) updates_name;
                    Integrations.type := row_type row;
                    Integrations.config := config;
                    createdAt := row_created_at row; updatedAt := now |}),
         p2).
Proof.
  intros Hgcm Henv Hlen Hhex Hwf Hjson Hfates Hrows.
  destruct (encrypt_then_decrypt gcm_seal gcm_open p keyHex
              (JSON_stringify config) Hgcm Henv Hlen Hhex Hwf)
    as (blob & Henc & Hdec).
  destruct (filter_singleton_elem _ _ _ Hrows) as [_ Hown].
  apply andb_true_iff in Hown as [Hid Huser].
  apply String.eqb_eq in Hid, Huser.
  set (updateData := λ r,
         {| row_id := row_id r; row_user_id := row_user_id r;
            row_name := default (row_name r) updates_name;
            row_type := row_type r;
            row_config := blob;
            row_created_at := row_created_at r;
            row_updated_at := now |}).
  set (p1 := after_query (after_iv p)
               (map (λ r, if owned_by integrationId userId r
                          then updateData r else r) (integrations p))
               (QuerySucceeds :: rest)).
  assert (read_config gcm_open JSON_parse p1 (updateData row) = config)
    as Hread.
  { unfold read_config, decryptConfig, try_catch, bind. simpl.
    rewrite (Hdec p1 Henv). unfold lift_outcome. by rewrite Hjson. }
  assert (integration_of (updateData row) config
          = {| id := integrationId; Integrations.userId := userId;
               Integrations.name := default (row_name row) updates_name;
               Integrations.type := row_type row;
               Integrations.config := config;
               createdAt := row_created_at row; updatedAt := now |}) as Hd.
  { unfold integration_of. simpl. by rewrite Hid, Huser. }
  exists p1, (select_integrations (owned_by integrationId userId) p1).2.
  split.
  - unfold updateIntegration, bind at 1, bind at 1, encryptConfig.
    rewrite Henc. unfold ret at 1. unfold bind at 1.
    unfold update_integration at 1. simpl query_fates. rewrite Hfates.
    simpl integrations.
    change (λ row0, String.eqb (row_id row0) integrationId
                    && String.eqb (row_user_id row0) userId)
      with (owned_by integrationId userId).
    rewrite Hrows. unfold bind. simpl default.
    rewrite decrypted_row_read.
    unfold ret. rewrite <- Hd, <- Hread. reflexivity.
  - unfold getIntegration. rewrite read_one_row.
    change (λ row0, String.eqb (row_id row0) integrationId
                    && String.eqb (row_user_id row0) userId)
      with (owned_by integrationId userId).
    rewrite select_integrations_succeeds by (by exists rest).
    simpl integrations. rewrite filter_map_owned by done.
    rewrite Hrows. simpl map. rewrite <- Hd, <- Hread. reflexivity.
Qed.

Lemma updated_integration_reads_back_witness :
  ∃ p1 p2,
    updateIntegration sample_seal sample_open sample_stringify sample_parse
                      "2024-03-01" "int-1" "alice" (Some "Post")
                      (Some (VObj [])) sample_proc
    = (Returned
         (Some {| id := "int-1"; Integrations.userId := "alice";
                  Integrations.name := "Post";
                  Integrations.type := "resend";
                  Integrations.config := VObj [];
                  createdAt := "2024-01-01"; updatedAt := "2024-03-01" |}),
       p1)
    ∧ getIntegration sample_open sample_parse "int-1" "alice" p1
      = (Returned
           (Some {| id := "int-1"; Integrations.userId := "alice";
                    Integrations.name := "Post";
                    Integrations.type := "resend";
                    Integrations.config := VObj [];
                    createdAt := "2024-01-01"; updatedAt := "2024-03-01" |}),
         p2).
Proof.
  apply (updated_integration_reads_back sample_seal sample_open
           sample_stringify sample_parse sample_proc sample_key []
           "2024-03-01" "int-1" "alice" (Some "Post") (VObj [])
           {| row_id := "int-1"; row_user_id := "alice"; row_name := "Mail";
              row_type := "resend"; row_config := "not an envelope";
              row_created_at := "2024-01-01";
              row_updated_at := "2024-01-02" |}).
  - intros key iv data _. simpl. unfold sample_open. by rewrite rev_involutive.
  - reflexivity.
  - reflexivity.
  - reflexivity.
  - reflexivity.
  - reflexivity.
  - reflexivity.
  - reflexivity.
Defined.

(** *** Deleting *)

Lemma deleteIntegration_run integrationId userId p :
  ∃ b p',
    deleteIntegration integrationId userId p = (Returned b, p')
    ∧ (b = true ↔ query_succeeds p)
    ∧ integrations p'
      = if b then List.filter (λ r, negb (owned_by integrationId userId r))
                              (integrations p)
        else integrations p.
Proof.
  unfold deleteIntegration, bind, delete_integrations.
  change (λ row, String.eqb (row_id row) integrationId
                 && String.eqb (row_user_id row) userId)
    with (owned_by integrationId userId).
  destruct (query_fates p) as [|[msg|] rest] eqn:Hq; simpl.
  - eexists _, _. split; [reflexivity|].
    split; [split; [done|intros [r Hr]; congruence]|done].
  - eexists _, _. split; [reflexivity|].
    split; [split; [done|intros [r Hr]; congruence]|done].
  - eexists _, _. split; [reflexivity|]. simpl.
    split; [split; [by exists rest|done]|done].
Qed.

Lemma filter_not_owned_elem integrationId userId rows row :
  row ∈ rows → owned_by integrationId userId row = false →
  row ∈ List.filter (λ r, negb (owned_by integrationId userId r)) rows.
Proof.
  intros Hin Hrow. apply list_elem_of_In, filter_In.
  split; [by apply list_elem_of_In|]. by rewrite Hrow.
Qed.

Lemma filter_not_owned_none integrationId userId rows :
  List.filter (owned_by integrationId userId) rows = [] →
  List.filter (λ r, negb (owned_by integrationId userId r)) rows = rows.
Proof.
  induction rows as [|r rows IH]; [done|].
  simpl. destruct (owned_by integrationId userId r); [done|].
  simpl. intros Hrows. by rewrite IH.
Qed.

(** X7. [deleteIntegration] answers [true] exactly when the delete query
    does not fail, also when no row had the given id and user, so a missing
    integration and one of another user are reported as deleted although
    nothing was removed. What it removes are exactly the rows with both that
    id and that user; it never throws. *)
Theorem deleteIntegration_true_unless_the_query_fails
    (integrationId userId : string) (p : Proc) :
  ∃ b p',
    deleteIntegration integrationId userId p = (Returned b, p')
    ∧ (b = true ↔ query_succeeds p)
    ∧ (query_succeeds p →
       integrations p'
       = List.filter (λ r, negb (owned_by integrationId userId r))
                     (integrations p))
    ∧ (¬ query_succeeds p → integrations p' = integrations p)
    ∧ (∀ row, row ∈ integrations p →
              owned_by integrationId userId row = false →
              row ∈ integrations p')
    ∧ (List.filter (owned_by integrationId userId) (integrations p) = [] →
       integrations p' = integrations p).
Proof.
  destruct (deleteIntegration_run integrationId userId p)
    as (b & p' & Hrun & Hb & Htable).
  exists b, p'. split; [done|]. split; [done|]. rewrite Htable.
  destruct b.
  - split; [done|]. split; [intros Hfail; destruct Hfail; by apply Hb|].
    split; [apply filter_not_owned_elem|apply filter_not_owned_none].
  - split; [intros Hq; apply Hb in Hq; discriminate|]. done.
Qed.

(** X8. The [DELETE] handler of an integration answers 401 without a session
    user and sends no query then. For a session user it answers 200 with
    [{success: true}] whenever the delete query succeeds, even when no
    integration of that user has the id, and 404 when the query fails; it
    never answers 500 and never removes a row of another user. *)
Theorem DELETE_reports_success_without_a_match
    (user : option string) (integrationId : string) (p : Proc) :
  ∃ r p',
    DELETE user integrationId p = (Returned r, p')
    ∧ (user = None → r = unauthorized ∧ p' = p)
    ∧ (∀ u, user = Some u →
            (query_succeeds p →
             r = {| status := 200; json := VObj [("success", VBool true)] |})
            ∧ (¬ query_succeeds p →
               r = {| status := 404;
                      json := VObj [("error",
                                     VStr "Integration not found")] |})
            ∧ (∀ row, row ∈ integrations p → row_user_id row ≠ u →
                      row ∈ integrations p')).
Proof.
  unfold DELETE, try_catch. destruct user as [u|].
  - destruct (deleteIntegration_run integrationId u p)
      as (b & p' & Hrun & Hb & Htable).
    unfold bind. rewrite Hrun.
    assert (∀ row, row ∈ integrations p → row_user_id row ≠ u →
                   row ∈ integrations p') as Hkept.
    { intros row Hin Hu. rewrite Htable. destruct b; [|done].
      apply filter_not_owned_elem; [done|].
      unfold owned_by. apply andb_false_iff. right.
      by apply String.eqb_neq. }
    destruct b; simpl.
    + eexists _, _. split; [reflexivity|]. split; [done|].
      intros u' [= <-]. split; [done|]. split; [|done].
      intros Hfail. destruct Hfail. by apply Hb.
    + eexists _, _. split; [reflexivity|]. split; [done|].
      intros u' [= <-]. split; [|split; [done|done]].
      intros Hq. apply Hb in Hq. discriminate.
  - simpl. eexists _, _. split; [reflexivity|]. split; [done|]. by intros u.
Qed.

(** *** The [GET] handler *)

Lemma getIntegration_run gcm_open JSON_parse integrationId userId p :
  getIntegration gcm_open JSON_parse integrationId userId p
  = (Returned
       match query_fates p with
       | QuerySucceeds :: _ =>
           match List.filter (owned_by integrationId userId)
                             (integrations p) with
           | [row] =>
               Some (integration_of row
                       (read_config gcm_open JSON_parse p row))
           | _ => None
           end
       | _ => None
       end,
     (select_integrations (owned_by integrationId userId) p).2).
Proof.
  unfold getIntegration. rewrite read_one_row.
  change (λ row, String.eqb (row_id row) integrationId
                 && String.eqb (row_user_id row) userId)
    with (owned_by integrationId userId).
  f_equal. f_equal. unfold select_integrations.
  destruct (query_fates p) as [|[msg|] rest]; try done. simpl.
  by destruct (List.filter _ _) as [|row [|row' rows]].
Qed.

(** X9. The [GET] handler of an integration never throws and never changes
    the table. Without a session user it answers 401 and sends no query.
    When no stored row has both the id asked for and the session user, the
    answer is the 404 of a missing integration, so an integration of
    somebody else cannot be told from one that does not exist. An answer of
    200 is the one row with that id and that user: its name, type, dates
    and its config as [decryptConfig] reads it. *)
Theorem GET_shows_an_integration_to_its_owner_only
    (gcm_open :
       list byte → list byte → list byte → list byte → option (list byte))
    (JSON_parse : string → Outcome Value)
    (toISOString : string → Outcome string)
    (user : option string) (integrationId : string) (p : Proc) :
  ∃ r p',
    GET gcm_open JSON_parse toISOString user integrationId p
    = (Returned r, p')
    ∧ integrations p' = integrations p
    ∧ (user = None → r = unauthorized ∧ p' = p)
    ∧ (∀ u, user = Some u →
            List.filter (owned_by integrationId u) (integrations p) = [] →
            r = {| status := 404;
                   json := VObj [("error", VStr "Integration not found")] |})
    ∧ (status r = 200%nat →
       ∃ u row created updated,
         user = Some u
         ∧ List.filter (owned_by integrationId u) (integrations p) = [row]
         ∧ toISOString (row_created_at row) = Returned created
         ∧ toISOString (row_updated_at row) = Returned updated
         ∧ json r
           = VObj [("id", VStr integrationId);
                   ("name", VStr (row_name row));
                   ("type", VStr (row_type row));
                   ("config", read_config gcm_open JSON_parse p row);
                   ("createdAt", VStr created);
                   ("updatedAt", VStr updated)]).
Proof.
  unfold GET, try_catch. destruct user as [u|].
  2: { simpl. eexists _, _. split; [reflexivity|]. split; [done|].
       split; [done|]. split; [by intros u|]. by intros [=]. }
  unfold bind at 1. rewrite getIntegration_run.
  pose proof (select_integrations_table (owned_by integrationId u) p)
    as Htable.
  destruct (select_integrations (owned_by integrationId u) p) as [o p1].
  simpl in Htable. simpl snd.
  destruct (query_fates p) as [|[msg|] rest].
  1,2: simpl; eexists _, _; (split; [reflexivity|]); (split; [done|]);
       (split; [done|]); (split; [by intros u' [= <-]|]); by intros [=].
  destruct (List.filter (owned_by integrationId u) (integrations p))
    as [|row [|row' rows]] eqn:Hrows.
  1,3: simpl; eexists _, _; (split; [reflexivity|]); (split; [done|]);
       (split; [done|]); (split; [by intros u' [= <-]|]); by intros [=].
  destruct (filter_singleton_elem _ _ _ Hrows) as [_ Hown].
  apply andb_true_iff in Hown as [Hid _]. apply String.eqb_eq in Hid.
  unfold bind, lift_outcome. simpl.
  destruct (toISOString (row_created_at row)) as [created|e] eqn:Hc.
  2: { eexists _, _. split; [reflexivity|]. split; [done|]. split; [done|].
       split; [intros u' [= <-] Hnone; congruence|]. by intros [=]. }
  destruct (toISOString (row_updated_at row)) as [updated|e] eqn:Hu.
  2: { eexists _, _. split; [reflexivity|]. split; [done|]. split; [done|].
       split; [intros u' [= <-] Hnone; congruence|]. by intros [=]. }
  eexists _, _. split; [reflexivity|]. split; [done|]. split; [done|].
  split; [intros u' [= <-] Hnone; congruence|]. intros _. simpl.
  exists u, row, created, updated. rewrite Hid. done.
Qed.

(** *** The ids a workflow refers to *)

Lemma unique_NoDup seen ids : NoDup (unique seen ids).
Proof.
  revert seen. induction ids as [|i ids IH]; intros seen; simpl.
  - constructor.
  - destruct (bool_decide (i ∈ seen)); [apply IH|].
    constructor; [|apply IH].
    rewrite unique_elem. intros [_ Hnot]. apply Hnot. by left.
Qed.

Lemma unique_sublist seen ids : sublist (unique seen ids) ids.
Proof.
  revert seen. induction ids as [|i ids IH]; intros seen; simpl.
  - constructor.
  - destruct (bool_decide (i ∈ seen)); by constructor.
Qed.

Lemma unique_NoDup_id seen ids :
  NoDup ids → (∀ x, x ∈ ids → x ∉ seen) → unique seen ids = ids.
Proof.
  revert seen. induction ids as [|i ids IH]; intros seen Hnd Hseen; [done|].
  apply NoDup_cons in Hnd as [Hi Hnd]. simpl.
  rewrite bool_decide_eq_false_2 by (apply Hseen; by left).
  f_equal. apply IH; [done|].
  intros x Hx Hin. apply elem_of_cons in Hin as [->|Hin]; [done|].
  apply (Hseen x); [by right|done].
Qed.

(** Of two ids that [unique] lists, the one listed first occurs before
    every occurrence of the other. *)
Lemma unique_omap_order {A} (f : A → option string) (seen : list string)
    (nodes : list A) (i j : nat) (a b : string) :
  unique seen (omap f nodes) !! i = Some a →
  unique seen (omap f nodes) !! j = Some b →
  (i < j)%nat →
  ∃ k node,
    nodes !! k = Some node ∧ f node = Some a
    ∧ ∀ k' node', nodes !! k' = Some node' → f node' = Some b → (k < k')%nat.
Proof.
  revert seen i j.
  induction nodes as [|node nodes IH]; intros seen i j Hi Hj Hlt; [done|].
  assert (∀ seen' i' j',
            unique seen' (omap f nodes) !! i' = Some a →
            unique seen' (omap f nodes) !! j' = Some b →
            (i' < j')%nat →
            (∀ x, f node = Some x → x ∈ seen') →
                   ∃ k node0,
                     (node :: nodes) !! k = Some node0 ∧ f node0 = Some a
                     ∧ ∀ k' node', (node :: nodes) !! k' = Some node' →
                                   f node' = Some b → (k < k')%nat) as Hskip.
  { intros seen' i' j' Hi' Hj' Hlt' Hseen.
    destruct (IH seen' i' j' Hi' Hj' Hlt') as (k & node0 & Hk & Ha & Hfirst).
    exists (S k), node0. split; [done|]. split; [done|].
    intros [|k'] node' Hk' Hb;
      [|simpl in Hk'; specialize (Hfirst k' node' Hk' Hb); lia].
    injection Hk' as <-.
    apply list_elem_of_lookup_2, unique_elem in Hj' as [_ Hnot].
    by destruct (Hnot (Hseen b Hb)). }
  simpl in Hi, Hj. destruct (f node) as [x|] eqn:Hx.
  2: { apply (Hskip seen i j); [done|done|done|]. by intros x [=]. }
  simpl in Hi, Hj.
  destruct (bool_decide_reflect (x ∈ seen)) as [Hin|Hnotin].
  { apply (Hskip seen i j); [done|done|done|]. by intros x' [= <-]. }
  destruct j as [|j]; [lia|]. simpl in Hj.
  destruct i as [|i]; simpl in Hi.
  - injection Hi as <-. exists 0%nat, node. split; [done|]. split; [done|].
    intros [|k'] node' Hk' Hb; [|lia].
    injection Hk' as <-. rewrite Hx in Hb. injection Hb as <-.
    apply list_elem_of_lookup_2, unique_elem in Hj as [_ Hnot].
    destruct Hnot. by left.
  - apply (Hskip (x :: seen) i j); [done|done|lia|].
    intros x' [= <-]. by left.
Qed.

(** X10. [extractIntegrationIds] lists each integration id that a node
    names once, in the order in which the nodes first name them: an id is
    in the result exactly when the [integrationId] of the [config] of the
    [data] of some node is that string and it is not empty; the result has
    no duplicates; and of two ids in it, the earlier one is named by a node
    that comes before every node that names the later one. *)
Theorem extractIntegrationIds_lists_each_id_once
    (nodes : list WorkflowNodeForValidation) :
  NoDup (extractIntegrationIds nodes)
  ∧ (∀ id, id ∈ extractIntegrationIds nodes
           ↔ ∃ node, node ∈ nodes ∧ names_integration node id)
  ∧ (∀ i j a b,
       extractIntegrationIds nodes !! i = Some a →
       extractIntegrationIds nodes !! j = Some b →
       (i < j)%nat →
       ∃ k node,
         nodes !! k = Some node ∧ names_integration node a
         ∧ ∀ k' node', nodes !! k' = Some node' →
                       names_integration node' b → (k < k')%nat)
  ∧ ("" ∉ extractIntegrationIds nodes)
  ∧ sublist (extractIntegrationIds nodes) (omap node_integrationId nodes)
  ∧ (NoDup (omap node_integrationId nodes) →
     extractIntegrationIds nodes = omap node_integrationId nodes).
Proof.
  split; [apply unique_NoDup|].
  split; [apply extractIntegrationIds_names|].
  split; [|split; [|split; [apply unique_sublist|]]].
  - intros i j a b Hi Hj Hlt.
    destruct (unique_omap_order node_integrationId [] nodes i j a b Hi Hj Hlt)
      as (k & node & Hk & Ha & Hfirst).
    exists k, node. split; [done|].
    split; [by apply node_integrationId_names|].
    intros k' node' Hk' Hb. apply (Hfirst k' node' Hk').
    by apply node_integrationId_names.
  - rewrite extractIntegrationIds_names.
    by intros (node & _ & d & c & _ & _ & _ & Hne).
  - intros Hnd. apply unique_NoDup_id; [done|].
    intros x _. apply not_elem_of_nil.
Qed.

End IntegrationWritesFacts.
(** ** More on the log store *)

Module LogStoreFacts.
Import WorkflowLogging.

Lemma has_id_false_map id (patch : LogRow → LogRow) rows :
  has_id id rows = false →
  map (λ r, if String.eqb (row_id r) id then patch r else r) rows = rows.
Proof.
  induction rows as [|r rows IH]; [done|].
  simpl. intros H. apply orb_false_iff in H as [Hr Hrows].
  by rewrite Hr, IH.
Qed.

(** X11. A step that is started and then completed with what the start
    returned leaves one finished row: when the database accepts both
    queries and the id it draws is new, [logStepStartDb] returns that id and
    the current time, and [logStepCompleteDb], called [ms] milliseconds
    later with that id and time, turns the new row from running into the
    given status, with [ms] as its duration and the completion time set.
    No other row changes, and the node has no more running rows than
    before. *)
Theorem completed_step_records_the_elapsed_time
    (params : LogStepStartParams) (db : Db) (uuid u2 : string)
    (rest : list DbFate) (ms : Z) (status : CompletionStatus)
    (output : option Value) (error : option string) :
  db_fates db = DbAccept uuid :: DbAccept u2 :: rest →
  has_id uuid (logs db) = false →
  ∃ db1 db2,
    logStepStartDb params db
    = (Returned {| result_logId := uuid; result_startTime := db_clock db |},
       db1)
    ∧ logStepCompleteDb
        {| complete_logId := uuid; complete_startTime := db_clock db;
           complete_status := status; complete_output := output;
           complete_error := error |}
        (run_call (Tick ms) db1)
      = (Returned tt, db2)
    ∧ logs db2
      = logs db
        ++ [ {| row_id := uuid;
                row_execution_id := start_executionId params;
                row_node_id := start_nodeId params;
                row_node_name := start_nodeName params;
                row_node_type := start_nodeType params;
                row_status := status_column status;
                row_input := start_input params;
                row_output := output;
                row_error := error;
                row_started_at := db_clock db;
                row_completed_at := Some (db_clock db + ms);
                row_duration := Some ms |} ]
    ∧ running_rows (start_executionId params) (start_nodeId params) db2
      = running_rows (start_executionId params) (start_nodeId params) db.
Proof.
  intros Hfates Hfresh.
  eexists _, _. split; [|split; [|split]].
  - unfold logStepStartDb, bind, Db_now, insert_log. simpl.
    rewrite Hfates, Hfresh. reflexivity.
  - unfold logStepCompleteDb, bind, Db_now, update_log. simpl. reflexivity.
  - simpl. rewrite map_app, has_id_false_map by done. simpl.
    rewrite String.eqb_refl.
    replace (db_clock db + ms - db_clock db) with ms by lia.
    by destruct output, error.
  - unfold running_rows. simpl.
    rewrite map_app, has_id_false_map by done. simpl.
    rewrite String.eqb_refl, filter_app, filter_cons_False, filter_nil.
    + by rewrite app_nil_r.
    + simpl. intros (_ & _ & Hrun). by destruct status.
Qed.

Lemma completed_step_records_the_elapsed_time_witness :
  ∃ db1 db2,
    logStepStartDb (sample_start "node-1") sample_db
    = (Returned {| result_logId := "log-1"; result_startTime := 0 |}, db1)
    ∧ logStepCompleteDb
        {| complete_logId := "log-1"; complete_startTime := 0;
           complete_status := StSuccess; complete_output := Some (VObj []);
           complete_error := None |}
        (run_call (Tick 250) db1)
      = (Returned tt, db2)
    ∧ logs db2
      = [ {| row_id := "log-1";
             row_execution_id := "exec-1";
             row_node_id := "node-1";
             row_node_name := "Send email";
             row_node_type := "action";
             row_status := RowSuccess;
             row_input := Some (VObj [("to", VStr "a@example.com")]);
             row_output := Some (VObj []);
             row_error := None;
             row_started_at := 0;
             row_completed_at := Some 250;
             row_duration := Some 250 |} ]
    ∧ running_rows "exec-1" "node-1" db2 = [].
Proof.
  apply (completed_step_records_the_elapsed_time (sample_start "node-1")
           sample_db "log-1" "log-2" [DbAccept "log-3"] 250 StSuccess
           (Some (VObj [])) None); reflexivity.
Defined.



End LogStoreFacts.

(** ** Completing an execution *)

Module WorkflowExecutionsFacts.
Import WorkflowLogging WorkflowExecutions.

Lemma logWorkflowCompleteDb_run params db :
  logWorkflowCompleteDb params db
  = match exec_fates db with
    | [] => (Thrown (JsError "connection lost"), db)
    | DbError msg :: rest =>
        (Thrown (JsError msg),
         {| exec_clock := exec_clock db; exec_fates := rest;
            executions := executions db |})
    | DbAccept _ :: rest =>
        (Returned tt,
         {| exec_clock := exec_clock db; exec_fates := rest;
            executions :=
              map (λ r, if String.eqb (exec_id r) (wf_executionId params)
                        then completed_execution params (exec_clock db) r
                        else r)
                  (executions db) |})
    end.
Proof.
  unfold logWorkflowCompleteDb, bind, Exec_now, update_execution.
  by destruct (exec_fates db) as [|[msg|uuid] rest].
Qed.


(** X14. Nothing makes a finished execution final, and a later completion
    does not wipe an earlier one: when an execution is completed twice, the
    second completion replaces the status, the completion time and the
    duration, and the output and the error where it gives them; where it
    gives none, what the first completion wrote stays. An execution that is
    completed as failed and then as succeeded without an error ends with
    status success and the error text of the failure. *)
Theorem later_completion_keeps_what_it_does_not_give
    (first second : LogWorkflowCompleteParams) (db : ExecDb) (ms : Z)
    (u1 u2 : string) (rest : list DbFate) :
  wf_executionId first = wf_executionId second →
  exec_fates db = DbAccept u1 :: DbAccept u2 :: rest →
  ∃ db1 db2,
    logWorkflowCompleteDb first db = (Returned tt, db1)
    ∧ logWorkflowCompleteDb second (later ms db1) = (Returned tt, db2)
    ∧ (∀ i r, executions db !! i = Some r →
              exec_id r ≠ wf_executionId second →
              executions db2 !! i = Some r)
    ∧ (∀ i r, executions db !! i = Some r →
              exec_id r = wf_executionId second →
              ∃ r',
                executions db2 !! i = Some r'
                ∧ exec_status r' = status_column (wf_status second)
                ∧ exec_completed_at r' = Some (exec_clock db + ms)
                ∧ exec_duration r'
                  = Some (exec_clock db + ms - wf_startTime second)
                ∧ (∀ output, wf_output second = Some output →
                             exec_output r' = Some output)
                ∧ (∀ output, wf_output second = None →
                             wf_output first = Some output →
                             exec_output r' = Some output)
                ∧ (wf_output second = None → wf_output first = None →
                   exec_output r' = exec_output r)
                ∧ (∀ error, wf_error second = Some error →
                            exec_error r' = Some error)
                ∧ (∀ error, wf_error second = None →
                            wf_error first = Some error →
                            exec_error r' = Some error)
                ∧ (wf_error second = None → wf_error first = None →
                   exec_error r' = exec_error r)).
Proof.
  intros Hid Hfates.
  eexists _, _.
  split; [rewrite logWorkflowCompleteDb_run, Hfates; reflexivity|].
  split; [rewrite logWorkflowCompleteDb_run; reflexivity|].
  simpl. rewrite Hid. split.
  - intros i r Hi Hne. rewrite !list_lookup_fmap, Hi. simpl.
    apply String.eqb_neq in Hne. by rewrite Hne, Hne.
  - intros i r Hi Heq. rewrite !list_lookup_fmap, Hi. simpl.
    apply String.eqb_eq in Heq. rewrite Heq. simpl. rewrite Heq.
    eexists. split; [reflexivity|]. simpl.
    do 3 (split; [done|]).
    split; [by intros output ->|].
    split; [by intros output -> ->|].
    split; [by intros -> ->|].
    split; [by intros error ->|].
    split; [by intros error -> ->|by intros -> ->].
Qed.

Lemma later_completion_keeps_what_it_does_not_give_witness :
  ∃ db2,
    (logWorkflowCompleteDb
       {| wf_executionId := "exec-1"; wf_status := StSuccess;
          wf_output := Some (VObj []); wf_error := None;
          wf_startTime := 100 |}
       (later 50
          (logWorkflowCompleteDb
             {| wf_executionId := "exec-1"; wf_status := StError;
                wf_output := None; wf_error := Some "timeout";
                wf_startTime := 100 |} sample_executions).2)).2 = db2
    ∧ ∃ r',
        executions db2 !! 0%nat = Some r'
        ∧ exec_status r' = RowSuccess
        ∧ exec_output r' = Some (VObj [])
        ∧ exec_error r' = Some "timeout".
Proof.
  destruct (later_completion_keeps_what_it_does_not_give
              {| wf_executionId := "exec-1"; wf_status := StError;
                 wf_output := None; wf_error := Some "timeout";
                 wf_startTime := 100 |}
              {| wf_executionId := "exec-1"; wf_status := StSuccess;
                 wf_output := Some (VObj []); wf_error := None;
                 wf_startTime := 100 |}
              sample_executions 50 "" "" [] eq_refl eq_refl)
    as (db1 & db2 & Hfirst & Hsecond & _ & Hrow).
  exists db2. rewrite Hfirst. simpl. rewrite Hsecond. split; [done|].
  destruct (Hrow 0%nat _ eq_refl eq_refl)
    as (r' & Hr' & Hstatus & _ & _ & Houtput & _ & _ & _ & Herror & _).
  exists r'. split; [done|]. split; [done|].
  split; [by apply Houtput|by apply Herror].
Defined.

End WorkflowExecutionsFacts.
(** ** More on the logging wrappers *)

Module WrapperFacts.
Import ConditionStep.

(** What the start of a log sends and returns, case by case. *)
Lemma logStepStart_sent redact context input w :
  ∃ info w1 starts,
    StepLogging.logStepStart redact context input w = (Returned info, w1)
    ∧ clock w1 = clock w
    ∧ wire w1 = wire w ++ starts
    ∧ (contextExecutionId context = None →
       w1 = w ∧ starts = [] ∧ logId info = "")
    ∧ (∀ execId, contextExecutionId context = Some execId →
         ∃ ctx, context = Some ctx
                ∧ starts = [StartReq execId (nodeId ctx) (nodeName ctx)
                                     (nodeType ctx) (redact input)])
    ∧ (logId info ≠ "" →
       ∃ r rest body,
         network w = Resolved r :: rest
         ∧ ok r = true
         ∧ json_body r = Some body
         ∧ body_logId body = Some (logId info)
         ∧ startTime info = or_number (body_startTime body) (clock w)).
Proof.
  unfold StepLogging.logStepStart.
  destruct (contextExecutionId context) as [execId|] eqn:Hctx;
    [destruct context as [ctx|]; [|done]|].
  - unfold try_catch, bind, fetch, response_json, Date_now, ret, throw,
      console_error.
    destruct (network w) as [|[|[[] [[[id|] t]|]]] rest]; simpl;
      eexists _, _, _; (split; [reflexivity|]); simpl;
      (split; [reflexivity|]); (split; [reflexivity|]);
      (split; [done|]);
      (split; [intros e [= <-]; by eexists|]);
      try done.
    intros _. eexists _, _, _. done.
  - eexists _, _, []. split; [reflexivity|]. simpl.
    rewrite app_nil_r. do 2 (split; [done|]). split; [done|].
    split; [done|]. done.
Qed.

(** X15. [conditionStep] returns [{condition}] with the condition it was
    given, whatever the network does to its log requests; it never throws
    and never advances the clock. It sends at most a start and a completion
    request, the completion is never one with status error, and without an
    execution id in the context it sends nothing at all. *)
Theorem conditionStep_returns_its_condition
    (redact : Value → Value) (input : ConditionInput) (w : World) :
  ∃ w' sent,
    conditionStep redact input w
    = (Returned (VObj [("condition", VBool (condition input))]), w')
    ∧ clock w' = clock w
    ∧ wire w' = wire w ++ sent
    ∧ (length sent ≤ 2)%nat
    ∧ Forall (λ req, is_error_completion req = false) sent
    ∧ (contextExecutionId (_context input) = None → w' = w).
Proof.
  unfold conditionStep.
  destruct (logStepStart_sent redact (_context input)
              (ConditionInput_json input) w)
    as (info & w1 & starts & Hstart & Hclock & Hwire & Hnone & Hsome & _).
  unfold StepLogging.withStepLogging, bind at 1. rewrite Hstart.
  unfold try_catch, bind at 1, ret at 1. simpl isErrorResult. cbv iota.
  destruct (logStepComplete_total redact info StSuccess
              (VObj [("condition", VBool (condition input))]) None w1)
    as (w2 & Hcomplete & Hwire2).
  unfold bind. rewrite Hcomplete. unfold ret.
  assert (clock w2 = clock w1) as Hclock2.
  { revert Hcomplete. unfold StepLogging.logStepComplete.
    destruct (String.eqb (logId info) ""); [by intros [= <-]|].
    unfold try_catch, bind, fetch, ret, console_error.
    destruct (network w1) as [|[|r] rest]; by intros [= <-]. }
  eexists w2, _. split; [reflexivity|].
  split; [congruence|].
  split; [rewrite Hwire2, Hwire, <- app_assoc; reflexivity|].
  destruct (contextExecutionId (_context input)) as [execId|] eqn:Hctx.
  - destruct (Hsome execId eq_refl) as (ctx & _ & ->).
    split; [destruct (String.eqb (logId info) ""); simpl; lia|].
    split; [|done].
    destruct (String.eqb (logId info) ""); repeat constructor.
  - destruct (Hnone eq_refl) as (-> & -> & Hid).
    revert Hcomplete Hwire2. unfold StepLogging.logStepComplete.
    rewrite Hid. simpl. intros [= <-] _.
    split; [lia|]. split; [constructor|done].
Qed.

(** X16. The wrapper that is applied around a step function from outside
    ([stepHandler]) and the one that is called inside a step
    ([withStepLogging]) are the same function of the step, the input and
    the context: over every world they give the same outcome and leave the
    same requests, console output and clock. So are their helpers for the
    start and the completion of a log. *)
Theorem stepHandler_behaves_as_withStepLogging
    (redact : Value → Value) (stepFn : Value → M Value) (input : Value)
    (context : StepContext) (w : World) :
  StepHandler.stepHandler redact stepFn input context w
  = StepLogging.withStepLogging redact (Some context) input (stepFn input) w
  ∧ StepHandler.logStepStart redact context input w
    = StepLogging.logStepStart redact (Some context) input w
  ∧ (∀ info status output error,
       StepHandler.logStepComplete redact (logId info) (startTime info)
         status output error w
       = StepLogging.logStepComplete redact info status output error w).
Proof.
  split; [apply stepHandler_withStepLogging|].
  split; [apply stepHandler_logStepStart|].
  intros. apply stepHandler_logStepComplete.
Qed.

(** X17. The log requests of a wrapped step: at most one start request goes
    out before the step and at most one completion request after it;
    without an execution id in the context none goes out. A completion is
    sent only when the start request was answered ok with a non-empty log
    id, and it carries that id and the start time of that answer (the
    clock when the answer has none). *)
Theorem completion_carries_what_the_start_returned
    (redact : Value → Value) (context : option StepContext) (input : Value)
    (stepLogic : M Value) (w0 : World) :
  ∃ info w1 starts completes,
    StepLogging.logStepStart redact context input w0 = (Returned info, w1)
    ∧ wire w1 = wire w0 ++ starts
    ∧ wire (StepLogging.withStepLogging redact context input stepLogic w0).2
      = wire (stepLogic w1).2 ++ completes
    ∧ (length starts ≤ 1)%nat
    ∧ (length completes ≤ 1)%nat
    ∧ (contextExecutionId context = None → starts = [] ∧ completes = [])
    ∧ (completes ≠ [] →
       ∃ r rest body id,
         starts ≠ []
         ∧ network w0 = Resolved r :: rest
         ∧ ok r = true
         ∧ json_body r = Some body
         ∧ body_logId body = Some id
         ∧ id ≠ ""
         ∧ ∃ status error,
             completes
             = [CompleteReq id (or_number (body_startTime body) (clock w0))
                            status (redact (output_of (stepLogic w1).1))
                            error]).
Proof.
  destruct (logStepStart_sent redact context input w0)
    as (info & w1 & starts & Hstart & Hclock & Hwire & Hnone & Hsome & Hid).
  destruct (withStepLogging_records redact context input stepLogic w0 info w1
              Hstart) as (status & error & _ & Hwire3 & _).
  exists info, w1, starts. eexists. split; [done|]. split; [done|].
  split; [exact Hwire3|].
  destruct (String.eqb_spec (logId info) "") as [Hempty|Hfull].
  - split.
    { destruct (contextExecutionId context) as [execId|].
      - destruct (Hsome execId eq_refl) as (ctx & _ & ->). simpl. lia.
      - destruct (Hnone eq_refl) as (_ & -> & _). simpl. lia. }
    split; [simpl; lia|]. split; [|done].
    intros Hctx. by destruct (Hnone Hctx) as (_ & -> & _).
  - destruct (Hid Hfull) as (r & rest & body & Hnet & Hok & Hbody & Hlog & Ht).
    destruct (contextExecutionId context) as [execId|] eqn:Hctx.
    2: { by destruct (Hnone eq_refl) as (_ & _ & ?). }
    destruct (Hsome execId eq_refl) as (ctx & _ & ->).
    split; [simpl; lia|]. split; [simpl; lia|]. split; [done|].
    intros _. exists r, rest, body, (logId info).
    split; [done|]. do 4 (split; [done|]). split; [done|].
    exists status, error. by rewrite Ht.
Qed.

Lemma withStepLogging_exact redact context input stepLogic w0 info w1 o w2 :
  StepLogging.logStepStart redact context input w0 = (Returned info, w1) →
  stepLogic w1 = (o, w2) →
  StepLogging.withStepLogging redact context input stepLogic w0
  = (o,
     (match o with
      | Returned result =>
          if isErrorResult result then
            StepLogging.logStepComplete redact info StError result
              (Some (errorOrDefault result)) w2
          else StepLogging.logStepComplete redact info StSuccess result
                 None w2
      | Thrown e =>
          StepLogging.logStepComplete redact info StError VUndefined
            (Some (VStr (errorMessageOf e))) w2
      end).2).
Proof.
  intros Hstart Hstep.
  unfold StepLogging.withStepLogging, bind at 1. rewrite Hstart.
  unfold try_catch, bind at 1. rewrite Hstep.
  destruct o as [result|e].
  - destruct (isErrorResult result).
    + destruct (logStepComplete_total redact info StError result
                  (Some (errorOrDefault result)) w2) as (w3 & Hc & _).
      unfold bind, ret. by rewrite !Hc.
    + destruct (logStepComplete_total redact info StSuccess result None w2)
        as (w3 & Hc & _).
      unfold bind, ret. by rewrite !Hc.
  - destruct (logStepComplete_total redact info StError VUndefined
                (Some (VStr (errorMessageOf e))) w2) as (w3 & Hc & _).
    unfold bind, throw. by rewrite !Hc.
Qed.

(** X18. What is recorded as the error of a failed step, when the log has
    an id. A step that throws an [Error] is logged with status error and
    the message of that error, a step that throws anything else with
    [Unknown error], and in both cases with an absent output, and the
    thrown value is rethrown as it is. A step that returns an object whose
    [success] is [false] is logged with status error and the [error] of
    that object when that is truthy, and with [Step execution failed]
    otherwise. *)
Theorem failed_step_is_logged_with_its_error_text
    (redact : Value → Value) (context : option StepContext) (input : Value)
    (stepLogic : M Value) (w0 : World) (info : LogInfo) (w1 : World) :
  StepLogging.logStepStart redact context input w0 = (Returned info, w1) →
  logId info ≠ "" →
  (∀ message w2,
     stepLogic w1 = (Thrown (JsError message), w2) →
     (StepLogging.withStepLogging redact context input stepLogic w0).1
     = Thrown (JsError message)
     ∧ wire (StepLogging.withStepLogging redact context input stepLogic
               w0).2
       = wire w2 ++ [CompleteReq (logId info) (startTime info) StError
                                 (redact VUndefined)
                                 (Some (VStr message))])
  ∧ (∀ v w2,
       stepLogic w1 = (Thrown (JsThrown v), w2) →
       (StepLogging.withStepLogging redact context input stepLogic w0).1
       = Thrown (JsThrown v)
       ∧ wire (StepLogging.withStepLogging redact context input stepLogic
                 w0).2
         = wire w2 ++ [CompleteReq (logId info) (startTime info) StError
                                   (redact VUndefined)
                                   (Some (VStr "Unknown error"))])
  ∧ (∀ props w2,
       stepLogic w1 = (Returned (VObj props), w2) →
       assoc_get "success" props = Some (VBool false) →
       (StepLogging.withStepLogging redact context input stepLogic w0).1
       = Returned (VObj props)
       ∧ wire (StepLogging.withStepLogging redact context input stepLogic
                 w0).2
         = wire w2
           ++ [CompleteReq (logId info) (startTime info) StError
                 (redact (VObj props))
                 (Some match assoc_get "error" props with
                       | Some e =>
                           if truthy e then e
                           else VStr "Step execution failed"
                       | None => VStr "Step execution failed"
                       end)]).
Proof.
  intros Hstart Hid.
  assert (∀ status output error w2,
            wire (StepLogging.logStepComplete redact info status output
                    error w2).2
            = wire w2 ++ [CompleteReq (logId info) (startTime info) status
                                      (redact output) error]) as Hcomplete.
  { intros status output error w2.
    destruct (logStepComplete_total redact info status output error w2)
      as (w3 & Hc & Hw).
    rewrite Hc. simpl. rewrite Hw.
    by apply String.eqb_neq in Hid as ->. }
  split; [|split].
  - intros message w2 Hstep.
    rewrite (withStepLogging_exact redact context input stepLogic w0 info w1
               _ w2 Hstart Hstep).
    split; [done|]. simpl. apply Hcomplete.
  - intros v w2 Hstep.
    rewrite (withStepLogging_exact redact context input stepLogic w0 info w1
               _ w2 Hstart Hstep).
    split; [done|]. simpl. apply Hcomplete.
  - intros props w2 Hstep Hsuccess.
    rewrite (withStepLogging_exact redact context input stepLogic w0 info w1
               _ w2 Hstart Hstep).
    split; [done|].
    assert (isErrorResult (VObj props) = true) as ->
      by (apply isErrorResult_spec; eauto).
    simpl. apply Hcomplete.
Qed.

Lemma failed_step_is_logged_with_its_error_text_witness :
  (StepLogging.withStepLogging sample_redact (Some sample_context)
     sample_input throwing_step sample_world).1
  = Thrown (JsError "boom")
  ∧ wire (StepLogging.withStepLogging sample_redact (Some sample_context)
            sample_input throwing_step sample_world).2
    = [StartReq "exec-1" "node-1" "Send email" "action"
         (sample_redact sample_input)]
      ++ [CompleteReq "log-1" 990 StError (sample_redact VUndefined)
                      (Some (VStr "boom"))].
Proof.
  refine (proj1 (failed_step_is_logged_with_its_error_text sample_redact
                   (Some sample_context) sample_input throwing_step
                   sample_world {| logId := "log-1"; startTime := 990 |}
                   {| clock := 1000;
                      network := [Resolved {| ok := true;
                                              json_body := None |}];
                      wire := [StartReq "exec-1" "node-1" "Send email"
                                 "action" (sample_redact sample_input)];
                      console := [] |} eq_refl _) "boom" _ eq_refl).
  discriminate.
Defined.

End WrapperFacts.
(** ** Objects, sanitized nodes and duplicates *)

Module JsFacts.
Import Integrations IntegrationsFacts Js.

(** *** Setting and removing properties *)

Lemma field_obj_set k v props : field k (obj_set k v props) = v.
Proof.
  unfold field. induction props as [|[k' v'] props IH]; simpl.
  - by rewrite String.eqb_refl.
  - destruct (String.eqb k k') eqn:Hk; simpl; by rewrite Hk.
Qed.

Lemma field_obj_set_ne k k' v props :
  k' ≠ k → field k' (obj_set k v props) = field k' props.
Proof.
  intros Hne. unfold field. induction props as [|[k0 v0] props IH]; simpl.
  - by apply String.eqb_neq in Hne as ->.
  - destruct (String.eqb_spec k k0) as [->|Hk]; simpl.
    + by apply String.eqb_neq in Hne as ->.
    + destruct (String.eqb k' k0); [done|]. exact IH.
Qed.

Lemma field_obj_without k props : field k (obj_without k props) = VUndefined.
Proof.
  unfold field, obj_without. induction props as [|[k' v'] props IH]; [done|].
  simpl. destruct (String.eqb_spec k' k) as [->|Hk]; simpl; [done|].
  assert (String.eqb k k' = false) as ->
    by (apply String.eqb_neq; congruence).
  exact IH.
Qed.

Lemma field_obj_without_ne k k' props :
  k' ≠ k → field k' (obj_without k props) = field k' props.
Proof.
  intros Hne. unfold field, obj_without.
  induction props as [|[k0 v0] props IH]; [done|].
  simpl. destruct (String.eqb_spec k0 k) as [->|Hk]; simpl.
  - by apply String.eqb_neq in Hne as ->.
  - destruct (String.eqb k' k0); [done|]. exact IH.
Qed.

Lemma obj_set_twice k v w props :
  obj_set k v (obj_set k w props) = obj_set k v props.
Proof.
  induction props as [|[k' v'] props IH]; simpl.
  - by rewrite String.eqb_refl.
  - destruct (String.eqb k k') eqn:Hk; simpl; rewrite Hk; [done|].
    by rewrite IH.
Qed.

Lemma obj_without_twice k props :
  obj_without k (obj_without k props) = obj_without k props.
Proof.
  unfold obj_without. induction props as [|[k' v'] props IH]; [done|].
  simpl. destruct (negb (String.eqb k' k)) eqn:Hk; simpl; [|done].
  by rewrite Hk, IH.
Qed.

Lemma obj_set_keys k v props :
  map fst (obj_set k v props)
  = if bool_decide (k ∈ map fst props) then map fst props
    else map fst props ++ [k].
Proof.
  induction props as [|[k' v'] props IH]; [done|].
  simpl. destruct (String.eqb_spec k k') as [->|Hk]; simpl.
  - by rewrite bool_decide_eq_true_2 by (by left).
  - rewrite IH. destruct (bool_decide_reflect (k ∈ map fst props)) as [Hin|Hin].
    + by rewrite bool_decide_eq_true_2 by (by right).
    + rewrite bool_decide_eq_false_2; [done|].
      by intros [?|?]%elem_of_cons.
Qed.

Lemma field_key k props :
  field k props ≠ VUndefined → k ∈ map fst props.
Proof.
  unfold field. induction props as [|[k' v'] props IH]; [done|].
  simpl. destruct (String.eqb_spec k k') as [<-|Hk]; [by left|].
  intros H. right. by apply IH.
Qed.

(** *** Nodes without integration ids *)

(** Reading [node.data?.config?.integrationId] off a node. *)
Lemma validation_view_object props :
  validation_view (VObj props)
  = Returned
      {| node_data :=
           if nullish (field "data" props) then None
           else Some
                  {| node_config :=
                       if nullish (prop "config" (field "data" props))
                       then None
                       else Some
                              {| integrationId :=
                                   Some (prop "integrationId"
                                           (prop "config"
                                              (field "data" props))) |} |}
      |}.
Proof. reflexivity. Qed.

Lemma no_reference_view props :
  prop "integrationId" (prop "config" (field "data" props)) = VUndefined →
  ∃ view, validation_view (VObj props) = Returned view
          ∧ node_integrationId view = None.
Proof.
  intros Hnone. rewrite validation_view_object. eexists. split; [done|].
  unfold node_integrationId. simpl.
  destruct (nullish (field "data" props)); [done|]. simpl.
  destruct (nullish (prop "config" (field "data" props))); [done|]. simpl.
  by rewrite Hnone.
Qed.

(** A view names an integration exactly when the JSON node does. *)
Lemma validation_view_names node view id :
  validation_view node = Returned view →
  names_integration view id ↔ json_names_integration node id.
Proof.
  unfold validation_view, member.
  destruct (nullish node); [done|]. intros [= <-].
  unfold names_integration, json_names_integration. simpl. split.
  - intros (d & c & Hd & Hc & Hi & Hne).
    destruct (nullish (prop "data" node)); [done|].
    injection Hd as <-. simpl in Hc.
    destruct (nullish (prop "config" (prop "data" node))); [done|].
    injection Hc as <-. simpl in Hi. by injection Hi as ->.
  - intros [Hi Hne].
    destruct (nullish (prop "data" node)) eqn:Hdata.
    { by destruct (prop "data" node). }
    destruct (nullish (prop "config" (prop "data" node))) eqn:Hconfig.
    { by destruct (prop "config" (prop "data" node)). }
    eexists _, _. split; [done|]. split; [done|]. simpl. by rewrite Hi.
Qed.

Lemma validation_views_names items views id :
  validation_views items = Returned views →
  (∃ view, view ∈ views ∧ names_integration view id)
  ↔ (∃ node, node ∈ items ∧ json_names_integration node id).
Proof.
  revert views. induction items as [|node items IH]; intros views Hviews.
  - injection Hviews as <-. split; intros (x & Hx & _);
      by apply elem_of_nil in Hx.
  - simpl in Hviews.
    destruct (validation_view node) as [view|e] eqn:Hview; [|done].
    destruct (validation_views items) as [views'|e]; [|done].
    injection Hviews as <-. specialize (IH views' eq_refl).
    pose proof (validation_view_names node view id Hview) as Hnode.
    split.
    + intros (x & [->|Hx]%elem_of_cons & Hnames).
      * exists node. split; [by left|]. by apply Hnode.
      * destruct (proj1 IH) as (n & Hn & Hjson); [eauto|].
        exists n. split; [by right|done].
    + intros (n & [->|Hn]%elem_of_cons & Hjson).
      * exists view. split; [by left|]. by apply Hnode.
      * destruct (proj2 IH) as (x & Hx & Hnames); [eauto|].
        exists x. split; [by right|done].
Qed.

Lemma no_reference_views nodes :
  Forall (λ node, ∃ view, validation_view node = Returned view
                          ∧ node_integrationId view = None) nodes →
  ∃ views, validation_views nodes = Returned views
           ∧ length views = length nodes
           ∧ extractIntegrationIds views = [].
Proof.
  induction 1 as [|node nodes (view & Hview & Hnone) _ (views & Hviews & Hlen & Hids)].
  - by exists [].
  - exists (view :: views). simpl. rewrite Hview, Hviews.
    split; [done|]. split; [by rewrite Hlen|].
    unfold extractIntegrationIds in *. simpl. by rewrite Hnone.
Qed.

Section Spread.

Variable code_units : string → list string.

Lemma sanitize_node_no_reference node :
  ∃ props,
    sanitize_node code_units node = VObj props
    ∧ prop "integrationId" (prop "config" (field "data" props)) = VUndefined.
Proof.
  unfold sanitize_node.
  destruct (is_object (field "data" (own_props code_units node))) eqn:Hdata.
  - eexists. split; [reflexivity|]. rewrite field_obj_set.
    destruct (is_object
                (field "config"
                   (own_props code_units
                      (field "data" (own_props code_units node)))))
      eqn:Hconfig; simpl.
    + by rewrite field_obj_set; simpl; rewrite field_obj_without.
    + by destruct (field "config" _).
  - eexists. split; [reflexivity|].
    by destruct (field "data" (own_props code_units node)).
Qed.

Lemma sanitize_node_twice node :
  sanitize_node code_units (sanitize_node code_units node)
  = sanitize_node code_units node.
Proof.
  unfold sanitize_node at 2 3.
  destruct (is_object (field "data" (own_props code_units node))) eqn:Hdata.
  - unfold sanitize_node. simpl own_props. rewrite !field_obj_set.
    simpl is_object. cbv iota. simpl own_props.
    destruct (is_object
                (field "config"
                   (own_props code_units
                      (field "data" (own_props code_units node)))))
      eqn:Hconfig.
    + rewrite !field_obj_set. simpl is_object. cbv iota. simpl own_props.
      by rewrite obj_without_twice, !obj_set_twice.
    + rewrite Hconfig. by rewrite obj_set_twice.
  - unfold sanitize_node. simpl own_props. by rewrite Hdata.
Qed.

(** X19. The nodes that [sanitizeNodesForPublicView] returns name no
    integration: there are as many as before, each is an object on which
    [node.data?.config?.integrationId] is [undefined], so
    [extractIntegrationIds] finds no id in them, and sanitizing them again
    changes nothing. On a node that is an object every property but [data]
    stays as it was; in a [data] object every property but [config], and in
    a [config] object every property but [integrationId]. *)
Theorem sanitized_nodes_name_no_integration (nodes : list Value) :
  length (sanitizeNodesForPublicView code_units nodes) = length nodes
  ∧ Forall (λ node, ∃ props,
              node = VObj props
              ∧ opt_member "integrationId"
                  (opt_member "config" (field "data" props)) = VUndefined)
           (sanitizeNodesForPublicView code_units nodes)
  ∧ (∃ views,
       validation_views (sanitizeNodesForPublicView code_units nodes)
       = Returned views
       ∧ extractIntegrationIds views = [])
  ∧ sanitizeNodesForPublicView code_units
      (sanitizeNodesForPublicView code_units nodes)
    = sanitizeNodesForPublicView code_units nodes
  ∧ (∀ i props,
       nodes !! i = Some (VObj props) →
       ∃ props',
         sanitizeNodesForPublicView code_units nodes !! i
         = Some (VObj props')
         ∧ map fst props' = map fst props
         ∧ (∀ k, k ≠ "data" → field k props' = field k props)
         ∧ (∀ data,
              field "data" props = VObj data →
              ∃ data',
                field "data" props' = VObj data'
                ∧ map fst data' = map fst data
                ∧ (∀ k, k ≠ "config" → field k data' = field k data)
                ∧ (∀ config,
                     field "config" data = VObj config →
                     field "config" data'
                     = VObj (obj_without "integrationId" config)))).
Proof.
  unfold sanitizeNodesForPublicView.
  split; [by rewrite length_map|]. split; [|split; [|split]].
  - apply Forall_forall. intros node Hin.
    apply list_elem_of_fmap in Hin as (node0 & -> & _).
    destruct (sanitize_node_no_reference node0) as (props & -> & Hnone).
    exists props. split; [done|]. unfold opt_member.
    destruct (nullish (field "data" props)); [done|].
    destruct (nullish (prop "config" (field "data" props))); done.
  - destruct (no_reference_views (map (sanitize_node code_units) nodes))
      as (views & Hviews & _ & Hids); [|by eauto].
    apply Forall_forall. intros node Hin.
    apply list_elem_of_fmap in Hin as (node0 & -> & _).
    destruct (sanitize_node_no_reference node0) as (props & -> & Hnone).
    by apply no_reference_view.
  - rewrite map_map. apply map_ext. intros node. apply sanitize_node_twice.
  - intros i props Hi. rewrite list_lookup_fmap, Hi. simpl.
    unfold sanitize_node. simpl own_props.
    destruct (field "data" props) as [| | | | |items|data] eqn:Hdata;
      simpl is_object; cbv iota.
    1-5: exists props; split; [done|]; split; [done|]; split; [done|];
         by intros data' Habs.
    + eexists. split; [reflexivity|].
      assert ("data" ∈ map fst props) as Hkey
        by (apply field_key; by rewrite Hdata).
      split; [by rewrite obj_set_keys, bool_decide_eq_true_2|].
      split; [intros k Hk; by apply field_obj_set_ne|].
      by intros data' Habs.
    + eexists. split; [reflexivity|].
      assert ("data" ∈ map fst props) as Hkey
        by (apply field_key; by rewrite Hdata).
      split; [by rewrite obj_set_keys, bool_decide_eq_true_2|].
      split; [intros k Hk; by apply field_obj_set_ne|].
      intros data' [= <-]. rewrite field_obj_set. eexists.
      split; [reflexivity|].
      destruct (field "config" data) as [| | | | |items|config] eqn:Hconfig;
        simpl is_object; cbv iota.
      1-5: split; [done|]; split; [done|]; by intros config' Habs.
      * assert ("config" ∈ map fst data) as Hkey'
          by (apply field_key; by rewrite Hconfig).
        split; [by rewrite obj_set_keys, bool_decide_eq_true_2|].
        split; [intros k Hk; by apply field_obj_set_ne|].
        by intros config' Habs.
      * assert ("config" ∈ map fst data) as Hkey'
          by (apply field_key; by rewrite Hconfig).
        split; [by rewrite obj_set_keys, bool_decide_eq_true_2|].
        split; [intros k Hk; by apply field_obj_set_ne|].
        intros config' [= <-]. rewrite field_obj_set. simpl own_props.
        by rewrite Hconfig.
Qed.

(** *** Duplicated nodes *)

Lemma strip_node_object new_id node :
  ∃ props,
    strip_node code_units new_id node = VObj props
    ∧ field "id" props = VStr new_id
    ∧ prop "integrationId" (prop "config" (field "data" props)) = VUndefined
    ∧ (∀ k, k ≠ "id" → k ≠ "data" →
            field k props = field k (own_props code_units node))
    ∧ (∀ data,
         field "data" (own_props code_units node) = VObj data →
         ∃ data',
           field "data" props = VObj data'
           ∧ field "status" data' = VStr "idle"
           ∧ (∀ k, k ≠ "config" → k ≠ "status" →
                   field k data' = field k data)
           ∧ (∀ config,
                field "config" data = VObj config →
                field "config" data'
                = VObj (obj_without "integrationId" config))).
Proof.
  unfold strip_node.
  set (newNode := obj_set "id" (VStr new_id) (own_props code_units node)).
  assert (field "data" newNode = field "data" (own_props code_units node))
    as Hdata by (by apply field_obj_set_ne).
  assert (field "id" newNode = VStr new_id) as Hid by apply field_obj_set.
  assert (∀ k, k ≠ "id" →
               field k newNode = field k (own_props code_units node))
    as Hkept by (intros k Hk; by apply field_obj_set_ne).
  clearbody newNode.
  destruct (truthy (field "data" newNode)) eqn:Htruthy.
  - eexists. split; [reflexivity|].
    split; [by rewrite field_obj_set_ne|].
    split.
    { rewrite field_obj_set. simpl prop.
      rewrite field_obj_set_ne by done.
      destruct (truthy (field "config"
                          (own_props code_units (field "data" newNode))))
        eqn:Hconfig.
      - rewrite field_obj_set. simpl. apply field_obj_without.
      - by destruct (field "config" _) as [| |[]| | | |]. }
    split.
    { intros k Hk Hk'. rewrite field_obj_set_ne by done. by apply Hkept. }
    intros data Hobj. rewrite field_obj_set, Hdata, Hobj. simpl own_props.
    eexists. split; [reflexivity|]. split; [apply field_obj_set|].
    split.
    + intros k Hconfig Hstatus. rewrite field_obj_set_ne by done.
      destruct (truthy (field "config" data)); [|done].
      by apply field_obj_set_ne.
    + intros config Hconfig. rewrite field_obj_set_ne by done.
      rewrite Hconfig. simpl. by rewrite field_obj_set.
  - eexists. split; [reflexivity|]. split; [done|].
    split; [by destruct (field "data" newNode) as [| |[]| | | |]|].
    split; [intros k Hk _; by apply Hkept|].
    intros data Hobj. rewrite Hdata, Hobj in Htruthy. done.
Qed.

Lemma stripIntegrationIds_lookup nanoid k nodes i node :
  nodes !! i = Some node →
  stripIntegrationIds code_units nanoid k nodes !! i
  = Some (strip_node code_units (nanoid (k + i)%nat) node).
Proof.
  revert k i. induction nodes as [|n nodes IH]; intros k i Hi; [done|].
  destruct i as [|i]; simpl in *.
  - injection Hi as ->. by rewrite Nat.add_0_r.
  - rewrite (IH (S k) i Hi). do 3 f_equal. lia.
Qed.

Lemma stripIntegrationIds_length nanoid k nodes :
  length (stripIntegrationIds code_units nanoid k nodes) = length nodes.
Proof.
  revert k. induction nodes as [|n nodes IH]; intros k; [done|].
  simpl. by rewrite IH.
Qed.

(** X20. The nodes of a duplicate, as [stripIntegrationIds] makes them:
    there are as many as in the source, the node at each position is an
    object whose [id] is the id that [nanoid()] returned for it, and none
    names an integration any more, so [extractIntegrationIds] finds no id
    in them. Where the source node has a [data] object its copy has it with
    [status] set to [idle], [integrationId] taken out of a [config] object,
    and every other property as it was. *)
Theorem duplicated_nodes_are_renamed_and_name_no_integration
    (nanoid : nat → string) (k : nat) (nodes : list Value) :
  length (stripIntegrationIds code_units nanoid k nodes) = length nodes
  ∧ (∃ views,
       validation_views (stripIntegrationIds code_units nanoid k nodes)
       = Returned views
       ∧ extractIntegrationIds views = [])
  ∧ (∀ i node,
       nodes !! i = Some node →
       ∃ props,
         stripIntegrationIds code_units nanoid k nodes !! i
         = Some (VObj props)
         ∧ field "id" props = VStr (nanoid (k + i)%nat)
         ∧ opt_member "integrationId"
             (opt_member "config" (field "data" props)) = VUndefined
         ∧ (∀ key, key ≠ "id" → key ≠ "data" →
                   field key props = field key (own_props code_units node))
         ∧ (∀ data,
              field "data" (own_props code_units node) = VObj data →
              ∃ data',
                field "data" props = VObj data'
                ∧ field "status" data' = VStr "idle"
                ∧ (∀ key, key ≠ "config" → key ≠ "status" →
                          field key data' = field key data)
                ∧ (∀ config,
                     field "config" data = VObj config →
                     field "config" data'
                     = VObj (obj_without "integrationId" config)))).
Proof.
  split; [apply stripIntegrationIds_length|]. split.
  - destruct (no_reference_views
                (stripIntegrationIds code_units nanoid k nodes))
      as (views & Hviews & _ & Hids); [|by eauto].
    apply Forall_forall. intros node Hin.
    apply list_elem_of_lookup in Hin as [i Hi].
    assert (i < length nodes)%nat as Hlt.
    { apply lookup_lt_Some in Hi.
      by rewrite stripIntegrationIds_length in Hi. }
    destruct (lookup_lt_is_Some_2 nodes i Hlt) as [node0 Hnode0].
    rewrite (stripIntegrationIds_lookup nanoid k nodes i node0 Hnode0) in Hi.
    injection Hi as <-.
    destruct (strip_node_object (nanoid (k + i)%nat) node0)
      as (props & -> & _ & Hnone & _).
    by apply no_reference_view.
  - intros i node Hi.
    rewrite (stripIntegrationIds_lookup nanoid k nodes i node Hi).
    destruct (strip_node_object (nanoid (k + i)%nat) node)
      as (props & -> & Hid & Hnone & Hkept & Hdata).
    exists props. split; [done|]. split; [done|]. split; [|done].
    unfold opt_member.
    destruct (nullish (field "data" props)); [done|].
    by destruct (nullish (prop "config" (field "data" props))).
Qed.

(** *** Duplicated edges *)

Lemma same_key_eq a b : same_key a b = true → a = b.
Proof.
  destruct a, b; simpl; try discriminate; try done.
  - by intros ->%Bool.eqb_prop.
  - by intros ->%Z.eqb_eq.
  - by intros ->%String.eqb_eq.
Qed.

Lemma map_get_absent key entries :
  key ∉ map fst entries → map_get key entries = None.
Proof.
  induction entries as [|[k v] entries IH]; [done|].
  simpl. intros Hnot. apply not_elem_of_cons in Hnot as [Hne Hnot].
  rewrite (IH Hnot).
  destruct (same_key k key) eqn:Hk; [|done].
  apply same_key_eq in Hk. congruence.
Qed.

Lemma map_get_present entries i s v :
  NoDup (map fst entries) → entries !! i = Some (VStr s, v) →
  map_get (VStr s) entries = Some v.
Proof.
  revert i. induction entries as [|[k v0] entries IH]; intros i Hnd Hi;
    [done|].
  simpl in Hnd. apply NoDup_cons in Hnd as [Hk Hnd].
  destruct i as [|i]; simpl in *.
  - injection Hi as -> ->. rewrite (map_get_absent _ _ Hk).
    simpl. by rewrite String.eqb_refl.
  - by rewrite (IH i Hnd Hi).
Qed.

Lemma id_entries_stripped nanoid k nodes :
  Forall (λ node, ∃ s, prop "id" node = VStr s) nodes →
  ∃ entries,
    id_entries nodes (stripIntegrationIds code_units nanoid k nodes)
    = Returned entries
    ∧ map fst entries = map (prop "id") nodes
    ∧ ∀ i node, nodes !! i = Some node →
                entries !! i = Some (prop "id" node, VStr (nanoid (k + i)%nat)).
Proof.
  intros Hids. revert k.
  induction Hids as [|node nodes [s Hs] _ IH]; intros k.
  - exists []. done.
  - destruct (IH (S k)) as (entries & Hentries & Hkeys & Hlookup).
    simpl. unfold member at 1.
    assert (nullish node = false) as ->.
    { destruct node; try done; simpl in Hs; discriminate. }
    destruct (strip_node_object (nanoid k) node)
      as (props & -> & Hid & _).
    unfold member. simpl nullish. cbv iota. simpl prop.
    rewrite Hid, Hentries.
    eexists. split; [reflexivity|]. split; [simpl; by rewrite Hkeys|].
    intros [|i] node' Hi; simpl in *.
    + injection Hi as <-. by rewrite Nat.add_0_r.
    + rewrite (Hlookup i node' Hi).
      by rewrite Nat.add_succ_r.
Qed.

Lemma rename_edges_lookup nanoid k idMap edges :
  Forall (λ edge, nullish edge = false) edges →
  ∃ newEdges,
    rename_edges code_units nanoid k idMap edges = Returned newEdges
    ∧ length newEdges = length edges
    ∧ ∀ j edge, edges !! j = Some edge →
        newEdges !! j
        = Some (VObj (obj_set "target" (renamed idMap (prop "target" edge))
                        (obj_set "source"
                           (renamed idMap (prop "source" edge))
                           (obj_set "id" (VStr (nanoid (k + j)%nat))
                              (own_props code_units edge))))).
Proof.
  intros Hedges. revert k.
  induction Hedges as [|edge edges Hedge _ IH]; intros k.
  - exists []. done.
  - destruct (IH (S k)) as (newEdges & Hrun & Hlen & Hlookup).
    simpl. unfold member. rewrite Hedge, Hrun.
    eexists. split; [reflexivity|]. split; [simpl; by rewrite Hlen|].
    intros [|j] edge' Hj; simpl in *.
    + injection Hj as <-. by rewrite Nat.add_0_r.
    + rewrite (Hlookup j edge' Hj).
      by rewrite Nat.add_succ_r.
Qed.

(** X21. The edges of a duplicate follow its nodes. When every node of the
    source has a string as its id, these ids are distinct, [nanoid()]
    never returns the empty string and no edge is [null], then
    [updateEdgeReferences] returns as many edges as it was given, each an
    object with a new id of its own; an edge whose source (target) is the
    id of the source node at some position now has the id of the copy at
    that position as its source (target), an edge whose source (target) is
    the id of no node keeps it, and every other property of an edge stays
    as it was. *)
Theorem duplicated_edges_follow_their_nodes
    (nanoid : nat → string) (kn ke : nat) (nodes edges : list Value) :
  Forall (λ node, ∃ s, prop "id" node = VStr s) nodes →
  NoDup (map (prop "id") nodes) →
  (∀ i, nanoid i ≠ "") →
  Forall (λ edge, nullish edge = false) edges →
  ∃ newEdges,
    updateEdgeReferences code_units nanoid ke edges nodes
      (stripIntegrationIds code_units nanoid kn nodes)
    = Returned newEdges
    ∧ length newEdges = length edges
    ∧ ∀ j edge,
        edges !! j = Some edge →
        ∃ props,
          newEdges !! j = Some (VObj props)
          ∧ field "id" props = VStr (nanoid (ke + j)%nat)
          ∧ (∀ i node, nodes !! i = Some node →
                       prop "source" edge = prop "id" node →
                       field "source" props = VStr (nanoid (kn + i)%nat))
          ∧ (prop "source" edge ∉ map (prop "id") nodes →
             field "source" props = prop "source" edge)
          ∧ (∀ i node, nodes !! i = Some node →
                       prop "target" edge = prop "id" node →
                       field "target" props = VStr (nanoid (kn + i)%nat))
          ∧ (prop "target" edge ∉ map (prop "id") nodes →
             field "target" props = prop "target" edge)
          ∧ (∀ key, key ≠ "id" → key ≠ "source" → key ≠ "target" →
                    field key props
                    = field key (own_props code_units edge)).
Proof.
  intros Hids Hnd Hnanoid Hedges.
  destruct (id_entries_stripped nanoid kn nodes Hids)
    as (idMap & Hentries & Hkeys & Hlookup).
  destruct (rename_edges_lookup nanoid ke idMap edges Hedges)
    as (newEdges & Hrun & Hlen & Hnew).
  exists newEdges. unfold updateEdgeReferences. rewrite Hentries.
  split; [done|]. split; [done|].
  assert (∀ x i node, nodes !! i = Some node → x = prop "id" node →
                      renamed idMap x = VStr (nanoid (kn + i)%nat)) as Hhit.
  { intros x i node Hi ->.
    assert (∃ s, prop "id" node = VStr s) as [s Hs].
    { rewrite Forall_forall in Hids. apply Hids.
      by apply list_elem_of_lookup_2 in Hi. }
    unfold renamed. specialize (Hlookup i node Hi). rewrite Hs in *.
    rewrite (map_get_present idMap i s (VStr (nanoid (kn + i)%nat)));
      [|by rewrite Hkeys|done].
    simpl. specialize (Hnanoid (kn + i)%nat).
    by apply String.eqb_neq in Hnanoid as ->. }
  assert (∀ x, x ∉ map (prop "id") nodes → renamed idMap x = x) as Hmiss.
  { intros x Hx. unfold renamed.
    by rewrite map_get_absent by (by rewrite Hkeys). }
  intros j edge Hj. rewrite (Hnew j edge Hj).
  eexists. split; [reflexivity|].
  split; [do 2 rewrite field_obj_set_ne by done; apply field_obj_set|].
  split.
  { intros i node Hi Hsrc.
    rewrite field_obj_set_ne, field_obj_set by done. by eapply Hhit. }
  split.
  { intros Hsrc. rewrite field_obj_set_ne, field_obj_set by done.
    by apply Hmiss. }
  split.
  { intros i node Hi Htgt. rewrite field_obj_set. by eapply Hhit. }
  split.
  { intros Htgt. rewrite field_obj_set. by apply Hmiss. }
  intros key Hid Hsrc Htgt. by do 3 rewrite field_obj_set_ne by done.
Qed.

End Spread.

Lemma duplicated_edges_follow_their_nodes_witness :
  ∃ newEdges,
    updateEdgeReferences sample_code_units sample_nanoid 2 sample_json_edges
      sample_json_nodes
      (stripIntegrationIds sample_code_units sample_nanoid 0
         sample_json_nodes)
    = Returned newEdges
    ∧ length newEdges = length sample_json_edges
    ∧ ∀ j edge,
        sample_json_edges !! j = Some edge →
        ∃ props,
          newEdges !! j = Some (VObj props)
          ∧ field "id" props = VStr (sample_nanoid (2 + j)%nat)
          ∧ (∀ i node, sample_json_nodes !! i = Some node →
                       prop "source" edge = prop "id" node →
                       field "source" props = VStr (sample_nanoid (0 + i)%nat))
          ∧ (prop "source" edge ∉ map (prop "id") sample_json_nodes →
             field "source" props = prop "source" edge)
          ∧ (∀ i node, sample_json_nodes !! i = Some node →
                       prop "target" edge = prop "id" node →
                       field "target" props = VStr (sample_nanoid (0 + i)%nat))
          ∧ (prop "target" edge ∉ map (prop "id") sample_json_nodes →
             field "target" props = prop "target" edge)
          ∧ (∀ key, key ≠ "id" → key ≠ "source" → key ≠ "target" →
                    field key props
                    = field key (own_props sample_code_units edge)).
Proof.
  apply (duplicated_edges_follow_their_nodes sample_code_units sample_nanoid
           0 2 sample_json_nodes sample_json_edges).
  - repeat constructor; by eexists.
  - vm_compute. apply NoDup_cons. split; [|apply NoDup_singleton].
    by intros [=]%list_elem_of_singleton.
  - intros i. unfold sample_nanoid. by rewrite append_cons.
  - by repeat constructor.
Defined.

(** *** The name of a duplicate *)

Lemma append_inj_r (a x y : string) : a +:+ x = a +:+ y → x = y.
Proof.
  induction a as [|c a IH]; [done|].
  rewrite !append_cons. intros [= H]. by apply IH.
Qed.

Lemma candidate_inj (baseName : string) (c c' : nat) :
  baseName +:+ " " +:+ pretty c = baseName +:+ " " +:+ pretty c' → c = c'.
Proof.
  intros H. apply append_inj_r, append_inj_r in H.
  by apply (inj pretty) in H.
Qed.

Lemma has_name_without (names : list Value) (x y : string) :
  x ≠ y →
  has_name (List.filter (λ v, negb (is_str x v)) names) y = has_name names y.
Proof.
  intros Hne. unfold has_name.
  induction names as [|v names IH]; [done|].
  simpl. destruct (is_str x v) eqn:Hx; simpl; rewrite IH; [|done].
  destruct v; try discriminate. simpl in *.
  apply String.eqb_eq in Hx as ->.
  by apply String.eqb_neq in Hne as ->.
Qed.

Lemma has_name_shorter (names : list Value) (x : string) :
  has_name names x = true →
  (length (List.filter (λ v, negb (is_str x v)) names) < length names)%nat.
Proof.
  unfold has_name. induction names as [|v names IH]; [done|].
  simpl. destruct (is_str x v); simpl.
  - intros _. pose proof (List.filter_length_le
                            (λ v, negb (is_str x v)) names). lia.
  - intros H. specialize (IH H). lia.
Qed.

Lemma free_counter_congr fuel names names' baseName c :
  (∀ c', (c ≤ c')%nat →
         has_name names (baseName +:+ " " +:+ pretty c')
         = has_name names' (baseName +:+ " " +:+ pretty c')) →
  free_counter fuel names baseName c = free_counter fuel names' baseName c.
Proof.
  revert c. induction fuel as [|fuel IH]; intros c Hsame; [done|].
  simpl. rewrite <- (Hsame c) by lia.
  destruct (has_name names _); [|done].
  apply IH. intros c' Hc'. apply Hsame. lia.
Qed.

Lemma free_counter_enough fuel names baseName c :
  (length names < fuel)%nat →
  ∃ r, free_counter fuel names baseName c = Some r
       ∧ (c ≤ r)%nat
       ∧ has_name names (baseName +:+ " " +:+ pretty r) = false
       ∧ ∀ c', (c ≤ c' < r)%nat →
               has_name names (baseName +:+ " " +:+ pretty c') = true.
Proof.
  revert names c. induction fuel as [|fuel IH]; intros names c Hlen; [lia|].
  simpl.
  destruct (has_name names (baseName +:+ " " +:+ pretty c)) eqn:Hc.
  - set (x := baseName +:+ " " +:+ pretty c) in *.
    set (names' := List.filter (λ v, negb (is_str x v)) names).
    assert (∀ c', (S c ≤ c')%nat →
                  has_name names (baseName +:+ " " +:+ pretty c')
                  = has_name names' (baseName +:+ " " +:+ pretty c'))
      as Hsame.
    { intros c' Hc'. symmetry. apply has_name_without.
      intros Heq. apply candidate_inj in Heq. lia. }
    rewrite (free_counter_congr fuel names names' baseName (S c) Hsame).
    destruct (IH names' (S c)) as (r & Hr & Hle & Hfree & Hbelow).
    { pose proof (has_name_shorter names x Hc). unfold names'. lia. }
    exists r. split; [done|]. split; [lia|].
    split; [by rewrite Hsame by lia|].
    intros c' Hc'. destruct (decide (c' = c)) as [->|Hne]; [done|].
    rewrite Hsame by lia. apply Hbelow. lia.
  - exists c. split; [done|]. split; [lia|]. split; [done|].
    intros c' Hc'. lia.
Qed.

(** X22. The name given to a duplicate is free: the loop that looks for it
    finds one within as many rounds as the user has workflows, plus one,
    and the name it settles on is not the name of any of them. It is the
    name of the source followed by [ (Copy)] when that is free; otherwise
    that followed by a blank and the least number from 2 on that gives a
    free name. *)
Theorem copy_name_is_free (existingNames : list Value) (sourceName : string) :
  ∃ name,
    (∀ fuel, (length existingNames < fuel)%nat →
             copy_name fuel existingNames sourceName = Some name)
    ∧ has_name existingNames name = false
    ∧ (has_name existingNames (sourceName +:+ " (Copy)") = false →
       name = sourceName +:+ " (Copy)")
    ∧ (has_name existingNames (sourceName +:+ " (Copy)") = true →
       ∃ counter,
         (2 ≤ counter)%nat
         ∧ name = (sourceName +:+ " (Copy)") +:+ " " +:+ pretty counter
         ∧ ∀ c, (2 ≤ c < counter)%nat →
                has_name existingNames
                  ((sourceName +:+ " (Copy)") +:+ " " +:+ pretty c)
                = true).
Proof.
  unfold copy_name.
  destruct (has_name existingNames (sourceName +:+ " (Copy)")) eqn:Hbase.
  - destruct (free_counter_enough (S (length existingNames)) existingNames
                (sourceName +:+ " (Copy)") 2 ltac:(lia))
      as (r & _ & Hle & Hfree & Hbelow).
    exists ((sourceName +:+ " (Copy)") +:+ " " +:+ pretty r).
    split.
    { intros fuel Hfuel.
      destruct (free_counter_enough fuel existingNames
                  (sourceName +:+ " (Copy)") 2 Hfuel)
        as (r' & -> & Hle' & Hfree' & Hbelow').
      assert (r' = r) as ->; [|done].
      destruct (Nat.lt_trichotomy r' r) as [Hlt|[Heq|Hgt]]; [|done|].
      - rewrite Hbelow in Hfree' by lia. discriminate.
      - rewrite Hbelow' in Hfree by lia. discriminate. }
    split; [done|]. split; [done|]. intros _. by exists r.
  - exists (sourceName +:+ " (Copy)"). split; [done|]. split; [done|].
    split; [done|]. done.
Qed.

End JsFacts.
(** ** The route handlers of workflows *)

Module ApiFacts.
Import Integrations IntegrationsFacts IntegrationWrites IntegrationWritesFacts.
Import Js JsFacts Api.

(** A workflow whose ownership check passes names no integration of
    another user. *)
Lemma validate_true_no_foreign nodes userId p :
  ∃ res p',
    validateWorkflowIntegrations nodes userId p = (Returned res, p')
    ∧ integrations p' = integrations p
    ∧ INTEGRATION_ENCRYPTION_KEY p' = INTEGRATION_ENCRYPTION_KEY p
    ∧ (valid res = true →
       ∀ row node, row ∈ integrations p → node ∈ nodes →
                   names_integration node (row_id row) →
                   row_user_id row = userId).
Proof.
  destruct (validateWorkflowIntegrations_run nodes userId p)
    as (res & p' & Hrun & Htable & Henv & Hvalid & _).
  exists res, p'. do 3 (split; [done|]).
  intros Hres row node Hrow Hnode Hnames.
  destruct (decide (row_user_id row = userId)) as [|Hother]; [done|].
  assert (valid res = false) as Hfalse.
  { apply Hvalid. left. exists row. split; [done|]. split; [|done].
    apply extractIntegrationIds_names. eauto. }
  congruence.
Qed.

Lemma same_tables_refl s : same_tables s s.
Proof. by repeat split. Qed.

Lemma same_tables_set_fates rest s : same_tables s (set_fates rest s).
Proof. by repeat split. Qed.

#[local] Hint Resolve same_tables_refl same_tables_set_fates : core.



(** *** Updating a workflow *)

Lemma assoc_get_obj_set k k' v props :
  assoc_get k' (obj_set k v props)
  = if String.eqb k' k then Some v else assoc_get k' props.
Proof.
  induction props as [|[k0 v0] props IH]; [done|].
  simpl. destruct (String.eqb_spec k k0) as [->|Hk]; simpl.
  - by destruct (String.eqb k' k0).
  - rewrite IH. destruct (String.eqb_spec k' k0) as [->|Hk']; [|done].
    by destruct (String.eqb_spec k0 k) as [->|_].
Qed.

Lemma assoc_get_copy_defined_ne k k0 body updateData :
  k ≠ k0 →
  assoc_get k (copy_defined k0 body updateData) = assoc_get k updateData.
Proof.
  intros Hne. apply String.eqb_neq in Hne. unfold copy_defined.
  destruct (prop k0 body); by rewrite ?assoc_get_obj_set, ?Hne.
Qed.

Lemma assoc_get_copy_defined k body updateData :
  assoc_get k updateData = None →
  assoc_get k (copy_defined k body updateData)
  = match prop k body with
    | VUndefined => None
    | v => Some v
    end.
Proof.
  intros Hnone. unfold copy_defined.
  destruct (prop k body); by rewrite ?assoc_get_obj_set, ?String.eqb_refl.
Qed.

(** [buildUpdateData] writes the update time and, of what the body holds,
    the name, the description, the nodes, the edges and the visibility:
    no other column. *)
Lemma buildUpdateData_columns now body k :
  assoc_get k (buildUpdateData now body)
  = if String.eqb k "updated_at" then Some (VStr now)
    else if bool_decide (k ∈ ["name"; "description"; "nodes"; "edges";
                              "visibility"])
         then match prop k body with
              | VUndefined => None
              | v => Some v
              end
         else None.
Proof.
  unfold buildUpdateData.
  destruct (String.eqb_spec k "updated_at") as [->|Hupd].
  { by rewrite !assoc_get_copy_defined_ne. }
  destruct (decide (k = "visibility")) as [->|Hvis].
  { rewrite assoc_get_copy_defined; [done|].
    by rewrite !assoc_get_copy_defined_ne. }
  rewrite assoc_get_copy_defined_ne by done.
  destruct (decide (k = "edges")) as [->|Hedges].
  { rewrite assoc_get_copy_defined; [done|].
    by rewrite !assoc_get_copy_defined_ne. }
  rewrite assoc_get_copy_defined_ne by done.
  destruct (decide (k = "nodes")) as [->|Hnodes].
  { rewrite assoc_get_copy_defined; [done|].
    by rewrite !assoc_get_copy_defined_ne. }
  rewrite assoc_get_copy_defined_ne by done.
  destruct (decide (k = "description")) as [->|Hdesc].
  { rewrite assoc_get_copy_defined; [done|].
    by rewrite !assoc_get_copy_defined_ne. }
  rewrite assoc_get_copy_defined_ne by done.
  destruct (decide (k = "name")) as [->|Hname].
  { by rewrite assoc_get_copy_defined. }
  rewrite assoc_get_copy_defined_ne by done.
  simpl. apply String.eqb_neq in Hupd as ->.
  rewrite bool_decide_eq_false_2; [done|].
  intros Hin. repeat (apply elem_of_cons in Hin as [->|Hin]; [done|]).
  by apply elem_of_nil in Hin.
Qed.

Lemma updated_workflow_kept now body w :
  wf_id (updated_workflow (buildUpdateData now body) w) = wf_id w
  ∧ wf_user_id (updated_workflow (buildUpdateData now body) w) = wf_user_id w
  ∧ wf_created_at (updated_workflow (buildUpdateData now body) w)
    = wf_created_at w
  ∧ wf_updated_at (updated_workflow (buildUpdateData now body) w) = now
  ∧ wf_visibility (updated_workflow (buildUpdateData now body) w)
    = match prop "visibility" body with
      | VStr visibility => visibility
      | _ => wf_visibility w
      end
  ∧ wf_nodes (updated_workflow (buildUpdateData now body) w)
    = match prop "nodes" body with
      | VUndefined => wf_nodes w
      | nodes => nodes
      end.
Proof.
  unfold updated_workflow. simpl. rewrite !buildUpdateData_columns. simpl.
  do 4 (split; [done|]).
  split; [by destruct (prop "visibility" body)|].
  by destruct (prop "nodes" body).
Qed.

Lemma same_but_proc_refl s : same_but_proc s s.
Proof. by repeat split. Qed.

Section Validation.

Variable code_points : string → list string.

Lemma validateWorkflowIntegrations_json_run nodes userId s :
  ∃ o s',
    validateWorkflowIntegrations_json code_points nodes userId s = (o, s')
    ∧ same_but_proc s s'
    ∧ (∀ res, o = Returned res → valid res = true →
         ∃ items,
           iterate code_points nodes = Returned items
           ∧ ∀ row node, row ∈ integrations (proc s) → node ∈ items →
                         json_names_integration node (row_id row) →
                         row_user_id row = userId).
Proof.
  unfold validateWorkflowIntegrations_json, bind at 1, lift at 1.
  destruct (iterate code_points nodes) as [items|e].
  2: { eexists _, _. split; [reflexivity|].
       split; [apply same_but_proc_refl|]. by intros res [=]. }
  unfold bind, lift at 1.
  destruct (validation_views items) as [views|e] eqn:Hviews.
  2: { eexists _, _. split; [reflexivity|].
       split; [apply same_but_proc_refl|]. by intros res [=]. }
  unfold lift_proc.
  destruct (validate_true_no_foreign views userId (proc s))
    as (res & p' & -> & Htable & Henv & Hvalid).
  eexists _, _. split; [reflexivity|].
  split; [by repeat split|].
  intros res' [= <-] Hres. exists items. split; [done|].
  intros row node Hrow Hnode Hnames.
  destruct (proj2 (validation_views_names items views (row_id row) Hviews))
    as (view & Hview & Hnames'); [eauto|].
  by apply (Hvalid Hres row view).
Qed.

End Validation.

(** X24. [PATCH /api/workflows/[workflowId]] never throws and writes to no
    table but [workflows]. It changes no workflow but the one with the
    given id that belongs to the session user, and that only when it
    answers 200; no workflow ever changes its id, its owner or its creation
    time, and a visibility is only ever changed to [private] or [public].
    When the [nodes] of the body are an array with a node whose
    [data.config.integrationId] is the id of an integration that belongs to
    somebody else, the answer is not 200 and nothing is written. *)
Theorem PATCH_changes_only_the_callers_workflow
    (code_points : string → list string) (now : string)
    (user : option string) (workflowId : string) (body : Outcome Value)
    (s : Server) :
  ∃ r s',
    PATCH code_points now user workflowId body s = (Returned r, s')
    ∧ integrations (proc s') = integrations (proc s)
    ∧ api_keys s' = api_keys s
    ∧ workflow_executions s' = workflow_executions s
    ∧ workflow_execution_logs s' = workflow_execution_logs s
    ∧ started s' = started s
    ∧ length (workflows s') = length (workflows s)
    ∧ (∀ i w,
         workflows s !! i = Some w →
         ∃ w',
           workflows s' !! i = Some w'
           ∧ wf_id w' = wf_id w
           ∧ wf_user_id w' = wf_user_id w
           ∧ wf_created_at w' = wf_created_at w
           ∧ (wf_visibility w' = wf_visibility w
              ∨ wf_visibility w' = "private"
              ∨ wf_visibility w' = "public")
           ∧ (w' ≠ w →
              wf_id w = workflowId ∧ user = Some (wf_user_id w)
              ∧ status r = 200%nat))
    ∧ (status r ≠ 200%nat → workflows s' = workflows s)
    ∧ (∀ b items node row,
         body = Returned b →
         prop "nodes" b = VArr items →
         node ∈ items →
         json_names_integration node (row_id row) →
         row ∈ integrations (proc s) →
         user ≠ Some (row_user_id row) →
         status r ≠ 200%nat).
Proof.
  assert (∀ r s',
            integrations (proc s') = integrations (proc s) →
            workflows s' = workflows s →
            api_keys s' = api_keys s →
            workflow_executions s' = workflow_executions s →
            workflow_execution_logs s' = workflow_execution_logs s →
            started s' = started s →
            status r ≠ 200%nat →
            integrations (proc s') = integrations (proc s)
            ∧ api_keys s' = api_keys s
            ∧ workflow_executions s' = workflow_executions s
            ∧ workflow_execution_logs s' = workflow_execution_logs s
            ∧ started s' = started s
            ∧ length (workflows s') = length (workflows s)
            ∧ (∀ i w,
                 workflows s !! i = Some w →
                 ∃ w',
                   workflows s' !! i = Some w'
                   ∧ wf_id w' = wf_id w
                   ∧ wf_user_id w' = wf_user_id w
                   ∧ wf_created_at w' = wf_created_at w
                   ∧ (wf_visibility w' = wf_visibility w
                      ∨ wf_visibility w' = "private"
                      ∨ wf_visibility w' = "public")
                   ∧ (w' ≠ w →
                      wf_id w = workflowId ∧ user = Some (wf_user_id w)
                      ∧ status r = 200%nat))
            ∧ (status r ≠ 200%nat → workflows s' = workflows s)
            ∧ (∀ b items node row,
                 body = Returned b →
                 prop "nodes" b = VArr items →
                 node ∈ items →
                 json_names_integration node (row_id row) →
                 row ∈ integrations (proc s) →
                 user ≠ Some (row_user_id row) →
                 status r ≠ 200%nat)) as Hfail.
  { intros r s' Hint Hwf Hkeys Hexec Hlogs Hstarted Hstatus.
    do 5 (split; [done|]). rewrite Hwf. split; [done|].
    split; [|split; [done|by intros]].
    intros i w Hi. exists w. do 4 (split; [done|]).
    split; [by left|]. by intros []. }
  unfold PATCH, try_catch.
  destruct user as [u|].
  2: { eexists _, _. split; [reflexivity|]. by apply Hfail. }
  unfold bind at 1, query.
  destruct (fates s) as [|[msg|] rest] eqn:Hfates.
  1,2: eexists _, _; (split; [reflexivity|]); by apply Hfail.
  cbn [workflows set_fates].
  destruct (List.filter
              (λ w, String.eqb (wf_id w) workflowId
                    && String.eqb (wf_user_id w) u) (workflows s))
    as [|existing [|other others]] eqn:Hown.
  1,3: eexists _, _; (split; [reflexivity|]); by apply Hfail.
  unfold one_row. cbv iota beta.
  unfold bind at 1, lift at 1.
  destruct body as [b|e].
  2: { eexists _, _. split; [reflexivity|]. by apply Hfail. }
  unfold bind at 1, lift at 1, member.
  destruct (nullish b) eqn:Hnull.
  { eexists _, _. split; [reflexivity|]. by apply Hfail. }
  unfold bind at 1. cbv beta.
  set (s1 := set_fates rest s).
  assert (∃ o s2,
            match prop "nodes" b with
            | VArr _ =>
                validation <- validateWorkflowIntegrations_json code_points
                                (prop "nodes" b) u ;;
                ret (valid validation)
            | _ => ret true
            end s1 = (o, s2)
            ∧ same_but_proc s1 s2
            ∧ (o = Returned true →
               ∀ items node row,
                 prop "nodes" b = VArr items →
                 node ∈ items →
                 json_names_integration node (row_id row) →
                 row ∈ integrations (proc s) →
                 row_user_id row = u)) as (o & s2 & -> & Hframe & Hvalid).
  { destruct (prop "nodes" b) as [| | | | |items|props] eqn:Hnodes;
      try (eexists _, _; split; [reflexivity|];
           split; [apply same_but_proc_refl|]; by intros).
    destruct (validateWorkflowIntegrations_json_run code_points (VArr items)
                u s1) as (o & s2 & Hrun & Hframe & Hvalid).
    unfold bind. rewrite Hrun. destruct o as [res|e].
    - eexists _, _. split; [reflexivity|]. split; [done|].
      intros [= Hres] items' node row [= <-] Hnode Hnames Hrow.
      destruct (Hvalid res eq_refl Hres) as (items'' & [= <-] & Hno).
      by apply (Hno row node).
    - eexists _, _. split; [reflexivity|]. split; [done|]. by intros [=]. }
  destruct Hframe as ((Hint & Hwf & Hkeys & Hexec & Hlogs & Hstarted)
                      & Hfates2 & _ & _).
  simpl in Hint, Hwf, Hkeys, Hexec, Hlogs, Hstarted, Hfates2.
  destruct o as [[|]|e].
  3: { eexists _, _. split; [reflexivity|]. by apply Hfail. }
  2: { eexists _, _. split; [reflexivity|]. by apply Hfail. }
  cbn [negb].
  destruct (negb match prop "visibility" b with
                 | VUndefined => true
                 | _ => false
                 end
            && negb (is_str "private" (prop "visibility" b))
            && negb (is_str "public" (prop "visibility" b))) eqn:Hvis.
  { eexists _, _. split; [reflexivity|]. by apply Hfail. }
  unfold bind at 1, query. cbv beta. rewrite Hfates2.
  destruct rest as [|[msg|] rest'].
  1,2: eexists _, _; (split; [reflexivity|]); by apply Hfail.
  cbn [workflows set_fates]. rewrite Hwf.
  destruct (List.filter (λ w, String.eqb (wf_id w) workflowId) (workflows s))
    as [|row [|row' rows]] eqn:Hrows.
  1,3: eexists _, _; (split; [reflexivity|]); by apply Hfail.
  eexists _, _. split; [reflexivity|]. simpl.
  destruct (filter_singleton_elem _ _ _ Hown) as [Hin Hmine].
  apply andb_true_iff in Hmine as [Hid Hu].
  apply String.eqb_eq in Hid, Hu.
  assert (∀ w, w ∈ workflows s → wf_id w = workflowId → w = row) as Honly.
  { intros w Hw Hwid.
    assert (In w (List.filter (λ w, String.eqb (wf_id w) workflowId)
                              (workflows s))) as Hfilter.
    { apply filter_In. split; [by apply list_elem_of_In|].
      by apply String.eqb_eq. }
    rewrite Hrows in Hfilter. by destruct Hfilter as [->|[]]. }
  assert (existing = row) as -> by (by apply Honly).
  do 5 (split; [done|]). split; [by rewrite length_map|].
  split; [|split; [done|]].
  - intros i w Hi. rewrite list_lookup_fmap, Hi. simpl.
    destruct (String.eqb_spec (wf_id w) workflowId) as [Hwid|Hwid].
    + assert (w = row) as ->
        by (apply Honly; [by apply list_elem_of_lookup_2 in Hi|done]).
      destruct (updated_workflow_kept now b row)
        as (Hkid & Hkuser & Hkcreated & _ & Hkvis & _).
      eexists. split; [reflexivity|]. do 3 (split; [done|]).
      split; [|by intros _; rewrite Hu].
      rewrite Hkvis.
      destruct (prop "visibility" b) as [| | | |visibility| |];
        try (by left).
      simpl in Hvis.
      destruct (String.eqb_spec visibility "private") as [Heq|_];
        [by right; left|].
      destruct (String.eqb_spec visibility "public") as [Heq|_];
        [by right; right|done].
    + exists w. do 4 (split; [done|]). split; [by left|]. by intros [].
  - intros b' items node foreign [= <-] Hnodes Hnode Hnames Hforeign Hother _.
    apply Hother. f_equal. symmetry.
    by apply (Hvalid eq_refl items node foreign).
Qed.

(** *** Starting an execution *)



(** *** API keys *)

Lemma validateApiKey_run sha256_hex now authHeader workflowUserId s :
  ∃ v s',
    validateApiKey sha256_hex now authHeader workflowUserId s
    = (Returned v, s')
    ∧ proc s' = proc s
    ∧ workflows s' = workflows s
    ∧ workflow_executions s' = workflow_executions s
    ∧ workflow_execution_logs s' = workflow_execution_logs s
    ∧ started s' = started s
    ∧ start_fates s' = start_fates s
    ∧ map (λ k, (key_id k, key_user_id k, key_hash k)) (api_keys s')
      = map (λ k, (key_id k, key_user_id k, key_hash k)) (api_keys s)
    ∧ (key_valid v = true ↔
       ∃ header rest row,
         authHeader = Some header
         ∧ header ≠ ""
         ∧ String.prefix "wfb_" (bearer_key header) = true
         ∧ fates s = QuerySucceeds :: rest
         ∧ List.filter
             (λ k, String.eqb (key_hash k)
                              (sha256_hex (bearer_key header)))
             (api_keys s) = [row]
         ∧ key_user_id row = workflowUserId)
    ∧ (key_valid v = false →
       api_keys s' = api_keys s
       ∧ (statusCode v = Some 401%nat ∨ statusCode v = Some 403%nat)
       ∧ ∃ message, key_error v = Some message).
Proof.
  unfold validateApiKey. fold (bearer_key (default "" authHeader)).
  destruct authHeader as [header|].
  2: { eexists _, _. split; [reflexivity|]. simpl. do 7 (split; [done|]).
       split; [split; [done|by intros (? & ? & ? & [=] & _)]|].
       intros _. split; [done|]. split; [by left|by eexists]. }
  destruct (String.eqb_spec header "") as [->|Hheader].
  { eexists _, _. split; [reflexivity|]. simpl. do 7 (split; [done|]).
    split; [split; [done|by intros (? & ? & ? & [= <-] & ? & _)]|].
    intros _. split; [done|]. split; [by left|by eexists]. }
  fold (bearer_key header).
  destruct (String.prefix "wfb_" (bearer_key header)) eqn:Hprefix; simpl.
  2: { eexists _, _. split; [reflexivity|]. simpl. do 7 (split; [done|]).
       split.
       - split; [done|]. intros (h & ? & ? & [= <-] & _ & Hp & _).
         congruence.
       - intros _. split; [done|]. split; [by left|by eexists]. }
  unfold bind at 1, query.
  destruct (fates s) as [|[msg|] rest] eqn:Hfates.
  1,2: eexists _, _; (split; [reflexivity|]); simpl; do 7 (split; [done|]);
       (split; [split; [done|by intros (? & ? & ? & _ & _ & _ & [=] & _)]|]);
       intros _; (split; [done|]); (split; [by left|by eexists]).
  cbn [api_keys set_fates].
  destruct (List.filter
              (λ k, String.eqb (key_hash k) (sha256_hex (bearer_key header)))
              (api_keys s)) as [|row [|row' rows]] eqn:Hrows.
  1,3: eexists _, _; (split; [reflexivity|]); simpl; do 7 (split; [done|]);
       (split; [split; [done|]; intros (h & ? & ? & [= <-] & _ & _ & _ & Hr & _);
                rewrite Hrows in Hr; discriminate|]);
       intros _; (split; [done|]); (split; [by left|by eexists]).
  unfold one_row. cbv beta iota.
  destruct (String.eqb_spec (key_user_id row) workflowUserId) as [Hu|Hu];
    simpl.
  2: { eexists _, _. split; [reflexivity|]. simpl. do 7 (split; [done|]).
       split.
       - split; [done|].
         intros (h & ? & r & [= <-] & _ & _ & _ & Hr & Hr').
         rewrite Hrows in Hr. injection Hr as <-. done.
       - intros _. split; [done|]. split; [by right|by eexists]. }
  assert (∀ rows : list ApiKeyRow,
            map (λ k, (key_id k, key_user_id k, key_hash k))
                (map (λ k, if String.eqb (key_id k) (key_id row)
                           then {| key_id := key_id k;
                                   key_user_id := key_user_id k;
                                   key_hash := key_hash k;
                                   key_last_used_at := Some now |}
                           else k) rows)
            = map (λ k, (key_id k, key_user_id k, key_hash k)) rows)
    as Hsame.
  { intros l. rewrite map_map. apply map_ext. intros k.
    by destruct (String.eqb (key_id k) (key_id row)). }
  unfold bind, query, ret. simpl fates.
  destruct rest as [|[msg|] rest']; simpl.
  - eexists _, _. split; [reflexivity|]. simpl. do 7 (split; [done|]).
    split; [|done]. split; [|done]. intros _.
    exists header, [], row. done.
  - eexists _, _. split; [reflexivity|]. simpl. do 7 (split; [done|]).
    split; [|done]. split; [|done]. intros _.
    by exists header, (QueryFails msg :: rest'), row.
  - eexists _, _. split; [reflexivity|]. simpl. do 6 (split; [done|]).
    split; [apply Hsame|]. split; [|done]. split; [|done]. intros _.
    by exists header, (QuerySucceeds :: rest'), row.
Qed.

(** X25. [validateApiKey] accepts a request exactly when it carries an
    [Authorization] header whose key, with or without [Bearer ] before it,
    begins with [wfb_], the lookup succeeds, precisely one stored key has
    the hash of that key, and that key belongs to the owner of the
    workflow. Every other request is turned down with status 401 or 403
    and an error text, and nothing is written then; an accepted one changes
    at most the time of last use of a key. The function never throws. *)
Theorem validateApiKey_accepts_only_a_key_of_the_owner
    (sha256_hex : string → string) (now : string)
    (authHeader : option string) (workflowUserId : string) (s : Server) :
  ∃ v s',
    validateApiKey sha256_hex now authHeader workflowUserId s
    = (Returned v, s')
    ∧ workflows s' = workflows s
    ∧ workflow_executions s' = workflow_executions s
    ∧ map (λ k, (key_id k, key_user_id k, key_hash k)) (api_keys s')
      = map (λ k, (key_id k, key_user_id k, key_hash k)) (api_keys s)
    ∧ (key_valid v = true ↔
       ∃ header rest row,
         authHeader = Some header
         ∧ header ≠ ""
         ∧ String.prefix "wfb_" (bearer_key header) = true
         ∧ fates s = QuerySucceeds :: rest
         ∧ List.filter
             (λ k, String.eqb (key_hash k)
                              (sha256_hex (bearer_key header)))
             (api_keys s) = [row]
         ∧ key_user_id row = workflowUserId)
    ∧ (key_valid v = false →
       api_keys s' = api_keys s
       ∧ (statusCode v = Some 401%nat ∨ statusCode v = Some 403%nat)
       ∧ ∃ message, key_error v = Some message).
Proof.
  destruct (validateApiKey_run sha256_hex now authHeader workflowUserId s)
    as (v & s' & Hrun & _ & Hwf & Hexec & _ & _ & _ & Hkeys & Hvalid & Hno).
  exists v, s'. done.
Qed.

(** *** Running a workflow *)




Section Running.

Variable code_points : string → list string.
Variable sha256_hex : string → string.



End Running.

(** *** Deleting the executions of a workflow *)

(** X28. [DELETE /api/workflows/[workflowId]/executions] never throws,
    adds nothing and removes nothing but executions of that workflow and
    logs of such executions; for anybody but the owner of the one workflow
    with the id it removes nothing at all. Because the logs go first, no
    outcome leaves a log behind without its execution: if every log
    belonged to an execution before, every log does so afterwards, also
    when a query fails half way. Executions are removed only with the
    answer 200, which then reports how many there were, and no execution
    of the workflow is left. *)
Theorem executions_DELETE_leaves_no_log_without_its_execution
    (user : option string) (workflowId : string) (s : Server) :
  ∃ r s',
    executions_DELETE user workflowId s = (Returned r, s')
    ∧ workflows s' = workflows s
    ∧ proc s' = proc s
    ∧ started s' = started s
    ∧ (logs_have_executions s → logs_have_executions s')
    ∧ (∀ e, e ∈ workflow_executions s' → e ∈ workflow_executions s)
    ∧ (∀ l, l ∈ workflow_execution_logs s' → l ∈ workflow_execution_logs s)
    ∧ (∀ e, e ∈ workflow_executions s →
            WorkflowExecutions.exec_workflow_id e ≠ workflowId →
            e ∈ workflow_executions s')
    ∧ (∀ l, l ∈ workflow_execution_logs s →
            (∀ e, e ∈ workflow_executions s →
                  WorkflowExecutions.exec_id e
                  = WorkflowLogging.row_execution_id l →
                  WorkflowExecutions.exec_workflow_id e ≠ workflowId) →
            l ∈ workflow_execution_logs s')
    ∧ ((∀ w, w ∈ workflows s → wf_id w = workflowId →
             user ≠ Some (wf_user_id w)) →
       workflow_executions s' = workflow_executions s
       ∧ workflow_execution_logs s' = workflow_execution_logs s
       ∧ status r ≠ 200%nat)
    ∧ (status r ≠ 200%nat → workflow_executions s' = workflow_executions s)
    ∧ (status r = 200%nat →
       (∀ e, e ∈ workflow_executions s' →
             WorkflowExecutions.exec_workflow_id e ≠ workflowId)
       ∧ json r
         = VObj [("success", VBool true);
                 ("deletedCount",
                  VNum (Z.of_nat
                          (length
                             (List.filter
                                (λ e, String.eqb
                                        (WorkflowExecutions.exec_workflow_id e)
                                        workflowId)
                                (workflow_executions s)))))]).
Proof.
  set (mine := λ e, String.eqb (WorkflowExecutions.exec_workflow_id e)
                               workflowId).
  set (executionIds := map WorkflowExecutions.exec_id
                           (List.filter mine (workflow_executions s))).
  set (kept_logs := List.filter
                      (λ l, negb (bool_decide
                                    (WorkflowLogging.row_execution_id l
                                     ∈ executionIds)))
                      (workflow_execution_logs s)).
  set (kept_executions := List.filter (λ e, negb (mine e))
                                      (workflow_executions s)).
  assert (∀ l, l ∈ kept_logs → l ∈ workflow_execution_logs s) as Hlogs_sub.
  { intros l Hl. apply list_elem_of_In, filter_In in Hl as [Hl _].
    by apply list_elem_of_In. }
  assert (∀ e, e ∈ kept_executions → e ∈ workflow_executions s) as Hexec_sub.
  { intros e He. apply list_elem_of_In, filter_In in He as [He _].
    by apply list_elem_of_In. }
  assert (∀ e, e ∈ workflow_executions s →
               WorkflowExecutions.exec_workflow_id e ≠ workflowId →
               e ∈ kept_executions) as Hexec_kept.
  { intros e He Hother. apply list_elem_of_In, filter_In.
    split; [by apply list_elem_of_In|].
    unfold mine. by apply negb_true_iff, String.eqb_neq. }
  assert (∀ e, e ∈ kept_executions →
               WorkflowExecutions.exec_workflow_id e ≠ workflowId)
    as Hexec_other.
  { intros e He. apply list_elem_of_In, filter_In in He as [_ He].
    unfold mine in He. by apply negb_true_iff, String.eqb_neq in He. }
  assert (∀ l, l ∈ workflow_execution_logs s →
               (∀ e, e ∈ workflow_executions s →
                     WorkflowExecutions.exec_id e
                     = WorkflowLogging.row_execution_id l →
                     WorkflowExecutions.exec_workflow_id e ≠ workflowId) →
               l ∈ kept_logs) as Hlogs_kept.
  { intros l Hl Hother. apply list_elem_of_In, filter_In.
    split; [by apply list_elem_of_In|].
    apply negb_true_iff, bool_decide_eq_false. intros Hin.
    apply list_elem_of_In, in_map_iff in Hin as (e & Hid & He).
    apply filter_In in He as [He Hmine]. apply list_elem_of_In in He.
    unfold mine in Hmine. apply String.eqb_eq in Hmine.
    by destruct (Hother e He Hid). }
  assert (∀ executions' logs',
            (executions' = workflow_executions s ∧
             (logs' = workflow_execution_logs s ∨ logs' = kept_logs))
            ∨ (executions' = kept_executions ∧ logs' = kept_logs) →
            (∀ l, l ∈ workflow_execution_logs s →
                  ∃ e, e ∈ workflow_executions s
                       ∧ WorkflowExecutions.exec_id e
                         = WorkflowLogging.row_execution_id l) →
            ∀ l, l ∈ logs' →
                 ∃ e, e ∈ executions'
                      ∧ WorkflowExecutions.exec_id e
                        = WorkflowLogging.row_execution_id l) as Hintegrity.
  { intros executions' logs' Hcases Hbefore l Hl.
    destruct Hcases as [[-> [-> | ->]] | [-> ->]].
    - by apply Hbefore.
    - apply Hbefore. by apply Hlogs_sub.
    - destruct (Hbefore l (Hlogs_sub l Hl)) as (e & He & Hid).
      exists e. split; [|done].
      apply Hexec_kept; [done|]. intros Hmine.
      apply list_elem_of_In, filter_In in Hl as [_ Hl].
      apply negb_true_iff, bool_decide_eq_false in Hl. apply Hl.
      rewrite <- Hid. apply list_elem_of_In, in_map. apply filter_In.
      split; [by apply list_elem_of_In|].
      unfold mine. by apply String.eqb_eq. }
  assert (∀ r s',
            workflows s' = workflows s → proc s' = proc s →
            started s' = started s →
            workflow_executions s' = workflow_executions s →
            (workflow_execution_logs s' = workflow_execution_logs s
             ∨ (workflow_execution_logs s' = kept_logs
                ∧ ∃ w, w ∈ workflows s ∧ wf_id w = workflowId
                       ∧ user = Some (wf_user_id w))) →
            status r ≠ 200%nat →
            workflows s' = workflows s
            ∧ proc s' = proc s
            ∧ started s' = started s
            ∧ (logs_have_executions s → logs_have_executions s')
            ∧ (∀ e, e ∈ workflow_executions s' → e ∈ workflow_executions s)
            ∧ (∀ l, l ∈ workflow_execution_logs s' →
                    l ∈ workflow_execution_logs s)
            ∧ (∀ e, e ∈ workflow_executions s →
                    WorkflowExecutions.exec_workflow_id e ≠ workflowId →
                    e ∈ workflow_executions s')
            ∧ (∀ l, l ∈ workflow_execution_logs s →
                    (∀ e, e ∈ workflow_executions s →
                          WorkflowExecutions.exec_id e
                          = WorkflowLogging.row_execution_id l →
                          WorkflowExecutions.exec_workflow_id e
                          ≠ workflowId) →
                    l ∈ workflow_execution_logs s')
            ∧ ((∀ w, w ∈ workflows s → wf_id w = workflowId →
                     user ≠ Some (wf_user_id w)) →
               workflow_executions s' = workflow_executions s
               ∧ workflow_execution_logs s' = workflow_execution_logs s
               ∧ status r ≠ 200%nat)
            ∧ (status r ≠ 200%nat →
               workflow_executions s' = workflow_executions s)
            ∧ (status r = 200%nat →
               (∀ e, e ∈ workflow_executions s' →
                     WorkflowExecutions.exec_workflow_id e ≠ workflowId)
               ∧ json r
                 = VObj [("success", VBool true);
                         ("deletedCount",
                          VNum (Z.of_nat
                                  (length
                                     (List.filter mine
                                        (workflow_executions s)))))])) as Hfail.
  { intros r s' Hwf Hproc Hstarted Hexec Hlogs Hstatus.
    do 3 (split; [done|]). rewrite Hexec.
    split.
    { unfold logs_have_executions. rewrite Hexec. intros Hbefore.
      apply (Hintegrity (workflow_executions s)
               (workflow_execution_logs s')); [|done].
      left. split; [done|]. destruct Hlogs as [->|[-> _]]; auto. }
    split; [done|].
    split; [destruct Hlogs as [->|[-> _]]; auto|].
    split; [done|].
    split; [destruct Hlogs as [->|[-> _]]; auto|].
    split; [|split; [done|by intros ?]].
    intros Hother. split; [done|]. split; [|done].
    destruct Hlogs as [->|[_ (w & Hw & Hid & Hu)]]; [done|].
    by destruct (Hother w Hw Hid). }
  unfold executions_DELETE, try_catch.
  destruct user as [u|].
  2: { eexists _, _. split; [reflexivity|]. apply Hfail; auto. }
  unfold bind at 1, query.
  destruct (fates s) as [|[msg|] rest] eqn:Hfates.
  1,2: eexists _, _; (split; [reflexivity|]); apply Hfail; auto.
  cbn [workflows set_fates].
  destruct (List.filter
              (λ w, String.eqb (wf_id w) workflowId
                    && String.eqb (wf_user_id w) u) (workflows s))
    as [|w [|w' ws]] eqn:Hown.
  1,3: eexists _, _; (split; [reflexivity|]); apply Hfail; auto.
  destruct (filter_singleton_elem _ _ _ Hown) as [Hw Hmine].
  apply andb_true_iff in Hmine as [Hid Hu].
  apply String.eqb_eq in Hid, Hu.
  assert (∃ w, w ∈ workflows s ∧ wf_id w = workflowId
               ∧ Some u = Some (wf_user_id w)) as Howner
    by (exists w; by rewrite Hu).
  unfold one_row. cbv iota beta.
  unfold bind at 1, query. simpl fates.
  destruct rest as [|[msg|] rest].
  1,2: eexists _, _; (split; [reflexivity|]); apply Hfail; auto.
  cbn [workflow_executions set_fates]. cbv iota beta.
  fold mine. simpl default. fold executionIds.
  destruct (Nat.ltb 0 (length executionIds)) eqn:Hany.
  2: { unfold bind, ret. eexists _, _. split; [reflexivity|]. simpl.
       assert (List.filter mine (workflow_executions s) = []) as Hnone.
       { apply Nat.ltb_ge in Hany. unfold executionIds in Hany.
         rewrite length_map in Hany.
         destruct (List.filter mine (workflow_executions s)); [done|].
         simpl in Hany. lia. }
       do 3 (split; [done|]). split; [done|]. do 4 (split; [done|]).
       split; [by intros Hother; destruct Howner as (w0 & Hw0 & Hid0 & [= ->]);
                  destruct (Hother w0 Hw0 Hid0)|].
       split; [done|]. intros _. split.
       - intros e He Hmine.
         assert (In e (List.filter mine (workflow_executions s))) as Hin
           by (apply filter_In; split; [by apply list_elem_of_In|];
               unfold mine; by apply String.eqb_eq).
         by rewrite Hnone in Hin.
       - unfold executionIds. by rewrite length_map. }
  unfold bind at 1, bind at 1, query. simpl fates.
  destruct rest as [|[msg|] rest].
  1,2: eexists _, _; (split; [reflexivity|]); apply Hfail; auto.
  cbv iota beta.
  unfold bind at 1, query. simpl fates.
  cbn [workflow_execution_logs set_fates].
  fold kept_logs.
  destruct rest as [|[msg|] rest].
  1,2: eexists _, _; (split; [reflexivity|]); apply Hfail; simpl; auto.
  cbv iota beta. unfold bind, ret. simpl.
  fold mine. fold kept_executions.
  eexists _, _. split; [reflexivity|]. simpl.
  do 3 (split; [done|]).
  split.
  { unfold logs_have_executions. simpl. intros Hbefore.
    apply (Hintegrity kept_executions kept_logs); auto. }
  do 4 (split; [done|]).
  split; [by intros Hother; destruct Howner as (w0 & Hw0 & Hid0 & [= ->]);
             destruct (Hother w0 Hw0 Hid0)|].
  split; [done|]. intros _. split; [done|].
  unfold executionIds. by rewrite length_map.
Qed.

End ApiFacts.
